(** * Kalshi volume bot: opportunity discovery and order-lifecycle reconciliation

    A shallow embedding of the decision core of the bot (position model,
    exit strategy, position sizer, market filters, scanner, position
    monitor, order manager, exit handler and the FIFO round-trip
    accounting), with the properties stated about it.

    Conventions.
    - [Decimal] values are finite and exact: rationals ([Q]), compared
      with the boolean tests of [Q]; a division raises on a zero
      divisor, which the [result] type makes explicit.
    - Python [int] is [Z]; [str] is [string]; a [set] of tickers is a
      [gset string]; the order-tracking [dict] is a [gmap string _].
    - A call into the venue gateway is an argument of the operation that
      makes it: its answer, or the fact that it raised. *)

From Stdlib Require Import ZArith QArith Qround Lia Lra Ascii String Sorted.
From stdpp Require Import base gmap strings list fin_maps fin_sets.

Set Default Proof Using "Type".
Set Warnings "-clear-no-such-hyp".

(** ** Exceptions and the [Decimal] model *)

Inductive Exn :=
| DivisionByZero
| InsufficientFundsError
| MarketClosedError
| RateLimitError
| OrderFailedError
| AuthenticationError
| OtherError.

Inductive result (A : Type) : Type :=
| Ok (a : A)
| Raise (e : Exn).
Arguments Ok {A} a.
Arguments Raise {A} e.

#[global] Instance result_ret : MRet result := fun A a => Ok a.

#[global] Instance result_bind : MBind result := fun A B k r =>
  match r with
  | Ok a => k a
  | Raise e => Raise e
  end.

Module Decimal.

Definition eqb (x y : Q) : bool := Qeq_bool x y.
Definition leb (x y : Q) : bool := Qle_bool x y.
Definition ltb (x y : Q) : bool := negb (Qle_bool y x).

(** [x / y]: raises when the divisor is zero. *)
Definition div (x y : Q) : result Q :=
  if eqb y 0 then Raise DivisionByZero else Ok (x / y)%Q.

(** [int(x)]: truncation toward zero. *)
Definition to_int (x : Q) : Z := Z.quot (Qnum x) (Zpos (Qden x)).

(** Truth value of a [Decimal]: zero is falsy. *)
Definition truthy (x : Q) : bool := negb (eqb x 0).

End Decimal.

(** ** Data model (src/models) *)

Inductive Side := YES | NO.

#[global] Instance Side_eq_dec : EqDecision Side.
Proof. solve_decision. Defined.

Record Position := mkPosition {
  pos_ticker : string;
  pos_side : Side;
  pos_contracts : Z;
  average_entry_price : Q;
  current_price : Q;
  pos_volume : Z
}.

Record ExitSignal := mkExitSignal {
  sig_ticker : string;
  sig_side : Side;
  sig_contracts : Z;
  exit_price : Q;
  sig_reason : string
}.

Module PositionModel.

Definition entry_cost (p : Position) : Q :=
  (average_entry_price p * inject_Z (pos_contracts p))%Q.

Definition current_value (p : Position) : Q :=
  (current_price p * inject_Z (pos_contracts p))%Q.

Definition unrealized_pnl (p : Position) : Q :=
  (current_value p - entry_cost p)%Q.

Definition unrealized_pnl_percent (p : Position) : result Q :=
  if Decimal.eqb (entry_cost p) 0 then Ok 0%Q
  else Decimal.div (unrealized_pnl p) (entry_cost p).

End PositionModel.
Export PositionModel.

(** ** Configuration (config/settings.py, the fields the core reads) *)

Inductive MarketCategory :=
| ALL | CRYPTO | WEATHER | POLITICS | ECONOMICS | SPORTS
| PLAYER_PROPS | COLLEGE_BASKETBALL | BASKETBALL.

Record TradingSettings := mkSettings {
  liquidity_threshold_usd : Z;
  probability_threshold : Q;
  max_probability_threshold : Q;
  profit_target_percent : Q;
  stop_loss_percent : option Q;
  stop_loss_min_volume : Z;
  min_market_volume : Z;
  min_position_percent : Q;
  max_position_percent : Q;
  min_contracts : Z;
  max_hours_until_close : Z;
  order_timeout_seconds : Z;
  market_category : MarketCategory;
  include_live_markets : bool
}.

(** The defaults of [TradingSettings]. *)
Definition default_settings : TradingSettings := {|
  liquidity_threshold_usd := 50000;
  probability_threshold := 80 # 100;
  max_probability_threshold := 90 # 100;
  profit_target_percent := 65 # 1000;
  stop_loss_percent := None;
  stop_loss_min_volume := 100000;
  min_market_volume := 0;
  min_position_percent := 2 # 100;
  max_position_percent := 10 # 100;
  min_contracts := 1;
  max_hours_until_close := 24;
  order_timeout_seconds := 300;
  market_category := ALL;
  include_live_markets := false
|}.

(** ** Position sizer (src/strategy/position_sizer.py) *)

Module PositionSizer.

Definition max_position_pct (s : TradingSettings) : Q := max_position_percent s.

Definition calculate_contracts (s : TradingSettings)
    (portfolio_value entry_price : Q) : result Z :=
  if Decimal.leb portfolio_value 0 || Decimal.leb entry_price 0 then
    Ok (min_contracts s)
  else
    let max_spend := (portfolio_value * max_position_pct s)%Q in
    q ← Decimal.div max_spend entry_price;
    let contracts := Decimal.to_int q in
    Ok (Z.max contracts (min_contracts s)).

End PositionSizer.

(** ** Strategy (src/strategy/high_probability.py) *)

Module Strategy.

Definition profit_target (s : TradingSettings) : Q := profit_target_percent s.

(** [Decimal(str(x)) if x else None]. *)
Definition stop_loss (s : TradingSettings) : option Q :=
  match stop_loss_percent s with
  | Some x => if Decimal.truthy x then Some x else None
  | None => None
  end.

Definition signal_for (p : Position) (reason : string) : ExitSignal :=
  {| sig_ticker := pos_ticker p;
     sig_side := pos_side p;
     sig_contracts := pos_contracts p;
     exit_price := current_price p;
     sig_reason := reason |}.

Definition evaluate_exit (s : TradingSettings) (position : Position)
    : result (option ExitSignal) :=
  pnl_percent ← unrealized_pnl_percent position;
  if Decimal.leb (profit_target s) pnl_percent then
    Ok (Some (signal_for position "profit_target"))
  else if
    match stop_loss s with
    | Some sl => Decimal.truthy sl && Decimal.leb pnl_percent (- sl)
    | None => false
    end
  then
    let min_vol := stop_loss_min_volume s in
    if (min_vol <=? pos_volume position)%Z then
      Ok (Some (signal_for position "stop_loss"))
    else Ok None
  else Ok None.

End Strategy.

(** ** Markets and order books (src/models/market.py) *)

Record Market := mkMarket {
  ticker : string;
  title : string;
  yes_price : Q;
  no_price : Q;
  close_time : option Z;            (* seconds since the epoch *)
  category : string;
  yes_bid : option Q;
  yes_ask : option Q;
  no_bid : option Q;
  no_ask : option Q;
  volume : Z;
  expected_expiration_time : option Z
}.

Record OrderBookLevel := mkLevel {
  price : Q;
  quantity : Z
}.

Record OrderBook := mkOrderBook {
  ob_ticker : string;
  yes_bids : list OrderBookLevel;
  yes_asks : list OrderBookLevel;
  no_bids : list OrderBookLevel;
  no_asks : list OrderBookLevel
}.

Record MarketOpportunity := mkOpportunity {
  market : Market;
  orderbook : OrderBook;
  recommended_side : Side;
  entry_price : Q;
  liquidity : Q;
  probability : Q
}.

Module MarketModel.

(** [x is not None and x > 0]. *)
Definition positive_quote (x : option Q) : bool :=
  match x with
  | Some b => Decimal.ltb 0 b
  | None => false
  end.

Definition has_liquidity (m : Market) : bool :=
  positive_quote (yes_bid m) || positive_quote (no_bid m).

Definition yes_probability (m : Market) : Q := (yes_price m / 100)%Q.

(** One side of [calculate_liquidity]: [total] grows by the value of
    every level within [depth_cents] of the first level, [spread best
    level] being the distance. *)
Definition side_liquidity (spread : Q -> Q -> Q) (depth_cents : Q)
    (levels : list OrderBookLevel) (total : Q) : Q :=
  match levels with
  | [] => total
  | best :: _ =>
      foldl (fun total level =>
               if Decimal.leb (spread (price best) (price level)) depth_cents
               then (total + price level * inject_Z (quantity level))%Q
               else total)
            total levels
  end.

Definition calculate_liquidity (ob : OrderBook) (depth_cents : Q) : Q :=
  let total := 0%Q in
  let total := side_liquidity (fun best p => best - p)%Q depth_cents (yes_bids ob) total in
  let total := side_liquidity (fun best p => p - best)%Q depth_cents (yes_asks ob) total in
  total.

(** Truth value of a list. *)
Definition nonempty {A} (l : list A) : bool :=
  match l with
  | [] => false
  | _ :: _ => true
  end.

Definition first_price (levels : list OrderBookLevel) : option Q :=
  match levels with
  | [] => None
  | l :: _ => Some (price l)
  end.

Definition get_best_price (ob : OrderBook) (side : Side) (action : string)
    : option Q :=
  match side with
  | YES =>
      if String.eqb action "buy" && nonempty (yes_asks ob) then
        first_price (yes_asks ob)
      else if String.eqb action "sell" && nonempty (yes_bids ob) then
        first_price (yes_bids ob)
      else None
  | NO =>
      if String.eqb action "buy" && nonempty (no_asks ob) then
        first_price (no_asks ob)
      else if String.eqb action "sell" && nonempty (no_bids ob) then
        first_price (no_bids ob)
      else None
  end.

(** [OrderBook(ticker=t)]: every side empty. *)
Definition empty_orderbook (t : string) : OrderBook :=
  {| ob_ticker := t; yes_bids := []; yes_asks := [];
     no_bids := []; no_asks := [] |}.

End MarketModel.
Export MarketModel.

(** ** Market filters (src/scanner/filters.py) *)

(** What the filters read from the clock: the current UTC time in
    seconds, and the local date formatted as [%b%d] in upper case. *)
Record Clock := mkClock {
  now_utc : Z;
  today_local : string
}.

Module Text.

Definition upper_ascii (c : ascii) : ascii :=
  let n := nat_of_ascii c in
  if (97 <=? n)%nat && (n <=? 122)%nat then ascii_of_nat (n - 32) else c.

Fixpoint upper (s : string) : string :=
  match s with
  | EmptyString => EmptyString
  | String c r => String (upper_ascii c) (upper r)
  end.

(** [needle in hay]. *)
Fixpoint contains (needle hay : string) : bool :=
  String.prefix needle hay ||
  match hay with
  | EmptyString => false
  | String _ r => contains needle r
  end.

(** [s.rfind(c)] for a one-character pattern: the index of its last
    occurrence, or -1. *)
Fixpoint rfind (c : ascii) (s : string) : Z :=
  match s with
  | EmptyString => (-1)%Z
  | String a r =>
      let i := rfind c r in
      if (0 <=? i)%Z then (i + 1)%Z
      else if Ascii.eqb a c then 0%Z else (-1)%Z
  end.

End Text.

Module MarketFilters.
Section Filters.

(** The category matcher of src/scanner/categories.py (regular
    expression tables) is taken as given. *)
Variable matches_category : Market -> MarketCategory -> bool.
Variable settings : TradingSettings.

Definition liquidity_threshold_cents : Z := (liquidity_threshold_usd settings * 100)%Z.

Definition passes_category (m : Market) : bool :=
  matches_category m (market_category settings).

(** [probability_threshold <= p <= max_probability_threshold]. *)
Definition in_band (p : Q) : bool :=
  Decimal.leb (probability_threshold settings) p
  && Decimal.leb p (max_probability_threshold settings).

Definition _is_todays_game (clk : Clock) (m : Market) : bool :=
  Text.contains (today_local clk) (Text.upper (ticker m)).

Definition _GAME_DURATION : Z := (3 * 3600)%Z.

Definition _is_game_in_progress (clk : Clock) (m : Market) : bool :=
  match expected_expiration_time m with
  | None => false
  | Some eet => (eet - _GAME_DURATION <? now_utc clk)%Z
  end.

Definition passes_probability (m : Market) : option Side :=
  let yes_prob := yes_probability m in
  if in_band yes_prob then Some YES
  else
    match yes_ask m with
    | Some ask => if in_band (ask / 100)%Q then Some YES else None
    | None => None
    end.

Definition quick_filter (clk : Clock) (m : Market) : bool :=
  if negb (include_live_markets settings) && _is_game_in_progress clk m then false
  else if negb (has_liquidity m) then false
  else if (0 <? min_market_volume settings)%Z
          && (volume m <? min_market_volume settings)%Z then false
  else
    let time_ok :=
      match market_category settings with
      | COLLEGE_BASKETBALL | BASKETBALL => _is_todays_game clk m
      | _ =>
          match close_time m with
          | Some ct =>
              if (0 <? max_hours_until_close settings)%Z then
                let hours_until_close := (inject_Z (ct - now_utc clk) / 3600)%Q in
                if Decimal.ltb (inject_Z (max_hours_until_close settings)) hours_until_close
                then false
                else if Decimal.ltb hours_until_close 0 then false
                else true
              else true
          | None => true
          end
      end in
    if negb time_ok then false
    else match passes_probability m with
         | None => false
         | Some _ => true
         end.

Definition passes_liquidity (m : Market) (ob : OrderBook) : bool :=
  let liquidity := calculate_liquidity ob 5 in
  if Decimal.eqb liquidity 0 && has_liquidity m then
    if (liquidity_threshold_cents =? 0)%Z then true
    else
      let avg_price := ((yes_price m + no_price m) / 2)%Q in
      let liquidity := (inject_Z (volume m) * avg_price)%Q in
      Decimal.leb (inject_Z liquidity_threshold_cents) liquidity
  else Decimal.leb (inject_Z liquidity_threshold_cents) liquidity.

(** Truth value of an optional quote: [None] and zero are falsy. *)
Definition quoted (x : option Q) : bool :=
  match x with
  | Some a => Decimal.truthy a
  | None => false
  end.

Definition _get_entry_price (m : Market) (ob : OrderBook) (side : Side)
    : option Q :=
  match get_best_price ob side "buy" with
  | Some p => Some p
  | None =>
      if bool_decide (side = YES) && quoted (yes_ask m) then yes_ask m
      else if bool_decide (side = NO) && quoted (no_ask m) then no_ask m
      else None
  end.

Definition evaluate (m : Market) (ob : OrderBook) : option MarketOpportunity :=
  if negb (passes_category m) then None
  else if negb (passes_liquidity m ob) then None
  else
    match passes_probability m with
    | None => None
    | Some recommended_side =>
        match _get_entry_price m ob recommended_side with
        | None => None
        | Some entry_price =>
            if Decimal.ltb 90 entry_price then None
            else if Decimal.leb 100 entry_price || Decimal.ltb entry_price 1 then None
            else
              let probability := (entry_price / 100)%Q in
              if negb (in_band probability) then None
              else
                let liquidity := calculate_liquidity ob 5 in
                let liquidity :=
                  if Decimal.eqb liquidity 0 && (0 <? volume m)%Z then
                    let avg_price := ((yes_price m + no_price m) / 2)%Q in
                    (inject_Z (volume m) * avg_price)%Q
                  else liquidity in
                Some {| market := m;
                        orderbook := ob;
                        recommended_side := recommended_side;
                        entry_price := entry_price;
                        liquidity := liquidity;
                        probability := probability |}
        end
    end.

End Filters.
End MarketFilters.

(** ** Stable sorting by a key, as [sorted] and [list.sort] do *)

Module Sorting.
Section Sort.
Context {A : Type} (before : A -> A -> bool).

(** [before x y]: [x] may stand in front of [y]. *)
Fixpoint insert_sorted (x : A) (l : list A) : list A :=
  match l with
  | [] => [x]
  | y :: r => if before x y then x :: y :: r else y :: insert_sorted x r
  end.

Definition stable_sort (l : list A) : list A := foldr insert_sorted [] l.

End Sort.
End Sorting.

(** ** Market scanner (src/scanner/market_scanner.py) *)

Record Page := mkPage {
  page_markets : list Market;
  page_cursor : option string
}.

Module MarketScanner.

Record state := mkState {
  _existing_positions : gset string;
  _existing_events : gset string;
  _stop_requested : bool
}.

Definition init : state :=
  {| _existing_positions := ∅; _existing_events := ∅; _stop_requested := false |}.

Definition _get_event_prefix (t : string) : string :=
  let last_dash := Text.rfind "-"%char t in
  if (0 <? last_dash)%Z then String.substring 0 (Z.to_nat last_dash) t else t.

(** The set passed in becomes the scanner's own set (the same object);
    the event prefixes are rebuilt from it. *)
Definition set_existing_positions (st : state) (position_tickers : gset string)
    : state :=
  {| _existing_positions := position_tickers;
     _existing_events :=
       foldr (fun t events => {[ _get_event_prefix t ]} ∪ events) ∅
             (elements position_tickers);
     _stop_requested := _stop_requested st |}.

(** Truth value of a cursor: [None] and the empty string are falsy. *)
Definition more_pages (cursor : option string) : bool :=
  match cursor with
  | Some c => negb (String.eqb c "")
  | None => false
  end.

Section Scanner.

Variable matches_category : Market -> MarketCategory -> bool.
Variable settings : TradingSettings.
Variable clk : Clock.
(** [get_orderbook k t]: the venue's answer to the order-book read made
    for the [k]-th market checked, whose ticker is [t]. *)
Variable get_orderbook : nat -> string -> result OrderBook.

(** The body of the loop over one page's markets, for one market:
    what is yielded, and the state afterwards. *)
Definition scan_market (st : state) (markets_checked : nat) (m : Market)
    : option MarketOpportunity * state :=
  if bool_decide (ticker m ∈ _existing_positions st) then (None, st)
  else
    let event_prefix := _get_event_prefix (ticker m) in
    if bool_decide (event_prefix ∈ _existing_events st) then (None, st)
    else if negb (MarketFilters.passes_category matches_category settings m) then (None, st)
    else if negb (MarketFilters.quick_filter settings clk m) then (None, st)
    else
      let fetched :=
        if (0 <? liquidity_threshold_usd settings)%Z
        then get_orderbook markets_checked (ticker m)
        else Ok (empty_orderbook (ticker m)) in
      match fetched with
      | Raise _ => (None, st)
      | Ok ob =>
          match MarketFilters.evaluate matches_category settings m ob with
          | Some opportunity =>
              (Some opportunity,
               {| _existing_positions := {[ ticker m ]} ∪ _existing_positions st;
                  _existing_events := {[ event_prefix ]} ∪ _existing_events st;
                  _stop_requested := _stop_requested st |})
          | None => (None, st)
          end
      end.

Fixpoint scan_markets (st : state) (markets_checked : nat) (ms : list Market)
    : list MarketOpportunity * state * nat :=
  match ms with
  | [] => ([], st, markets_checked)
  | m :: rest =>
      let markets_checked := S markets_checked in
      let '(y, st1) := scan_market st markets_checked m in
      let '(ys, st2, n) := scan_markets st1 markets_checked rest in
      (from_option (fun o => [o]) [] y ++ ys, st2, n)
  end.

(** The pagination loop. [answers] are the venue's answers to the
    successive [get_markets] calls; past the end of the list the venue
    answers with an empty page. The result is what was yielded, the
    state afterwards, and whether the run ended by an exception. *)
Fixpoint scan_pages (answers : list (result Page)) (st : state)
    (markets_checked : nat) : list MarketOpportunity * state * result unit :=
  if _stop_requested st then ([], st, Ok tt)
  else
    match answers with
    | [] => ([], st, Ok tt)
    | Raise e :: _ => ([], st, Raise e)
    | Ok page :: rest =>
        if negb (nonempty (page_markets page)) then ([], st, Ok tt)
        else
          let '(ys, st1, n) := scan_markets st markets_checked (page_markets page) in
          if negb (more_pages (page_cursor page)) then (ys, st1, Ok tt)
          else
            let '(ys', st2, r) := scan_pages rest st1 n in
            (ys ++ ys', st2, r)
    end.

Definition scan_iter (st : state) (answers : list (result Page))
    : list MarketOpportunity * state * result unit :=
  scan_pages answers st 0.

(** [scan]: every opportunity of [scan_iter], highest liquidity first. *)
Definition scan (st : state) (answers : list (result Page))
    : result (list MarketOpportunity) * state :=
  let '(ys, st', r) := scan_iter st answers in
  match r with
  | Ok _ =>
      (Ok (Sorting.stable_sort
             (fun a b => Decimal.leb (liquidity b) (liquidity a)) ys), st')
  | Raise e => (Raise e, st')
  end.

End Scanner.
End MarketScanner.

(** ** Orders (src/models/order.py) *)

Inductive OrderStatus :=
| PENDING | OPEN | RESTING | EXECUTED | FILLED
| PARTIALLY_FILLED | CANCELLED | FAILED.

#[global] Instance OrderStatus_eq_dec : EqDecision OrderStatus.
Proof. solve_decision. Defined.

Record OrderResult := mkOrderResult {
  order_id : string;
  status : OrderStatus;
  filled_contracts : Z;
  remaining_contracts : Z;
  average_price : option Q;
  created_at : Z                    (* microseconds since the epoch *)
}.

(** ** Position monitor (src/executor/position_monitor.py) *)

Module PositionMonitor.

Record state := mkState {
  _last_positions : list Position;
  _pending_entry_tickers : gset string
}.

Definition init : state :=
  {| _last_positions := []; _pending_entry_tickers := ∅ |}.

Definition add_pending_entry (st : state) (t : string) : state :=
  {| _last_positions := _last_positions st;
     _pending_entry_tickers := {[ t ]} ∪ _pending_entry_tickers st |}.

Definition remove_pending_entry (st : state) (t : string) : state :=
  {| _last_positions := _last_positions st;
     _pending_entry_tickers := _pending_entry_tickers st ∖ {[ t ]} |}.

(** [{p.ticker for p in positions}]. *)
Definition tickers_of (positions : list Position) : gset string :=
  list_to_set (pos_ticker <$> positions).

(** [answer] is what [client.get_positions()] did: the list it
    returned, or the exception it raised. *)
Definition get_positions (st : state) (answer : result (list Position))
    : list Position * state :=
  match answer with
  | Ok api_positions =>
      (api_positions,
       {| _last_positions := api_positions;
          _pending_entry_tickers :=
            foldl (fun pending pos => pending ∖ {[ pos_ticker pos ]})
                  (_pending_entry_tickers st) api_positions |})
  | Raise _ => (_last_positions st, st)
  end.

Definition get_position_tickers (st : state) (answer : result (list Position))
    : gset string * state :=
  let '(positions, st') := get_positions st answer in
  (tickers_of positions ∪ _pending_entry_tickers st', st').

Definition get_position (st : state) (answer : result (list Position))
    (t : string) : option Position * state :=
  let '(positions, st') := get_positions st answer in
  (List.find (fun pos => String.eqb (pos_ticker pos) t) positions, st').

Definition count_positions (st : state) (answer : result (list Position))
    : nat * state :=
  let '(positions, st') := get_positions st answer in
  let position_tickers := tickers_of positions in
  let extra_pending := _pending_entry_tickers st' ∖ position_tickers in
  (length positions + size extra_pending, st').

End PositionMonitor.

(** ** Order manager (src/executor/order_manager.py) *)

Module OrderManager.

(** [status in (OPEN, FILLED, EXECUTED, RESTING)]. *)
Definition accepted (s : OrderStatus) : bool :=
  match s with
  | OPEN | FILLED | EXECUTED | RESTING => true
  | _ => false
  end.

(** [answer] is what [client.place_order(..., action="sell", ...)] did. *)
Definition place_exit_order (_pending_orders : gmap string OrderResult)
    (answer : result OrderResult)
    : result (option OrderResult) * gmap string OrderResult :=
  match answer with
  | Ok r =>
      if accepted (status r)
      then (Ok (Some r), <[order_id r := r]> _pending_orders)
      else (Ok None, _pending_orders)
  | Raise MarketClosedError => (Ok None, _pending_orders)
  | Raise OrderFailedError => (Ok None, _pending_orders)
  | Raise e => (Raise e, _pending_orders)
  end.

Section Cancel.

Variable settings : TradingSettings.
(** [datetime.utcnow()], in microseconds. *)
Variable now : Z.
(** [client.cancel_order(order_id)]. *)
Variable cancel_order : string -> bool.

Definition timeout : Z := (order_timeout_seconds settings * 1000000)%Z.

(** The condition under which the loop asks the venue to cancel. *)
Definition stale (order : OrderResult) : bool :=
  bool_decide (status order = OPEN) && (timeout <? now - created_at order)%Z.

Record sweep := mkSweep {
  cancelled : list string;
  tracked : gmap string OrderResult;
  requested : list string
}.

Definition cancel_step (acc : sweep) (item : string * OrderResult) : sweep :=
  let '(oid, order) := item in
  if bool_decide (status order = OPEN) then
    let age := (now - created_at order)%Z in
    if (timeout <? age)%Z then
      if cancel_order oid then
        {| cancelled := cancelled acc ++ [oid];
           tracked := delete oid (tracked acc);
           requested := requested acc ++ [oid] |}
      else
        {| cancelled := cancelled acc;
           tracked := tracked acc;
           requested := requested acc ++ [oid] |}
    else acc
  else acc.

(** The loop runs over a snapshot of the tracked orders. *)
Definition cancel_stale_orders (_pending_orders : gmap string OrderResult)
    : sweep :=
  foldl cancel_step
        {| cancelled := []; tracked := _pending_orders; requested := [] |}
        (map_to_list _pending_orders).

End Cancel.
End OrderManager.

(** ** Exit handler (src/executor/exit_handler.py) *)

(** The lines the handler writes: the trade-ledger line of a placed exit
    ([_log_exit]) and the notice that pending exits were found closed. *)
Inductive LogLine :=
| EXIT (signal : ExitSignal) (order : string)
| ExitsFilled (closed : gset string).

Module ExitHandler.

(** The handler together with the collaborators it holds. *)
Record state := mkState {
  position_monitor : PositionMonitor.state;
  order_manager : gmap string OrderResult;
  _pending_exit_tickers : gset string;
  trade_log : list LogLine
}.

Definition init : state :=
  {| position_monitor := PositionMonitor.init;
     order_manager := ∅;
     _pending_exit_tickers := ∅;
     trade_log := [] |}.

Definition with_monitor (st : state) (pm : PositionMonitor.state) : state :=
  {| position_monitor := pm;
     order_manager := order_manager st;
     _pending_exit_tickers := _pending_exit_tickers st;
     trade_log := trade_log st |}.

Section Handler.

Variable settings : TradingSettings.

(** The loop of [check_exits] over the positions. *)
Fixpoint collect_signals (pending : gset string) (positions : list Position)
    : result (list ExitSignal) :=
  match positions with
  | [] => Ok []
  | position :: rest =>
      if bool_decide (pos_ticker position ∈ pending) then
        collect_signals pending rest
      else
        signal ← Strategy.evaluate_exit settings position;
        exit_signals ← collect_signals pending rest;
        Ok (from_option (fun s => [s]) [] signal ++ exit_signals)
  end.

Definition check_exits (st : state) (read : result (list Position))
    : result (list ExitSignal) * state :=
  let '(positions, pm) := PositionMonitor.get_positions (position_monitor st) read in
  (collect_signals (_pending_exit_tickers st) positions, with_monitor st pm).

Definition execute_exit (st : state) (signal : ExitSignal)
    (answer : result OrderResult) : result (option OrderResult) * state :=
  let '(result, om) := OrderManager.place_exit_order (order_manager st) answer in
  match result with
  | Ok (Some r) =>
      (Ok (Some r),
       {| position_monitor := position_monitor st;
          order_manager := om;
          _pending_exit_tickers := {[ sig_ticker signal ]} ∪ _pending_exit_tickers st;
          trade_log := trade_log st ++ [EXIT signal (order_id r)] |})
  | other =>
      (other,
       {| position_monitor := position_monitor st;
          order_manager := om;
          _pending_exit_tickers := _pending_exit_tickers st;
          trade_log := trade_log st |})
  end.

(** The loop of [execute_all_exits] over the signals; [answers k] is
    the venue's answer to the [k]-th placement of the call. *)
Fixpoint execute_signals (st : state) (signals : list ExitSignal)
    (answers : nat -> result OrderResult) (k : nat)
    : result (list OrderResult) * state :=
  match signals with
  | [] => (Ok [], st)
  | signal :: rest =>
      match execute_exit st signal (answers k) with
      | (Raise e, st1) => (Raise e, st1)
      | (Ok r, st1) =>
          match execute_signals st1 rest answers (S k) with
          | (Ok results, st2) => (Ok (from_option (fun x => [x]) [] r ++ results), st2)
          | (Raise e, st2) => (Raise e, st2)
          end
      end
  end.

(** The clean-up at the head of [execute_all_exits]. *)
Definition forget_closed (st : state) (read : result (list Position)) : state :=
  let '(positions, pm) := PositionMonitor.get_positions (position_monitor st) read in
  let current_tickers := PositionMonitor.tickers_of positions in
  let closed := _pending_exit_tickers st ∖ current_tickers in
  if bool_decide (closed = ∅) then with_monitor st pm
  else
    {| position_monitor := pm;
       order_manager := order_manager st;
       _pending_exit_tickers := _pending_exit_tickers st ∖ closed;
       trade_log := trade_log st ++ [ExitsFilled closed] |}.

Definition execute_all_exits (st : state) (read1 read2 : result (list Position))
    (answers : nat -> result OrderResult)
    : result (list OrderResult) * state :=
  let st1 := forget_closed st read1 in
  match check_exits st1 read2 with
  | (Raise e, st2) => (Raise e, st2)
  | (Ok signals, st2) => execute_signals st2 signals answers 0
  end.

Definition force_exit (st : state) (t : string) (read : result (list Position))
    (answer : result OrderResult) : result (option OrderResult) * state :=
  let '(position, pm) := PositionMonitor.get_position (position_monitor st) read t in
  match position with
  | None => (Ok None, with_monitor st pm)
  | Some position =>
      execute_exit (with_monitor st pm)
        {| sig_ticker := pos_ticker position;
           sig_side := pos_side position;
           sig_contracts := pos_contracts position;
           exit_price := current_price position;
           sig_reason := "manual" |}
        answer
  end.

(** A call of one of the handler's operations, with what the venue
    answered during it. *)
Inductive Op :=
| CheckExits (read : result (list Position))
| ExecuteExit (signal : ExitSignal) (answer : result OrderResult)
| ExecuteAllExits (read1 read2 : result (list Position))
                  (answers : nat -> result OrderResult)
| ForceExit (t : string) (read : result (list Position))
            (answer : result OrderResult).

Definition step (st : state) (op : Op) : state :=
  match op with
  | CheckExits read => (check_exits st read).2
  | ExecuteExit signal answer => (execute_exit st signal answer).2
  | ExecuteAllExits read1 read2 answers =>
      (execute_all_exits st read1 read2 answers).2
  | ForceExit t read answer => (force_exit st t read answer).2
  end.

Definition run (st : state) (ops : list Op) : state := foldl step st ops.

End Handler.

(** Reading a log from its oldest line on: no exit is placed for a
    ticker that has an exit outstanding, where a placed exit is
    outstanding until a later line reports the ticker closed. *)
Fixpoint exits_spaced (outstanding : gset string) (log : list LogLine) : bool :=
  match log with
  | [] => true
  | EXIT signal _ :: rest =>
      negb (bool_decide (sig_ticker signal ∈ outstanding))
      && exits_spaced ({[ sig_ticker signal ]} ∪ outstanding) rest
  | ExitsFilled closed :: rest => exits_spaced (outstanding ∖ closed) rest
  end.

(** The tickers with an exit outstanding at the end of a log. *)
Fixpoint outstanding_after (outstanding : gset string) (log : list LogLine)
    : gset string :=
  match log with
  | [] => outstanding
  | EXIT signal _ :: rest =>
      outstanding_after ({[ sig_ticker signal ]} ∪ outstanding) rest
  | ExitsFilled closed :: rest => outstanding_after (outstanding ∖ closed) rest
  end.

(** A position read lists each ticker at most once. *)
Definition distinct_tickers (read : result (list Position)) : Prop :=
  match read with
  | Ok positions => NoDup (pos_ticker <$> positions)
  | Raise _ => True
  end.

End ExitHandler.

(** ** Daily accounting (src/core/bot.py, [DailyStats]) *)

Record TradeRecord := mkTrade {
  tr_ticker : string;
  tr_side : string;
  tr_action : string;               (* "entry" or "exit" *)
  tr_contracts : Z;
  tr_price : Q;
  tr_timestamp : Z
}.

(** An open entry lot: [{"price": _, "remaining": _, "side": _}]. *)
Record Lot := mkLot {
  lot_price : Q;
  lot_remaining : Z;
  lot_side : string
}.

Record RoundTrip := mkRoundTrip {
  rt_ticker : string;
  rt_side : string;
  rt_contracts : Z;
  rt_entry_cost : Q;
  rt_exit_revenue : Q;
  rt_pnl : Q
}.

Module DailyStats.

(** The result of the [while exit_contracts > 0 and queue] loop. *)
Record matched := mkMatched {
  queue_left : list Lot;
  exit_left : Z;
  matched_cost : Q;
  matched_contracts : Z
}.

(** The matching loop. Each turn takes [min(exit_contracts, remaining)]
    from the head lot; the lot is popped when it is used up, and when
    it is not used up the exit is ([fifo_head_kept] below), so the
    loop ends there. *)
Fixpoint fifo_match (queue : list Lot) (exit_contracts : Z)
    (cost : Q) (contracts : Z) : matched :=
  match queue with
  | [] => {| queue_left := []; exit_left := exit_contracts;
             matched_cost := cost; matched_contracts := contracts |}
  | entry :: rest =>
      if (0 <? exit_contracts)%Z then
        let take := Z.min exit_contracts (lot_remaining entry) in
        let cost := (cost + lot_price entry * inject_Z take)%Q in
        let contracts := (contracts + take)%Z in
        let remaining := (lot_remaining entry - take)%Z in
        let exit_contracts := (exit_contracts - take)%Z in
        if (remaining =? 0)%Z then fifo_match rest exit_contracts cost contracts
        else
          {| queue_left :=
               {| lot_price := lot_price entry; lot_remaining := remaining;
                  lot_side := lot_side entry |} :: rest;
             exit_left := exit_contracts;
             matched_cost := cost; matched_contracts := contracts |}
      else {| queue_left := queue; exit_left := exit_contracts;
              matched_cost := cost; matched_contracts := contracts |}
  end.

Record ledger := mkLedger {
  entry_queues : gmap string (list Lot);
  round_trips : list RoundTrip
}.

(** The body of the loop over the sorted trades. The queue of a ticker
    is the list held in [entry_queues], changed in place; an exit on a
    ticker without a queue matches against a fresh empty list. *)
Definition replay_trade (acc : ledger) (t : TradeRecord) : ledger :=
  if String.eqb (tr_action t) "entry" then
    let queue := default [] (entry_queues acc !! tr_ticker t) in
    {| entry_queues :=
         <[tr_ticker t :=
             queue ++ [{| lot_price := tr_price t;
                          lot_remaining := tr_contracts t;
                          lot_side := tr_side t |}]]> (entry_queues acc);
       round_trips := round_trips acc |}
  else if String.eqb (tr_action t) "exit" then
    let queue := default [] (entry_queues acc !! tr_ticker t) in
    let m := fifo_match queue (tr_contracts t) 0 0 in
    let queues :=
      match entry_queues acc !! tr_ticker t with
      | Some _ => <[tr_ticker t := queue_left m]> (entry_queues acc)
      | None => entry_queues acc
      end in
    if (0 <? matched_contracts m)%Z then
      let revenue := (tr_price t * inject_Z (matched_contracts m))%Q in
      let pnl := (revenue - matched_cost m)%Q in
      {| entry_queues := queues;
         round_trips :=
           round_trips acc ++
           [{| rt_ticker := tr_ticker t; rt_side := tr_side t;
               rt_contracts := matched_contracts m;
               rt_entry_cost := matched_cost m;
               rt_exit_revenue := revenue;
               rt_pnl := pnl |}] |}
    else {| entry_queues := queues; round_trips := round_trips acc |}
  else acc.

Definition by_timestamp (a b : TradeRecord) : bool :=
  (tr_timestamp a <=? tr_timestamp b)%Z.

(** [_compute_round_trips] with the entry queues it ends with. *)
Definition replay (all_trades : list TradeRecord) : ledger :=
  foldl replay_trade {| entry_queues := ∅; round_trips := [] |}
        (Sorting.stable_sort by_timestamp all_trades).

Definition _compute_round_trips (all_trades : list TradeRecord) : list RoundTrip :=
  round_trips (replay all_trades).

Definition Qsum (l : list Q) : Q := foldl Qplus 0%Q l.

(** From [print_summary]. *)
Definition realized_pnl (all_trades : list TradeRecord) : Q :=
  Qsum (rt_pnl <$> _compute_round_trips all_trades).

Definition total_entry_cost (all_trades : list TradeRecord) : Q :=
  Qsum ((fun t => (tr_price t * inject_Z (tr_contracts t))%Q)
          <$> filter (fun t => tr_action t = "entry") all_trades).

Definition unrealized_cost (all_trades : list TradeRecord) : Q :=
  (total_entry_cost all_trades
   - Qsum (rt_entry_cost <$> _compute_round_trips all_trades))%Q.

End DailyStats.

(** * Properties *)

(** ** Facts about the [Decimal] model *)

Module DecimalFacts.
Import Decimal.

Lemma leb_le x y : leb x y = true <-> (x <= y)%Q.
Proof. apply Qle_bool_iff. Qed.

Lemma leb_nle x y : leb x y = false <-> ~ (x <= y)%Q.
Proof.
  unfold leb. rewrite <- Qle_bool_iff.
  destruct (Qle_bool x y); split; congruence.
Qed.

Lemma ltb_lt x y : ltb x y = true <-> (x < y)%Q.
Proof.
  unfold ltb. rewrite negb_true_iff. fold (leb y x). rewrite leb_nle.
  split; [apply Qnot_le_lt | apply Qlt_not_le].
Qed.

Lemma ltb_nlt x y : ltb x y = false <-> (y <= x)%Q.
Proof.
  unfold ltb. rewrite negb_false_iff. apply Qle_bool_iff.
Qed.

Lemma eqb_eq x y : eqb x y = true <-> (x == y)%Q.
Proof. apply Qeq_bool_iff. Qed.

Lemma eqb_neq x y : eqb x y = false <-> ~ (x == y)%Q.
Proof.
  unfold eqb. rewrite <- Qeq_bool_iff.
  destruct (Qeq_bool x y); split; congruence.
Qed.

Lemma truthy_spec x : truthy x = true <-> ~ (x == 0)%Q.
Proof. unfold truthy. rewrite negb_true_iff. apply eqb_neq. Qed.

Lemma div_ok x y : ~ (y == 0)%Q -> div x y = Ok (x / y)%Q.
Proof. intros H. unfold div. apply eqb_neq in H. by rewrite H. Qed.

(** Truncation of a non-negative value does not exceed it. *)
Lemma to_int_le x : (0 <= x)%Q -> (inject_Z (to_int x) <= x)%Q.
Proof.
  destruct x as [n d]. unfold to_int, Qle, inject_Z. simpl.
  intros H. rewrite Z.mul_1_r in *.
  assert (Hn : (0 <= n)%Z) by lia.
  rewrite Z.quot_div_nonneg by lia.
  pose proof (Z.mul_div_le n (Zpos d) ltac:(lia)). lia.
Qed.

Lemma to_int_nonneg x : (0 <= x)%Q -> (0 <= to_int x)%Z.
Proof.
  destruct x as [n d]. unfold to_int, Qle. simpl. intros H.
  apply Z.quot_pos; lia.
Qed.

End DecimalFacts.

(** ** Position model *)

Module PositionFacts.

Lemma unrealized_pnl_percent_total (p : Position) :
  exists q, unrealized_pnl_percent p = Ok q.
Proof.
  unfold unrealized_pnl_percent, Decimal.div.
  destruct (Decimal.eqb (entry_cost p) 0); eauto.
Qed.

Lemma evaluate_exit_total (s : TradingSettings) (p : Position) :
  exists r, Strategy.evaluate_exit s p = Ok r.
Proof.
  unfold Strategy.evaluate_exit.
  destruct (unrealized_pnl_percent_total p) as [q ->]. cbn.
  repeat match goal with
         | |- context [if ?b then _ else _] => destruct b
         end; eauto.
Qed.

(** C10. [unrealized_pnl_percent] never raises: on every position it
    returns a value, and that value is 0 when the entry cost
    (average entry price times contracts) is 0; hence exit evaluation
    never raises either, on any position under any settings. *)
Theorem unrealized_pnl_percent_zero_cost (p : Position) :
  (exists q, unrealized_pnl_percent p = Ok q)
  /\ ((entry_cost p == 0)%Q -> unrealized_pnl_percent p = Ok 0%Q)
  /\ (forall s, exists r, Strategy.evaluate_exit s p = Ok r).
Proof.
  split; [apply unrealized_pnl_percent_total|]. split.
  - intros H. unfold unrealized_pnl_percent.
    apply DecimalFacts.eqb_eq in H. by rewrite H.
  - intros s. apply evaluate_exit_total.
Qed.

(** A position bought for nothing: 7 contracts at 0c, now quoted 35c. *)
Definition free_position : Position :=
  {| pos_ticker := "KXFREE-26FEB16-A"; pos_side := YES; pos_contracts := 7;
     average_entry_price := 0; current_price := 35; pos_volume := 10 |}.

Lemma unrealized_pnl_percent_zero_cost_witness :
  (entry_cost free_position == 0)%Q
  /\ unrealized_pnl_percent free_position = Ok 0%Q.
Proof.
  split; [reflexivity|].
  apply (unrealized_pnl_percent_zero_cost free_position). reflexivity.
Defined.

End PositionFacts.

(** ** Strategy: the exit decision *)

Module StrategyFacts.
Import Strategy.

(** The stop-loss rule as stated: a stop-loss [sl] is configured (set
    and non-zero), the loss has reached it, and the market has traded
    at least the minimum volume. *)
Definition stop_loss_fires (s : TradingSettings) (p : Position) (pnl : Q) : Prop :=
  exists sl, stop_loss_percent s = Some sl /\ ~ (sl == 0)%Q
             /\ (pnl <= - sl)%Q
             /\ (stop_loss_min_volume s <= pos_volume p)%Z.

Lemma stop_loss_some s sl :
  stop_loss s = Some sl <-> stop_loss_percent s = Some sl /\ ~ (sl == 0)%Q.
Proof.
  unfold stop_loss.
  destruct (stop_loss_percent s) as [x|]; [|split; [done | by intros [? _]]].
  destruct (Decimal.truthy x) eqn:E.
  - apply DecimalFacts.truthy_spec in E.
    split; [by intros [= ->] | by intros [[= ->] _]].
  - split; [done|]. intros [[= ->] H].
    apply DecimalFacts.truthy_spec in H. congruence.
Qed.

(** C8. With [pnl] the position's unrealized P&L percentage:
    if [pnl >= profit_target] the decision is an exit signal for the
    position's ticker and side, all of its contracts, at its current
    price, with the reason [profit_target] (whatever the stop-loss rule
    says); otherwise it is such a signal with the reason [stop_loss]
    exactly when a stop-loss is configured, [pnl <= -stop_loss] and the
    market volume is at least [stop_loss_min_volume]; in every other
    case it is none. *)
Theorem evaluate_exit_rules (s : TradingSettings) (p : Position) (pnl : Q)
    (Hpnl : unrealized_pnl_percent p = Ok pnl) :
  ((profit_target_percent s <= pnl)%Q ->
     evaluate_exit s p =
       Ok (Some {| sig_ticker := pos_ticker p; sig_side := pos_side p;
                   sig_contracts := pos_contracts p;
                   exit_price := current_price p;
                   sig_reason := "profit_target" |}))
  /\ (~ (profit_target_percent s <= pnl)%Q ->
        (stop_loss_fires s p pnl ->
           evaluate_exit s p =
             Ok (Some {| sig_ticker := pos_ticker p; sig_side := pos_side p;
                         sig_contracts := pos_contracts p;
                         exit_price := current_price p;
                         sig_reason := "stop_loss" |}))
        /\ (~ stop_loss_fires s p pnl -> evaluate_exit s p = Ok None)).
Proof.
  unfold evaluate_exit, profit_target. rewrite Hpnl. cbn. split.
  - intros H. apply DecimalFacts.leb_le in H. by rewrite H.
  - intros H. apply DecimalFacts.leb_nle in H. rewrite H. split.
    + intros (sl & Hsl & Hnz & Hle & Hvol).
      assert (E : stop_loss s = Some sl) by (by apply stop_loss_some).
      rewrite E. apply DecimalFacts.truthy_spec in Hnz. rewrite Hnz.
      apply DecimalFacts.leb_le in Hle. rewrite Hle. cbn.
      apply Z.leb_le in Hvol. by rewrite Hvol.
    + intros Hno.
      destruct (stop_loss s) as [sl|] eqn:E; [|done].
      apply stop_loss_some in E as [Hsl Hnz].
      destruct (Decimal.truthy sl); [|done].
      destruct (Decimal.leb pnl (- sl)) eqn:Hle; [|done]. cbn.
      destruct (stop_loss_min_volume s <=? pos_volume p)%Z eqn:Hvol; [|done].
      exfalso. apply Hno. exists sl.
      apply DecimalFacts.leb_le in Hle. apply Z.leb_le in Hvol. done.
Qed.

(** Settings with a 5% stop-loss next to the default 6.5% target. *)
Definition stop_settings : TradingSettings :=
  {| liquidity_threshold_usd := 50000;
     probability_threshold := 80 # 100;
     max_probability_threshold := 90 # 100;
     profit_target_percent := 65 # 1000;
     stop_loss_percent := Some (5 # 100);
     stop_loss_min_volume := 100000;
     min_market_volume := 0;
     min_position_percent := 2 # 100;
     max_position_percent := 10 # 100;
     min_contracts := 1;
     max_hours_until_close := 24;
     order_timeout_seconds := 300;
     market_category := ALL;
     include_live_markets := false |}.

(** Bought 10 at 80c; now 70c (a 12.5% loss) on a thinly traded market. *)
Definition thin_loser : Position :=
  {| pos_ticker := "KXNCAAMBGAME-26FEB16ARWMIW-MIW"; pos_side := YES;
     pos_contracts := 10; average_entry_price := 80; current_price := 70;
     pos_volume := 500 |}.

(** The same loss on a market that has traded 250000 contracts. *)
Definition busy_loser : Position :=
  {| pos_ticker := "KXNCAAMBGAME-26FEB16ARWMIW-MIW"; pos_side := YES;
     pos_contracts := 10; average_entry_price := 80; current_price := 70;
     pos_volume := 250000 |}.

Lemma evaluate_exit_rules_witness :
  evaluate_exit stop_settings thin_loser = Ok None
  /\ evaluate_exit stop_settings busy_loser =
       Ok (Some {| sig_ticker := "KXNCAAMBGAME-26FEB16ARWMIW-MIW"; sig_side := YES;
                   sig_contracts := 10; exit_price := 70;
                   sig_reason := "stop_loss" |}).
Proof.
  split.
  - refine (proj2 (proj2 (evaluate_exit_rules stop_settings thin_loser _ eq_refl) _) _).
    + vm_compute. congruence.
    + intros (sl & _ & _ & _ & Hvol). vm_compute in Hvol. congruence.
  - refine (proj1 (proj2 (evaluate_exit_rules stop_settings busy_loser _ eq_refl) _) _).
    + vm_compute. congruence.
    + exists (5 # 100)%Q. split; [reflexivity|].
      split; [intros H; vm_compute in H; discriminate|].
      split; vm_compute; congruence.
Defined.

End StrategyFacts.

(** ** Position sizer *)

Module PositionSizerFacts.
Import PositionSizer.

(** The count before the minimum is applied:
    [int(portfolio_value * max_position_pct / entry_price)]. *)
Definition floor_count (s : TradingSettings) (portfolio_value entry_price : Q) : Z :=
  Decimal.to_int (portfolio_value * max_position_pct s / entry_price)%Q.

Lemma calculate_contracts_degenerate s pv ep :
  (pv <= 0)%Q \/ (ep <= 0)%Q -> calculate_contracts s pv ep = Ok (min_contracts s).
Proof.
  intros H. unfold calculate_contracts.
  destruct H as [H|H]; apply DecimalFacts.leb_le in H; rewrite H;
    by rewrite ?orb_true_r.
Qed.

Lemma calculate_contracts_regular s pv ep :
  (0 < pv)%Q -> (0 < ep)%Q ->
  calculate_contracts s pv ep = Ok (Z.max (floor_count s pv ep) (min_contracts s)).
Proof.
  intros Hpv Hep. unfold calculate_contracts.
  assert (E1 : Decimal.leb pv 0 = false)
    by (apply DecimalFacts.leb_nle; by apply Qlt_not_le).
  assert (E2 : Decimal.leb ep 0 = false)
    by (apply DecimalFacts.leb_nle; by apply Qlt_not_le).
  rewrite E1, E2. cbn.
  rewrite DecimalFacts.div_ok; [done|].
  intros E. rewrite E in Hep. by apply Qlt_irrefl in Hep.
Qed.

(** The floored count fits the budget. *)
Lemma floor_count_within_budget s pv ep :
  (0 < pv)%Q -> (0 < ep)%Q -> (0 <= max_position_pct s)%Q ->
  (inject_Z (floor_count s pv ep) * ep <= max_position_pct s * pv)%Q.
Proof.
  intros Hpv Hep Hpct. unfold floor_count.
  set (x := (pv * max_position_pct s / ep)%Q).
  assert (Hx : (0 <= x)%Q).
  { unfold x. apply Qle_shift_div_l; [done|]. rewrite Qmult_0_l.
    apply Qmult_le_0_compat; [by apply Qlt_le_weak | done]. }
  apply Qle_trans with (x * ep)%Q.
  - apply Qmult_le_compat_r; [by apply DecimalFacts.to_int_le | by apply Qlt_le_weak].
  - unfold x. apply Qle_lteq. right. field.
    intros E. rewrite E in Hep. by apply Qlt_irrefl in Hep.
Qed.

(** The bound read without the exception for the minimum: the returned
    count is at least the minimum
    and, off the degenerate inputs, its cost stays within
    [max_position_pct * portfolio_value]. *)
Definition within_budget_always : Prop :=
  forall s pv ep c,
    (0 < pv)%Q -> (0 < ep)%Q ->
    calculate_contracts s pv ep = Ok c ->
    (min_contracts s <= c)%Z
    /\ (inject_Z c * ep <= max_position_pct s * pv)%Q.

(** With the default settings, a $1.00 portfolio and a 50c contract:
    the budget is 10c, the floor gives 0 contracts, the minimum makes
    it 1, which costs 50c. *)
Lemma calculate_contracts_over_budget :
  calculate_contracts default_settings 100 50 = Ok 1%Z
  /\ ~ (inject_Z 1 * 50 <= max_position_pct default_settings * 100)%Q
  /\ ~ within_budget_always.
Proof.
  split; [reflexivity|]. split.
  - vm_compute. congruence.
  - intros H.
    destruct (H default_settings 100%Q 50%Q 1%Z) as [_ Hle];
      [reflexivity | reflexivity | reflexivity |].
    vm_compute in Hle. congruence.
Qed.

(** C2 (amended). [calculate_contracts] never raises and returns at
    least [min_contracts]. On degenerate inputs (portfolio value or
    entry price not positive) it returns exactly [min_contracts].
    Otherwise it returns the larger of [min_contracts] and the floored
    count [int(portfolio_value * max_position_pct / entry_price)];
    with a non-negative [max_position_pct] the floored count times the
    entry price does not exceed [max_position_pct * portfolio_value],
    so the returned count respects that bound whenever the minimum
    does not raise it above the floored count. *)
Theorem calculate_contracts_bounds (s : TradingSettings) (pv ep : Q) :
  exists c,
    calculate_contracts s pv ep = Ok c
    /\ (min_contracts s <= c)%Z
    /\ ((pv <= 0)%Q \/ (ep <= 0)%Q -> c = min_contracts s)
    /\ ((0 < pv)%Q -> (0 < ep)%Q ->
          c = Z.max (floor_count s pv ep) (min_contracts s)
          /\ ((0 <= max_position_pct s)%Q ->
                (inject_Z (floor_count s pv ep) * ep <= max_position_pct s * pv)%Q
                /\ ((min_contracts s <= floor_count s pv ep)%Z ->
                      (inject_Z c * ep <= max_position_pct s * pv)%Q))).
Proof.
  destruct (Qlt_le_dec 0 pv) as [Hpv|Hpv]; [destruct (Qlt_le_dec 0 ep) as [Hep|Hep]|].
  - exists (Z.max (floor_count s pv ep) (min_contracts s)).
    split; [by apply calculate_contracts_regular|].
    split; [lia|]. split.
    + intros [H|H]; exfalso;
        [exact (Qlt_not_le _ _ Hpv H) | exact (Qlt_not_le _ _ Hep H)].
    + intros _ _. split; [done|]. intros Hpct.
      pose proof (floor_count_within_budget s pv ep Hpv Hep Hpct) as Hb.
      split; [done|]. intros Hmin. by rewrite Z.max_l.
  - exists (min_contracts s).
    split; [apply calculate_contracts_degenerate; by right|].
    split; [lia|]. split; [done|].
    intros _ H. exfalso. exact (Qlt_not_le _ _ H Hep).
  - exists (min_contracts s).
    split; [apply calculate_contracts_degenerate; by left|].
    split; [lia|]. split; [done|].
    intros H. exfalso. exact (Qlt_not_le _ _ H Hpv).
Qed.

(** A $500.00 portfolio and an 85c contract: 58 contracts, $49.30 of
    the $50.00 budget. *)
Lemma calculate_contracts_bounds_witness :
  exists c,
    calculate_contracts default_settings 50000 85 = Ok c
    /\ (inject_Z c * 85 <= max_position_pct default_settings * 50000)%Q.
Proof.
  destruct (calculate_contracts_bounds default_settings 50000 85)
    as (c & Hc & _ & _ & H).
  exists c. split; [exact Hc|].
  destruct H as [_ H]; [reflexivity | reflexivity |].
  destruct H as [_ H]; [vm_compute; congruence |].
  apply H. vm_compute. congruence.
Defined.

End PositionSizerFacts.

(** ** Market filters: the accepted entry price *)

Module MarketFiltersFacts.
Import MarketFilters.

Section Evaluate.

Variable matches_category : Market -> MarketCategory -> bool.
Variable settings : TradingSettings.

Abbreviation in_band := (in_band settings).
Abbreviation passes_probability := (passes_probability settings).
Abbreviation evaluate := (evaluate matches_category settings).

(** The configured probability band. *)
Definition within_band (p : Q) : Prop :=
  (probability_threshold settings <= p)%Q
  /\ (p <= max_probability_threshold settings)%Q.

Lemma in_band_spec p : in_band p = true <-> within_band p.
Proof.
  unfold MarketFilters.in_band, within_band.
  rewrite andb_true_iff, !DecimalFacts.leb_le. done.
Qed.

(** The entry prices that the final pricing check turns down: no ask
    at all, an ask above the 90c ceiling, an ask outside [1,99], or an
    ask whose probability is outside the band. *)
Definition turned_down (ask : option Q) : Prop :=
  match ask with
  | None => True
  | Some a =>
      (90 < a)%Q \/ (a < 1)%Q \/ (99 < a)%Q \/ ~ within_band (a / 100)%Q
  end.

Lemma passes_probability_yes m side :
  passes_probability m = Some side -> side = YES.
Proof.
  unfold MarketFilters.passes_probability.
  repeat case_match; congruence.
Qed.

Lemma evaluate_accepts m ob opp :
  evaluate m ob = Some opp ->
  market opp = m
  /\ passes_probability m = Some (recommended_side opp)
  /\ _get_entry_price m ob (recommended_side opp) = Some (entry_price opp)
  /\ (1 <= entry_price opp)%Q /\ (entry_price opp <= 90)%Q
  /\ within_band (entry_price opp / 100)%Q
  /\ probability opp = (entry_price opp / 100)%Q.
Proof.
  unfold MarketFilters.evaluate. intros H.
  destruct (negb (passes_category _ _ m)); [done|].
  destruct (negb (passes_liquidity _ m ob)); [done|].
  destruct (passes_probability m) as [side|] eqn:Hside; [|done].
  destruct (_get_entry_price m ob side) as [ep|] eqn:Hep; [|done].
  destruct (Decimal.ltb 90 ep) eqn:H90; [done|].
  destruct (Decimal.leb 100 ep || Decimal.ltb ep 1) eqn:H1; [done|].
  destruct (in_band (ep / 100)) eqn:Hband; [|done].
  cbn in H. injection H as <-. cbn.
  apply orb_false_iff in H1 as [_ H1].
  apply DecimalFacts.ltb_nlt in H90, H1. apply in_band_spec in Hband.
  done.
Qed.

Lemma evaluate_turns_down m ob side :
  passes_probability m = Some side ->
  turned_down (_get_entry_price m ob side) ->
  evaluate m ob = None.
Proof.
  intros Hside Hbad. unfold MarketFilters.evaluate.
  destruct (negb (passes_category _ _ m)); [done|].
  destruct (negb (passes_liquidity _ m ob)); [done|].
  rewrite Hside.
  destruct (_get_entry_price m ob side) as [ep|]; [|done]. cbn in Hbad.
  destruct (Decimal.ltb 90 ep) eqn:H90; [done|].
  destruct (Decimal.leb 100 ep || Decimal.ltb ep 1) eqn:H1; [done|].
  destruct (in_band (ep / 100)) eqn:Hband; [|done].
  exfalso.
  apply orb_false_iff in H1 as [_ H1].
  apply DecimalFacts.ltb_nlt in H90, H1. apply in_band_spec in Hband.
  destruct Hbad as [H|[H|[H|H]]]; [| |  |done].
  - exact (Qlt_not_le _ _ H H90).
  - exact (Qlt_not_le _ _ H H1).
  - apply (Qlt_not_le _ _ H). apply Qle_trans with 90%Q; [done|]. by vm_compute.
Qed.

(** The ask of the YES side as the property words it: the price of the
    first ask level of the book; with no YES ask in the book, the ask
    quoted on the market, when there is one and it is not zero. *)
Definition book_ask_or_quote (m : Market) (ob : OrderBook) : option Q :=
  match yes_asks ob with
  | level :: _ => Some (price level)
  | [] =>
      match yes_ask m with
      | Some a => if Qeq_bool a 0 then None else Some a
      | None => None
      end
  end.

Lemma get_entry_price_yes m ob :
  _get_entry_price m ob YES = book_ask_or_quote m ob.
Proof.
  unfold _get_entry_price, book_ask_or_quote, get_best_price.
  destruct (yes_asks ob) as [|level rest]; cbn; [|done].
  destruct (yes_bids ob); cbn; destruct (yes_ask m) as [a|]; cbn; try done;
    unfold Decimal.truthy, Decimal.eqb; by destruct (Qeq_bool a 0).
Qed.

(** C3. If [evaluate] returns an opportunity, it is on the YES side and
    its entry price is the best ask of the book (the price of the first
    YES ask level), or with no ask in the book the ask quoted on the
    market; and [1 <= entry_price <= 90] and
    [probability_threshold <= entry_price/100 <= max_probability_threshold].
    And [evaluate] returns none whenever there is no such ask, or the
    ask exceeds 90, or is outside [1,99], or gives a probability outside
    the band: also when the probability quick check passed on the
    bid-derived price. *)
Theorem evaluate_entry_price_bounds (m : Market) (ob : OrderBook) :
  (forall opp, evaluate m ob = Some opp ->
     recommended_side opp = YES
     /\ book_ask_or_quote m ob = Some (entry_price opp)
     /\ (forall level rest, yes_asks ob = level :: rest ->
           entry_price opp = price level)
     /\ (yes_asks ob = [] ->
           yes_ask m = Some (entry_price opp) /\ ~ (entry_price opp == 0)%Q)
     /\ _get_entry_price m ob (recommended_side opp) = Some (entry_price opp)
     /\ (1 <= entry_price opp)%Q /\ (entry_price opp <= 90)%Q
     /\ (probability_threshold settings <= entry_price opp / 100)%Q
     /\ (entry_price opp / 100 <= max_probability_threshold settings)%Q)
  /\ (turned_down (book_ask_or_quote m ob) -> evaluate m ob = None)
  /\ (forall side, passes_probability m = Some side ->
        turned_down (_get_entry_price m ob side) -> evaluate m ob = None)
  /\ (within_band (yes_probability m) ->
        passes_probability m = Some YES
        /\ (turned_down (book_ask_or_quote m ob) -> evaluate m ob = None)
        /\ (turned_down (_get_entry_price m ob YES) -> evaluate m ob = None)).
Proof.
  split; [|split; [|split]].
  - intros opp H.
    destruct (evaluate_accepts m ob opp H) as (_ & Hside & Hep & ? & ? & [? ?] & _).
    pose proof (passes_probability_yes _ _ Hside) as Hyes.
    assert (Hbook : book_ask_or_quote m ob = Some (entry_price opp))
      by (by rewrite <- get_entry_price_yes, <- Hyes).
    split; [done|]. split; [done|]. split; [|split; [|done]].
    + intros level rest Hasks. unfold book_ask_or_quote in Hbook.
      rewrite Hasks in Hbook. by injection Hbook.
    + intros Hasks. unfold book_ask_or_quote in Hbook. rewrite Hasks in Hbook.
      destruct (yes_ask m) as [a|]; [|done].
      destruct (Qeq_bool a 0) eqn:Ha; [done|]. injection Hbook as <-.
      split; [done|]. intros Hz. apply Qeq_bool_iff in Hz. congruence.
  - intros Hbad. destruct (passes_probability m) as [side|] eqn:Hside.
    + pose proof (passes_probability_yes _ _ Hside) as ->.
      apply (evaluate_turns_down m ob YES Hside). by rewrite get_entry_price_yes.
    + unfold MarketFilters.evaluate.
      destruct (negb (passes_category _ _ m)); [done|].
      destruct (negb (passes_liquidity _ m ob)); [done|].
      by rewrite Hside.
  - apply evaluate_turns_down.
  - intros Hbid.
    assert (Hside : passes_probability m = Some YES).
    { unfold MarketFilters.passes_probability.
      apply in_band_spec in Hbid. by rewrite Hbid. }
    split; [done|]. split.
    + intros Hbad. apply (evaluate_turns_down m ob YES Hside).
      by rewrite get_entry_price_yes.
    + by apply evaluate_turns_down.
Qed.

End Evaluate.

(** A market whose bid-derived probability (85%) is inside the default
    band and whose quoted ask (88c) would be accepted. *)
Definition wide_spread : Market :=
  {| ticker := "KXNCAAMBGAME-26FEB16ARWMIW-MIW"; title := "Arkansas at Michigan";
     yes_price := 85; no_price := 15; close_time := None; category := "";
     yes_bid := Some 85%Q; yes_ask := Some 88%Q;
     no_bid := Some 5%Q; no_ask := Some 15%Q;
     volume := 200000; expected_expiration_time := None |}.

(** A book for it whose best ask is [ask]. *)
Definition asked_at (ask : Q) : OrderBook :=
  {| ob_ticker := ticker wide_spread;
     yes_bids := [ {| price := 85; quantity := 100000 |} ];
     yes_asks := [ {| price := ask; quantity := 100000 |};
                   {| price := ask + 1; quantity := 500 |} ];
     no_bids := []; no_asks := [] |}.

(** The book's ask decides, not the quote: at 87c in the book the market
    is taken at 87c; at 95c in the book it is turned down, though the
    quoted 88c would pass. *)
Example evaluate_takes_book_ask :
  entry_price <$> evaluate (fun _ _ => true) default_settings wide_spread (asked_at 87)
  = Some 87%Q.
Proof. by vm_compute. Qed.

Lemma evaluate_entry_price_bounds_witness :
  evaluate (fun _ _ => true) default_settings wide_spread (asked_at 95) = None.
Proof.
  refine (proj1 (proj2
    (evaluate_entry_price_bounds (fun _ _ => true) default_settings wide_spread
       (asked_at 95))) _).
  left. reflexivity.
Defined.

End MarketFiltersFacts.

(** ** Position monitor: snapshots and counting *)

Module PositionMonitorFacts.
Import PositionMonitor.

(** The monitor after a series of position reads with the given answers. *)
Definition after_reads (st : state) (answers : list (result (list Position)))
    : state :=
  foldl (fun st a => (get_positions st a).2) st answers.

Definition failed {A} (a : result A) : Prop :=
  match a with
  | Ok _ => False
  | Raise _ => True
  end.

Lemma discard_all (pending : gset string) (positions : list Position) :
  foldl (fun pending pos => pending ∖ {[ pos_ticker pos ]}) pending positions
  = pending ∖ tickers_of positions.
Proof.
  revert pending. unfold tickers_of.
  induction positions as [|p l IH]; intros pending; cbn.
  - set_solver.
  - rewrite IH. set_solver.
Qed.

Lemma get_positions_ok st l :
  get_positions st (Ok l)
  = (l, {| _last_positions := l;
           _pending_entry_tickers := _pending_entry_tickers st ∖ tickers_of l |}).
Proof. unfold get_positions. by rewrite discard_all. Qed.

Lemma after_failed_reads st answers :
  Forall failed answers -> after_reads st answers = st.
Proof.
  intros H. revert st. induction H as [|a l Ha _ IH]; intros st; [done|].
  destruct a; [done|]. cbn. apply IH.
Qed.

Lemma after_reads_app st l1 l2 :
  after_reads st (l1 ++ l2) = after_reads (after_reads st l1) l2.
Proof. apply foldl_app. Qed.

(** C5. When the venue read succeeds with an empty list,
    [get_positions] returns the empty list and records it as the last
    snapshot; when the read raises, whatever the error, it returns the
    recorded snapshot and changes nothing; so after a successful read of
    [l], followed by any number of failed reads, a failing read returns
    [l] (which may be the empty list only if the venue reported it). *)
Theorem get_positions_snapshot (st : state) :
  (get_positions st (Ok []) =
     ([], {| _last_positions := [];
             _pending_entry_tickers := _pending_entry_tickers st |}))
  /\ (forall e, get_positions st (Raise e) = (_last_positions st, st))
  /\ (forall before l after e,
        Forall failed after ->
        (get_positions (after_reads st (before ++ Ok l :: after)) (Raise e)).1 = l).
Proof.
  split; [done|]. split; [done|].
  intros before l after e Hafter.
  rewrite after_reads_app. cbn [after_reads foldl].
  fold (after_reads (get_positions (after_reads st before) (Ok l)).2 after).
  rewrite after_failed_reads by done. done.
Qed.

Definition held : Position :=
  {| pos_ticker := "KXNCAAMBGAME-26FEB16ARWMIW-MIW"; pos_side := YES;
     pos_contracts := 12; average_entry_price := 71; current_price := 74;
     pos_volume := 250000 |}.

Lemma get_positions_snapshot_witness :
  (get_positions
     (after_reads init [Ok []; Ok [held]; Raise RateLimitError])
     (Raise OtherError)).1 = [held].
Proof.
  apply (proj2 (proj2 (get_positions_snapshot init)) [Ok []] [held]
           [Raise RateLimitError] OtherError).
  repeat constructor.
Defined.

Lemma count_positions_eq st answer :
  (count_positions st answer).1
  = length (get_positions st answer).1
    + size (_pending_entry_tickers st ∖ tickers_of (get_positions st answer).1).
Proof.
  unfold count_positions. destruct answer as [l|e].
  - rewrite get_positions_ok. cbn. do 2 f_equal. set_solver.
  - done.
Qed.

(** C9. [count_positions] is the number of confirmed positions plus the
    number of pending-entry tickers that are not confirmed tickers;
    whether a confirmed ticker is also pending makes no difference to
    it; when the confirmed positions have distinct tickers it is the
    number of distinct tickers that are confirmed or pending; and a
    successful [get_positions] removes every confirmed ticker from the
    pending-entry set (and nothing else). *)
Theorem count_positions_no_double_count (st : state)
    (answer : result (list Position)) :
  let positions := (get_positions st answer).1 in
  (count_positions st answer).1
    = length positions + size (_pending_entry_tickers st ∖ tickers_of positions)
  /\ (forall t, t ∈ tickers_of positions ->
        (count_positions (add_pending_entry st t) answer).1
        = (count_positions (remove_pending_entry st t) answer).1)
  /\ (NoDup (pos_ticker <$> positions) ->
        (count_positions st answer).1
        = size (tickers_of positions ∪ _pending_entry_tickers st))
  /\ (forall l, _pending_entry_tickers (get_positions st (Ok l)).2
                = _pending_entry_tickers st ∖ tickers_of l).
Proof.
  cbn zeta. split; [apply count_positions_eq|]. split; [|split].
  - intros t Ht. rewrite !count_positions_eq.
    assert (E : forall st', _last_positions st' = _last_positions st ->
                (get_positions st' answer).1 = (get_positions st answer).1).
    { intros st' H. destruct answer; [done|]. cbn. done. }
    rewrite (E (add_pending_entry st t)), (E (remove_pending_entry st t)) by done.
    cbn [add_pending_entry remove_pending_entry
                              _pending_entry_tickers].
    set (T := tickers_of (get_positions st answer).1) in *.
    assert (({[t]} ∪ _pending_entry_tickers st) ∖ T
            = (_pending_entry_tickers st ∖ {[t]}) ∖ T) as -> by set_solver.
    done.
  - intros Hnd. rewrite count_positions_eq.
    rewrite (size_union_alt (tickers_of (get_positions st answer).1)
                            (_pending_entry_tickers st)).
    f_equal. unfold tickers_of.
    rewrite (size_list_to_set (C := gset string)) by done.
    by rewrite length_fmap.
  - intros l. by rewrite get_positions_ok.
Qed.

Lemma count_positions_no_double_count_witness :
  (count_positions (add_pending_entry init (pos_ticker held)) (Ok [held])).1 = 1%nat.
Proof.
  destruct (count_positions_no_double_count
              (add_pending_entry init (pos_ticker held)) (Ok [held]))
    as (_ & _ & H & _).
  rewrite H; [vm_compute; reflexivity | repeat constructor; set_solver].
Defined.

End PositionMonitorFacts.

(** ** Order manager: cancelling stale orders *)

Module OrderManagerFacts.
Import OrderManager.

Section Cancel.

Variable settings : TradingSettings.
Variable now : Z.
Variable cancel_order : string -> bool.

Abbreviation stale := (stale settings now).
Abbreviation cancel_step := (cancel_step settings now cancel_order).
Abbreviation cancel_stale_orders := (cancel_stale_orders settings now cancel_order).

(** An order is stale when it is open and older than the timeout. *)
Lemma stale_spec (o : OrderResult) :
  stale o = true
  <-> status o = OPEN
      /\ (order_timeout_seconds settings * 1000000 < now - created_at o)%Z.
Proof.
  unfold OrderManager.stale, timeout.
  rewrite andb_true_iff, bool_decide_eq_true, Z.ltb_lt. done.
Qed.

Definition is_stale (item : string * OrderResult) : Prop := stale item.2 = true.

Definition is_cancelled (item : string * OrderResult) : Prop :=
  stale item.2 = true /\ cancel_order item.1 = true.

#[local] Instance is_stale_dec item : Decision (is_stale item).
Proof. unfold is_stale. apply _. Defined.

#[local] Instance is_cancelled_dec item : Decision (is_cancelled item).
Proof. unfold is_cancelled. apply _. Defined.

Lemma cancel_step_stale acc oid o :
  stale o = true ->
  cancel_step acc (oid, o) =
    if cancel_order oid then
      {| cancelled := cancelled acc ++ [oid];
         tracked := delete oid (tracked acc);
         requested := requested acc ++ [oid] |}
    else
      {| cancelled := cancelled acc; tracked := tracked acc;
         requested := requested acc ++ [oid] |}.
Proof.
  unfold OrderManager.cancel_step, OrderManager.stale.
  intros [H1 H2]%andb_true_iff. by rewrite H1, H2.
Qed.

Lemma cancel_step_fresh acc oid o :
  stale o = false -> cancel_step acc (oid, o) = acc.
Proof.
  unfold OrderManager.cancel_step, OrderManager.stale.
  destruct (bool_decide (status o = OPEN)); [|done]. cbn.
  by intros ->.
Qed.

Lemma sweep_lists items acc :
  requested (foldl cancel_step acc items)
    = requested acc ++ (filter is_stale items).*1
  /\ cancelled (foldl cancel_step acc items)
    = cancelled acc ++ (filter is_cancelled items).*1.
Proof.
  revert acc. induction items as [|[oid o] items IH]; intros acc.
  - cbn. by rewrite !app_nil_r.
  - cbn [foldl]. rewrite !filter_cons.
    destruct (stale o) eqn:Hs.
    + rewrite cancel_step_stale by done.
      destruct (decide (is_stale (oid, o))) as [_|[]]; [|done].
      destruct (cancel_order oid) eqn:Hc.
      * destruct (decide (is_cancelled (oid, o))) as [_|[]]; [|done].
        destruct (IH {| cancelled := cancelled acc ++ [oid];
                        tracked := delete oid (tracked acc);
                        requested := requested acc ++ [oid] |}) as [-> ->].
        cbn. by rewrite <- !app_assoc.
      * destruct (decide (is_cancelled (oid, o))) as [[_ H]|_];
          [cbn in H; congruence|].
        destruct (IH {| cancelled := cancelled acc; tracked := tracked acc;
                        requested := requested acc ++ [oid] |}) as [-> ->].
        cbn. by rewrite <- !app_assoc.
    + rewrite cancel_step_fresh by done.
      destruct (decide (is_stale (oid, o))) as [H|_];
        [unfold is_stale in H; cbn in H; congruence|].
      destruct (decide (is_cancelled (oid, o))) as [[H _]|_];
        [cbn in H; congruence|].
      apply IH.
Qed.

Lemma sweep_tracked items acc oid :
  tracked (foldl cancel_step acc items) !! oid
  = if decide (oid ∈ (filter is_cancelled items).*1) then None
    else tracked acc !! oid.
Proof.
  revert acc. induction items as [|[i o] items IH]; intros acc.
  - cbn. destruct (decide _) as [H|_]; [by apply elem_of_nil in H | done].
  - cbn [foldl]. rewrite IH, filter_cons.
    destruct (stale o) eqn:Hs.
    + rewrite cancel_step_stale by done.
      destruct (cancel_order i) eqn:Hc.
      * destruct (decide (is_cancelled (i, o))) as [_|[]]; [|done].
        cbn [tracked fmap list_fmap fst].
        repeat destruct (decide _) as [?|?]; try done.
        -- set_solver.
        -- destruct (decide (i = oid)) as [->|Hne].
           ++ by rewrite lookup_delete_eq.
           ++ set_solver.
        -- apply lookup_delete_ne. set_solver.
      * destruct (decide (is_cancelled (i, o))) as [[_ H]|_];
          [cbn in H; congruence|]. done.
    + rewrite cancel_step_fresh by done.
      destruct (decide (is_cancelled (i, o))) as [[H _]|_];
        [cbn in H; congruence|]. done.
Qed.

Lemma mem_filter_items (P : string * OrderResult -> Prop)
    `{!forall x, Decision (P x)} (m : gmap string OrderResult) oid :
  oid ∈ (filter P (map_to_list m)).*1
  <-> exists o, m !! oid = Some o /\ P (oid, o).
Proof.
  rewrite list_elem_of_fmap. split.
  - intros ([i o] & -> & [HP Hin]%list_elem_of_filter).
    apply elem_of_map_to_list in Hin. eauto.
  - intros (o & Hm & HP). exists (oid, o). split; [done|].
    apply list_elem_of_filter. split; [done|]. by apply elem_of_map_to_list.
Qed.

Lemma NoDup_filter_items (P : string * OrderResult -> Prop)
    `{!forall x, Decision (P x)} (m : gmap string OrderResult) :
  NoDup (filter P (map_to_list m)).*1.
Proof.
  eapply sublist_NoDup; [apply (NoDup_fst_map_to_list m)|].
  apply fmap_sublist, sublist_filter.
Qed.

(** C7. Running [cancel_stale_orders] on the tracked orders [orders]:
    cancellation is requested, once each, exactly for the tracked orders
    that are open and older than [order_timeout_seconds]; the returned
    list holds exactly those of them whose cancellation the venue
    confirmed, and exactly these are dropped from tracking; every other
    tracked order (younger, not open, or not cancelled by the venue)
    stays tracked with the same record, and nothing new is tracked. *)
Theorem cancel_stale_orders_frame (orders : gmap string OrderResult) :
  let sw := cancel_stale_orders orders in
  (NoDup (requested sw) /\ NoDup (cancelled sw))
  /\ (forall oid, oid ∈ requested sw <->
        exists o, orders !! oid = Some o /\ status o = OPEN
          /\ (order_timeout_seconds settings * 1000000 < now - created_at o)%Z)
  /\ (forall oid, oid ∈ cancelled sw <->
        oid ∈ requested sw /\ cancel_order oid = true)
  /\ (forall oid, oid ∈ cancelled sw -> tracked sw !! oid = None)
  /\ (forall oid, oid ∉ cancelled sw -> tracked sw !! oid = orders !! oid).
Proof.
  cbn zeta. unfold OrderManager.cancel_stale_orders.
  destruct (sweep_lists (map_to_list orders)
              {| cancelled := []; tracked := orders; requested := [] |})
    as [Hreq Hcan].
  cbn [requested cancelled app] in Hreq, Hcan. rewrite Hreq, Hcan.
  split; [split; apply NoDup_filter_items|].
  split; [|split; [|split]].
  - intros oid. rewrite mem_filter_items. unfold is_stale. cbn [snd].
    setoid_rewrite stale_spec. done.
  - intros oid. rewrite !mem_filter_items. unfold is_cancelled, is_stale.
    cbn [fst snd]. naive_solver.
  - intros oid H. rewrite sweep_tracked. by rewrite decide_True.
  - intros oid H. rewrite sweep_tracked. by rewrite decide_False.
Qed.

End Cancel.

Definition order (oid : string) (s : OrderStatus) (created : Z) : OrderResult :=
  {| order_id := oid; status := s; filled_contracts := 0;
     remaining_contracts := 10; average_price := None; created_at := created |}.

(** Three tracked orders seen at second 1000 with the 300 s timeout: an
    open one placed at second 100, an open one placed at second 900, and
    a resting one placed at second 100. *)
Definition book : gmap string OrderResult :=
  <["old" := order "old" OPEN 100000000]>
    (<["young" := order "young" OPEN 900000000]>
       (<["resting" := order "resting" RESTING 100000000]> ∅)).

Lemma cancel_stale_orders_frame_witness :
  let sw := cancel_stale_orders default_settings 1000000000 (fun _ => true) book in
  "old" ∈ cancelled sw
  /\ tracked sw !! "old" = None
  /\ tracked sw !! "young" = book !! "young".
Proof.
  cbn zeta.
  destruct (cancel_stale_orders_frame default_settings 1000000000
              (fun _ => true) book) as (_ & Hreq & Hcan & Hdrop & Hkeep).
  assert (Hold : "old" ∈ cancelled
            (cancel_stale_orders default_settings 1000000000 (fun _ => true) book)).
  { apply Hcan. split; [|done]. apply Hreq.
    exists (order "old" OPEN 100000000). by vm_compute. }
  split; [exact Hold|]. split; [by apply Hdrop|].
  apply Hkeep. intros [Hr _]%Hcan. apply Hreq in Hr as (o & Ho & _ & Hage).
  vm_compute in Ho. injection Ho as <-. vm_compute in Hage. congruence.
Defined.

End OrderManagerFacts.

(** ** Daily accounting: FIFO round trips *)

Module DailyStatsFacts.
Import DailyStats.

(** Where [fifo_match] stops, the condition of the loop it stands for,
    [exit_contracts > 0 and queue], is false. *)
Lemma fifo_head_kept (queue : list Lot) (exit_contracts : Z) (cost : Q)
    (contracts : Z) :
  let m := fifo_match queue exit_contracts cost contracts in
  queue_left m = [] \/ (exit_left m <= 0)%Z.
Proof.
  cbn zeta. revert exit_contracts cost contracts.
  induction queue as [|entry rest IH]; intros exit_contracts cost contracts.
  - by left.
  - cbn [fifo_match].
    destruct (0 <? exit_contracts)%Z eqn:Hpos.
    + destruct (lot_remaining entry - Z.min exit_contracts (lot_remaining entry) =? 0)%Z
        eqn:Hrem.
      * apply IH.
      * right. cbn. apply Z.eqb_neq in Hrem. lia.
    + right. cbn. apply Z.ltb_ge in Hpos. lia.
Qed.

Definition entry_trade (t : string) (side : string) (n : Z) (p : Q) (ts : Z)
    : TradeRecord :=
  {| tr_ticker := t; tr_side := side; tr_action := "entry";
     tr_contracts := n; tr_price := p; tr_timestamp := ts |}.

Definition exit_trade (t : string) (side : string) (n : Z) (p : Q) (ts : Z)
    : TradeRecord :=
  {| tr_ticker := t; tr_side := side; tr_action := "exit";
     tr_contracts := n; tr_price := p; tr_timestamp := ts |}.

(** The day's trades of the example: two entries on [A], then one exit. *)
Definition example_trades (t1 t2 t3 : Z) : list TradeRecord :=
  [ entry_trade "A" "yes" 10 40 t1;
    entry_trade "A" "yes" 5 50 t2;
    exit_trade "A" "yes" 12 70 t3 ].

Lemma example_trades_sorted t1 t2 t3 :
  (t1 < t2)%Z -> (t2 < t3)%Z ->
  Sorting.stable_sort by_timestamp (example_trades t1 t2 t3)
  = example_trades t1 t2 t3.
Proof.
  intros H12 H23. unfold example_trades, Sorting.stable_sort, by_timestamp.
  assert (E23 : (t2 <=? t3)%Z = true) by (apply Z.leb_le; lia).
  assert (E12 : (t1 <=? t2)%Z = true) by (apply Z.leb_le; lia).
  cbn. rewrite E23. cbn. by rewrite E12.
Qed.

(** C6. For entries of 10 contracts at 40c (time [t1]) and 5 at 50c
    ([t2]) on ticker [A] and an exit of 12 at 70c ([t3]), with
    [t1 < t2 < t3], [_compute_round_trips] yields the single round trip
    of 12 contracts with matched cost 10*40 + 2*50 = 500, revenue
    12*70 = 840 and P&L 340; the queue of [A] is left with one lot of 3
    contracts at 50c, and the summary's realized P&L is 340 with 150
    (3 * 50) of entry cost still open. *)
Theorem fifo_round_trip_example (t1 t2 t3 : Z)
    (H12 : (t1 < t2)%Z) (H23 : (t2 < t3)%Z) :
  _compute_round_trips (example_trades t1 t2 t3)
    = [ {| rt_ticker := "A"; rt_side := "yes"; rt_contracts := 12;
           rt_entry_cost := 500; rt_exit_revenue := 840; rt_pnl := 340 |} ]
  /\ entry_queues (replay (example_trades t1 t2 t3)) !! "A"
    = Some [ {| lot_price := 50; lot_remaining := 3; lot_side := "yes" |} ]
  /\ realized_pnl (example_trades t1 t2 t3) = 340%Q
  /\ unrealized_cost (example_trades t1 t2 t3) = 150%Q.
Proof.
  assert (Hrt : replay (example_trades t1 t2 t3)
                = {| entry_queues :=
                       {[ "A" := [ {| lot_price := 50; lot_remaining := 3;
                                      lot_side := "yes" |} ] ]};
                     round_trips :=
                       [ {| rt_ticker := "A"; rt_side := "yes"; rt_contracts := 12;
                            rt_entry_cost := 500; rt_exit_revenue := 840;
                            rt_pnl := 340 |} ] |}).
  { unfold replay. rewrite example_trades_sorted by done.
    unfold example_trades, entry_trade, exit_trade. by vm_compute. }
  unfold realized_pnl, unrealized_cost, total_entry_cost, _compute_round_trips.
  rewrite Hrt. cbn [entry_queues round_trips].
  split; [done|]. split; [by vm_compute|]. split; by vm_compute.
Qed.

Lemma fifo_round_trip_example_witness :
  realized_pnl (example_trades 1 2 3) = 340%Q
  /\ unrealized_cost (example_trades 1 2 3) = 150%Q.
Proof.
  destruct (fifo_round_trip_example 1 2 3) as (_ & _ & H1 & H2); [lia | lia |].
  split; [exact H1 | exact H2].
Defined.

End DailyStatsFacts.

(** ** Market scanner: one opportunity per event *)

Module SortingFacts.
Section Sort.
Context {A : Type} (before : A -> A -> bool).

Lemma insert_sorted_perm (x : A) (l : list A) :
  Sorting.insert_sorted before x l ≡ₚ x :: l.
Proof.
  induction l as [|y r IH]; cbn; [done|].
  destruct (before x y); [done|]. rewrite IH. apply Permutation_swap.
Qed.

Lemma stable_sort_perm (l : list A) : Sorting.stable_sort before l ≡ₚ l.
Proof.
  unfold Sorting.stable_sort. induction l as [|x l IH]; cbn; [done|].
  by rewrite insert_sorted_perm, IH.
Qed.

End Sort.
End SortingFacts.

Module MarketScannerFacts.
Import MarketScanner.

(** The ticker and the event prefix of an opportunity. *)
Definition opp_ticker (o : MarketOpportunity) : string := ticker (market o).
Definition opp_event (o : MarketOpportunity) : string :=
  _get_event_prefix (opp_ticker o).

(** What a stretch of a run that starts in [st], yields [ys] and ends in
    [st'] satisfies: the yielded events are pairwise distinct, none of
    the yielded tickers or events was already claimed in [st], and [st']
    claims exactly what [st] claimed plus what was yielded. *)
Definition claims (st : state) (ys : list MarketOpportunity) (st' : state) : Prop :=
  NoDup (opp_event <$> ys)
  /\ (forall o, o ∈ ys ->
        (opp_ticker o ∉ _existing_positions st)
        /\ (opp_event o ∉ _existing_events st))
  /\ _existing_positions st' = _existing_positions st ∪ list_to_set (opp_ticker <$> ys)
  /\ _existing_events st' = _existing_events st ∪ list_to_set (opp_event <$> ys)
  /\ _stop_requested st' = _stop_requested st.

Lemma claims_nil st : claims st [] st.
Proof.
  unfold claims. cbn. split; [constructor|].
  split; [by intros o ?%elem_of_nil|]. set_solver.
Qed.

Lemma claims_app st ys1 st1 ys2 st2 :
  claims st ys1 st1 -> claims st1 ys2 st2 -> claims st (ys1 ++ ys2) st2.
Proof.
  intros (Hnd1 & Hnew1 & HP1 & HE1 & Hs1) (Hnd2 & Hnew2 & HP2 & HE2 & Hs2).
  unfold claims. rewrite !fmap_app, !list_to_set_app_L.
  split; [|split; [|split; [|split]]].
  - apply NoDup_app. split; [done|]. split; [|done].
    intros e He1 (o & -> & Ho)%list_elem_of_fmap.
    destruct (Hnew2 o Ho) as [_ Hfresh]. apply Hfresh.
    rewrite HE1. set_solver.
  - intros o [Ho|Ho]%elem_of_app; [by apply Hnew1|].
    destruct (Hnew2 o Ho) as [H1 H2]. rewrite HP1 in H1. rewrite HE1 in H2.
    set_solver.
  - rewrite HP2, HP1. set_solver.
  - rewrite HE2, HE1. set_solver.
  - congruence.
Qed.

Section Scanner.

Variable matches_category : Market -> MarketCategory -> bool.
Variable settings : TradingSettings.
Variable clk : Clock.
Variable get_orderbook : nat -> string -> result OrderBook.

Abbreviation scan_market := (scan_market matches_category settings clk get_orderbook).
Abbreviation scan_markets := (scan_markets matches_category settings clk get_orderbook).
Abbreviation scan_pages := (scan_pages matches_category settings clk get_orderbook).
Abbreviation scan_iter := (scan_iter matches_category settings clk get_orderbook).
Abbreviation scan := (scan matches_category settings clk get_orderbook).

(** On acceptance the market's ticker and event prefix, unclaimed until
    then, are claimed at once; otherwise the state is unchanged. *)
Lemma scan_market_spec st k m :
  match scan_market st k m with
  | (Some o, st') =>
      market o = m
      /\ (ticker m ∉ _existing_positions st)
      /\ (_get_event_prefix (ticker m) ∉ _existing_events st)
      /\ _existing_positions st' = {[ ticker m ]} ∪ _existing_positions st
      /\ _existing_events st' = {[ _get_event_prefix (ticker m) ]} ∪ _existing_events st
      /\ _stop_requested st' = _stop_requested st
  | (None, st') => st' = st
  end.
Proof.
  unfold MarketScanner.scan_market.
  destruct (bool_decide (ticker m ∈ _existing_positions st)) eqn:HP; [done|].
  destruct (bool_decide (_get_event_prefix (ticker m) ∈ _existing_events st))
    eqn:HE; [done|].
  destruct (negb (MarketFilters.passes_category matches_category settings m)); [done|].
  destruct (negb (MarketFilters.quick_filter settings clk m)); [done|].
  apply bool_decide_eq_false in HP, HE.
  match goal with
  | |- context [match ?f with Ok _ => _ | Raise _ => _ end] => destruct f as [ob|e]
  end; [|done].
  destruct (MarketFilters.evaluate matches_category settings m ob) as [o|] eqn:Hev;
    [|done].
  apply MarketFiltersFacts.evaluate_accepts in Hev as [Hm _]. done.
Qed.

Lemma scan_market_claims st k m :
  claims st (from_option (fun o => [o]) [] (scan_market st k m).1)
         (scan_market st k m).2.
Proof.
  pose proof (scan_market_spec st k m) as H.
  destruct (scan_market st k m) as [[o|] st']; cbn.
  - destruct H as (Hm & HP & HE & HP' & HE' & Hs).
    unfold claims, opp_event, opp_ticker. cbn. rewrite Hm.
    split; [repeat constructor; set_solver|].
    split; [intros o' ->%list_elem_of_singleton; by rewrite Hm|].
    rewrite HP', HE'. set_solver.
  - subst st'. apply claims_nil.
Qed.

Lemma scan_markets_claims ms st k :
  claims st (scan_markets st k ms).1.1 (scan_markets st k ms).1.2.
Proof.
  revert st k. induction ms as [|m rest IH]; intros st k; cbn.
  - apply claims_nil.
  - pose proof (scan_market_claims st (S k) m) as H1.
    destruct (scan_market st (S k) m) as [y st1]. cbn in H1.
    pose proof (IH st1 (S k)) as H2.
    destruct (scan_markets st1 (S k) rest) as [[ys st2] n]. cbn in *.
    by eapply claims_app.
Qed.

Lemma scan_pages_claims answers st k :
  claims st (scan_pages answers st k).1.1 (scan_pages answers st k).1.2.
Proof.
  revert st k. induction answers as [|a rest IH]; intros st k; cbn.
  - destruct (_stop_requested st); apply claims_nil.
  - destruct (_stop_requested st); [apply claims_nil|].
    destruct a as [page|e]; [|apply claims_nil].
    destruct (negb (nonempty (page_markets page))); [apply claims_nil|].
    pose proof (scan_markets_claims (page_markets page) st k) as H1.
    destruct (scan_markets st k (page_markets page)) as [[ys st1] n]. cbn in H1.
    destruct (negb (more_pages (page_cursor page))); [done|].
    pose proof (IH st1 n) as H2.
    destruct (scan_pages rest st1 n) as [[ys' st2] r]. cbn in *.
    by eapply claims_app.
Qed.

Lemma existing_events_spec st position_tickers e :
  e ∈ _existing_events (set_existing_positions st position_tickers)
  <-> exists t, t ∈ position_tickers /\ e = _get_event_prefix t.
Proof.
  unfold set_existing_positions. cbn.
  setoid_rewrite <- (elem_of_elements position_tickers).
  induction (elements position_tickers) as [|t l IH]; cbn.
  - split; [set_solver | by intros (t & ?%elem_of_nil & _)].
  - rewrite elem_of_union, elem_of_singleton, IH. split.
    + intros [->|(t' & Ht' & ->)]; [exists t | exists t']; set_solver.
    + intros (t' & [->|Ht']%elem_of_cons & ->); [by left | right; eauto].
Qed.

(** C4. A run of [scan_iter] made after [set_existing_positions] was
    given [position_tickers]: no two yielded opportunities have the same
    event prefix; no yielded ticker is in [position_tickers] and no
    yielded event prefix is the prefix of a ticker in it; every market
    is claimed (ticker and event prefix) in the very step that accepts
    it; and [scan] returns a rearrangement of what [scan_iter] yields,
    hence with the same guarantees. *)
Theorem scan_iter_one_per_event (st0 : state) (position_tickers : gset string)
    (answers : list (result Page)) :
  let st := set_existing_positions st0 position_tickers in
  let ys := (scan_iter st answers).1.1 in
  NoDup (opp_event <$> ys)
  /\ (forall o, o ∈ ys ->
        (opp_ticker o ∉ position_tickers)
        /\ (forall t, t ∈ position_tickers -> opp_event o <> _get_event_prefix t))
  /\ (forall st1 k m o st2, scan_market st1 k m = (Some o, st2) ->
        market o = m
        /\ ticker m ∈ _existing_positions st2
        /\ _get_event_prefix (ticker m) ∈ _existing_events st2)
  /\ (forall l, (scan st answers).1 = Ok l -> l ≡ₚ ys).
Proof.
  cbn zeta.
  pose proof (scan_pages_claims answers
                (set_existing_positions st0 position_tickers) 0)
    as (Hnd & Hnew & _).
  fold (scan_iter (set_existing_positions st0 position_tickers) answers) in Hnd, Hnew.
  split; [done|]. split; [|split].
  - intros o Ho. destruct (Hnew o Ho) as [HP HE]. split; [done|].
    intros t Ht Heq. apply HE. apply existing_events_spec. eauto.
  - intros st1 k m o st2 H. pose proof (scan_market_spec st1 k m) as Hs.
    rewrite H in Hs. destruct Hs as (Hm & _ & _ & HP & HE & _).
    rewrite HP, HE. set_solver.
  - intros l. unfold MarketScanner.scan.
    destruct (scan_iter (set_existing_positions st0 position_tickers) answers)
      as [[ys st'] r].
    destruct r as [[]|e]; cbn; [|done].
    intros [= <-]. apply SortingFacts.stable_sort_perm.
Qed.

End Scanner.

(** Settings without a liquidity threshold, so that the book is not read. *)
Definition scan_settings : TradingSettings :=
  {| liquidity_threshold_usd := 0;
     probability_threshold := 80 # 100;
     max_probability_threshold := 90 # 100;
     profit_target_percent := 65 # 1000;
     stop_loss_percent := None;
     stop_loss_min_volume := 100000;
     min_market_volume := 0;
     min_position_percent := 2 # 100;
     max_position_percent := 10 # 100;
     min_contracts := 1;
     max_hours_until_close := 24;
     order_timeout_seconds := 300;
     market_category := ALL;
     include_live_markets := false |}.

Definition quoted_market (t : string) (bid ask : Q) : Market :=
  {| ticker := t; title := ""; yes_price := bid; no_price := 100 - ask;
     close_time := None; category := "";
     yes_bid := Some bid; yes_ask := Some ask; no_bid := None; no_ask := None;
     volume := 5000; expected_expiration_time := None |}.

(** One page with both sides of a college game and the other side of a
    game on which a position is already held. *)
Definition game_page : Page :=
  {| page_markets :=
       [ quoted_market "KXNCAAMBGAME-26FEB16ARWMIW-MIW" 84 85;
         quoted_market "KXNCAAMBGAME-26FEB16ARWMIW-ARW" 84 85;
         quoted_market "KXNBAGAME-26FEB16LALBOS-BOS" 84 85 ];
     page_cursor := None |}.

Definition held_tickers : gset string := {[ "KXNBAGAME-26FEB16LALBOS-LAL" ]}.

Definition game_run : list MarketOpportunity :=
  (scan_iter (fun _ _ => true) scan_settings
     {| now_utc := 0; today_local := "FEB16" |}
     (fun _ _ => Raise OtherError)
     (set_existing_positions init held_tickers) [Ok game_page]).1.1.

Lemma game_run_yields :
  opp_ticker <$> game_run = [ "KXNCAAMBGAME-26FEB16ARWMIW-MIW" ].
Proof. by vm_compute. Qed.

Definition off_held_event (o : MarketOpportunity) : Prop :=
  (opp_ticker o ∉ held_tickers)
  /\ opp_event o <> _get_event_prefix "KXNBAGAME-26FEB16LALBOS-LAL".

Lemma scan_iter_one_per_event_witness :
  length game_run = 1%nat /\ Forall off_held_event game_run.
Proof.
  split; [by vm_compute|]. apply Forall_forall. intros o Ho.
  destruct (scan_iter_one_per_event (fun _ _ => true) scan_settings
              {| now_utc := 0; today_local := "FEB16" |}
              (fun _ _ => Raise OtherError) init held_tickers [Ok game_page])
    as (_ & H & _).
  destruct (H o Ho) as [H1 H2]. split; [exact H1|].
  apply H2. unfold held_tickers. apply elem_of_singleton. reflexivity.
Defined.

End MarketScannerFacts.

(** ** Exit handler: one outstanding exit per ticker *)

Module ExitHandlerFacts.
Import ExitHandler.

Lemma exits_spaced_app o l1 l2 :
  exits_spaced o (l1 ++ l2)
  = exits_spaced o l1 && exits_spaced (outstanding_after o l1) l2.
Proof.
  revert o. induction l1 as [|[sg oid|closed] l1 IH]; intros o; cbn; [done| |].
  - rewrite IH. by rewrite andb_assoc.
  - apply IH.
Qed.

Lemma outstanding_after_app o l1 l2 :
  outstanding_after o (l1 ++ l2) = outstanding_after (outstanding_after o l1) l2.
Proof.
  revert o. induction l1 as [|[sg oid|closed] l1 IH]; intros o; cbn; [done| |];
    apply IH.
Qed.

(** What the handler keeps true: the log never shows an exit placed on
    a ticker with an exit outstanding, the pending-exit set is the set
    of tickers with an exit outstanding, and the monitor's snapshot
    lists each ticker once. *)
Definition consistent (st : state) : Prop :=
  exits_spaced ∅ (trade_log st) = true
  /\ outstanding_after ∅ (trade_log st) = _pending_exit_tickers st
  /\ NoDup (pos_ticker <$> PositionMonitor._last_positions (position_monitor st)).

Lemma consistent_init : consistent init.
Proof. repeat split. constructor. Qed.

Lemma get_positions_distinct pm read :
  NoDup (pos_ticker <$> PositionMonitor._last_positions pm) ->
  distinct_tickers read ->
  NoDup (pos_ticker <$> (PositionMonitor.get_positions pm read).1)
  /\ NoDup (pos_ticker <$> PositionMonitor._last_positions
                             (PositionMonitor.get_positions pm read).2).
Proof. intros Hpm Hread. destruct read as [l|e]; cbn in *; done. Qed.

(** The effect of [execute_exit]: on success the ticker joins the
    pending-exit set and one ledger line is written; otherwise neither
    changes. The monitor is not touched. *)
Lemma execute_exit_effect st sg answer :
  let st' := (execute_exit st sg answer).2 in
  position_monitor st' = position_monitor st
  /\ match (execute_exit st sg answer).1 with
     | Ok (Some r) =>
         _pending_exit_tickers st' = {[ sig_ticker sg ]} ∪ _pending_exit_tickers st
         /\ trade_log st' = trade_log st ++ [EXIT sg (order_id r)]
     | _ =>
         _pending_exit_tickers st' = _pending_exit_tickers st
         /\ trade_log st' = trade_log st
     end.
Proof.
  cbn zeta. unfold execute_exit.
  destruct (OrderManager.place_exit_order (order_manager st) answer)
    as [[[r|]|e] om]; done.
Qed.

Lemma execute_exit_consistent st sg answer :
  consistent st -> sig_ticker sg ∉ _pending_exit_tickers st ->
  consistent (execute_exit st sg answer).2.
Proof.
  intros (Hsp & Hout & Hnd) Hfresh.
  destruct (execute_exit_effect st sg answer) as [Hpm H].
  unfold consistent. rewrite Hpm.
  destruct (execute_exit st sg answer).1 as [[r|]|e];
    destruct H as [-> ->]; try done.
  rewrite exits_spaced_app, outstanding_after_app, Hsp, Hout. cbn.
  rewrite bool_decide_eq_false_2 by done. done.
Qed.

Lemma execute_exit_pending_bounds st sg answer :
  _pending_exit_tickers st ⊆ _pending_exit_tickers (execute_exit st sg answer).2
  /\ _pending_exit_tickers (execute_exit st sg answer).2
     ⊆ {[ sig_ticker sg ]} ∪ _pending_exit_tickers st.
Proof.
  destruct (execute_exit_effect st sg answer) as [_ H].
  destruct (execute_exit st sg answer).1 as [[r|]|e];
    destruct H as [-> _]; set_solver.
Qed.

Lemma forget_closed_pending st read :
  _pending_exit_tickers (forget_closed st read)
  = _pending_exit_tickers st
    ∩ PositionMonitor.tickers_of
        (PositionMonitor.get_positions (position_monitor st) read).1.
Proof.
  unfold forget_closed.
  destruct (PositionMonitor.get_positions (position_monitor st) read)
    as [positions pm]. cbn [fst].
  set (T := PositionMonitor.tickers_of positions).
  destruct (bool_decide (_pending_exit_tickers st ∖ T = ∅)) eqn:E; cbn.
  - apply bool_decide_eq_true in E. apply set_eq. intros x.
    rewrite elem_of_intersection. split; [|by intros [? _]].
    intros Hx. split; [done|].
    destruct (decide (x ∈ T)) as [|Hn]; [done|]. set_solver.
  - apply set_eq. intros x.
    rewrite elem_of_intersection, !elem_of_difference.
    destruct (decide (x ∈ T)); naive_solver.
Qed.

Lemma forget_closed_consistent st read :
  consistent st -> distinct_tickers read -> consistent (forget_closed st read).
Proof.
  intros (Hsp & Hout & Hnd) Hread.
  pose proof (forget_closed_pending st read) as Hp.
  destruct (get_positions_distinct _ read Hnd Hread) as [_ Hnd'].
  revert Hp. unfold forget_closed, consistent.
  destruct (PositionMonitor.get_positions (position_monitor st) read)
    as [positions pm]. cbn [fst snd] in *.
  set (T := PositionMonitor.tickers_of positions).
  destruct (bool_decide (_pending_exit_tickers st ∖ T = ∅)); cbn; intros Hp.
  - done.
  - rewrite exits_spaced_app, outstanding_after_app, Hsp, Hout. cbn.
    split; [done|]. split; [|done]. done.
Qed.

Lemma evaluate_exit_ticker settings p sg :
  Strategy.evaluate_exit settings p = Ok (Some sg) -> sig_ticker sg = pos_ticker p.
Proof.
  unfold Strategy.evaluate_exit.
  destruct (unrealized_pnl_percent p) as [q|e]; cbn; [|done].
  repeat case_match; intros [= <-]; done.
Qed.

Section Handler.

Variable settings : TradingSettings.

Abbreviation collect_signals := (collect_signals settings).
Abbreviation check_exits := (check_exits settings).
Abbreviation execute_all_exits := (execute_all_exits settings).
Abbreviation step := (step settings).
Abbreviation run := (run settings).

(** The signals of [check_exits] follow the positions read, in order,
    and none is for a ticker in the pending-exit set. *)
Lemma collect_signals_spec pending positions sigs :
  collect_signals pending positions = Ok sigs ->
  (sig_ticker <$> sigs) `sublist_of` (pos_ticker <$> positions)
  /\ Forall (fun sg => sig_ticker sg ∉ pending) sigs.
Proof.
  revert sigs. induction positions as [|p rest IH]; intros sigs; cbn.
  - intros [= <-]. split; [done | constructor].
  - destruct (bool_decide (pos_ticker p ∈ pending)) eqn:Hp.
    + intros H. destruct (IH _ H) as [Hsub Hall].
      split; [by apply sublist_cons | done].
    + apply bool_decide_eq_false in Hp.
      destruct (Strategy.evaluate_exit settings p) as [sg|e] eqn:Hev; cbn; [|done].
      destruct (collect_signals pending rest) as [sigs'|e]; cbn; [|done].
      intros [= <-]. destruct (IH _ eq_refl) as [Hsub Hall].
      destruct sg as [sg|]; cbn.
      * apply evaluate_exit_ticker in Hev. rewrite Hev.
        split; [by apply sublist_skip|]. constructor; [by rewrite Hev | done].
      * split; [by apply sublist_cons | done].
Qed.

Lemma check_exits_state st read :
  (check_exits st read).2
  = with_monitor st (PositionMonitor.get_positions (position_monitor st) read).2.
Proof.
  unfold ExitHandler.check_exits.
  by destruct (PositionMonitor.get_positions (position_monitor st) read).
Qed.

Lemma check_exits_consistent st read :
  consistent st -> distinct_tickers read -> consistent (check_exits st read).2.
Proof.
  intros (Hsp & Hout & Hnd) Hread. rewrite check_exits_state.
  destruct (get_positions_distinct _ read Hnd Hread) as [_ Hnd'].
  done.
Qed.

Lemma check_exits_signals st read sigs :
  consistent st -> distinct_tickers read ->
  (check_exits st read).1 = Ok sigs ->
  NoDup (sig_ticker <$> sigs)
  /\ Forall (fun sg => sig_ticker sg ∉ _pending_exit_tickers st) sigs.
Proof.
  intros (_ & _ & Hnd) Hread. unfold ExitHandler.check_exits.
  destruct (get_positions_distinct _ read Hnd Hread) as [Hnd' _].
  destruct (PositionMonitor.get_positions (position_monitor st) read)
    as [positions pm]. cbn [fst] in *.
  intros [Hsub Hall]%collect_signals_spec.
  split; [by eapply sublist_NoDup | done].
Qed.

Lemma execute_signals_consistent sigs answers : forall st k,
  consistent st ->
  NoDup (sig_ticker <$> sigs) ->
  Forall (fun sg => sig_ticker sg ∉ _pending_exit_tickers st) sigs ->
  consistent (execute_signals st sigs answers k).2.
Proof.
  induction sigs as [|sg rest IH]; intros st k Hc Hnd Hall; cbn; [done|].
  apply NoDup_cons in Hnd as [Hhead Hnd].
  apply Forall_cons in Hall as [Hsg Hall].
  pose proof (execute_exit_consistent st sg (answers k) Hc Hsg) as Hc1.
  pose proof (execute_exit_pending_bounds st sg (answers k)) as [_ Hup].
  destruct (execute_exit st sg (answers k)) as [[r|e] st1]; cbn in *; [|done].
  assert (Hc2 : consistent (execute_signals st1 rest answers (S k)).2).
  { apply IH; [done | done |].
    rewrite Forall_forall in Hall. apply Forall_forall.
    intros sg' Hin Hpend. pose proof (Hall sg' Hin) as Hfresh.
    apply Hup in Hpend. apply elem_of_union in Hpend as [Heq|Hold]; [|done].
    apply elem_of_singleton in Heq. apply Hhead. rewrite <- Heq.
    by apply list_elem_of_fmap_2. }
  by destruct (execute_signals st1 rest answers (S k)) as [[results|e] st2].
Qed.

Lemma execute_all_exits_consistent st read1 read2 answers :
  consistent st -> distinct_tickers read1 -> distinct_tickers read2 ->
  consistent (execute_all_exits st read1 read2 answers).2.
Proof.
  intros Hc H1 H2. unfold ExitHandler.execute_all_exits.
  pose proof (forget_closed_consistent st read1 Hc H1) as Hc1.
  pose proof (check_exits_consistent _ read2 Hc1 H2) as Hc2.
  pose proof (check_exits_signals (forget_closed st read1) read2) as Hs.
  pose proof (check_exits_state (forget_closed st read1) read2) as Hst.
  destruct (check_exits (forget_closed st read1) read2) as [[sigs|e] st2];
    cbn [fst snd] in *; [|done].
  destruct (Hs sigs Hc1 H2 eq_refl) as [Hnd Hall].
  apply execute_signals_consistent; [done | done |].
  by rewrite Hst.
Qed.

Lemma force_exit_consistent st t read answer :
  consistent st -> distinct_tickers read -> t ∉ _pending_exit_tickers st ->
  consistent (force_exit st t read answer).2.
Proof.
  intros (Hsp & Hout & Hnd) Hread Ht. unfold force_exit, PositionMonitor.get_position.
  destruct (get_positions_distinct _ read Hnd Hread) as [_ Hnd'].
  destruct (PositionMonitor.get_positions (position_monitor st) read)
    as [positions pm]. cbn [snd] in Hnd'.
  destruct (find _ positions) as [p|] eqn:Hfind; [|done].
  apply find_some in Hfind as [_ Heq]. apply String.eqb_eq in Heq.
  apply execute_exit_consistent; [done|]. cbn. by rewrite Heq.
Qed.

(** A call that respects the pending-exit set: position reads list each
    ticker once, and [execute_exit] or [force_exit] is not called for a
    ticker that is in the set. *)
Definition respectful (st : state) (op : Op) : Prop :=
  match op with
  | CheckExits read => distinct_tickers read
  | ExecuteExit sg _ => sig_ticker sg ∉ _pending_exit_tickers st
  | ExecuteAllExits read1 read2 _ => distinct_tickers read1 /\ distinct_tickers read2
  | ForceExit t read _ => distinct_tickers read /\ t ∉ _pending_exit_tickers st
  end.

Fixpoint all_respectful (st : state) (ops : list Op) : Prop :=
  match ops with
  | [] => True
  | op :: rest => respectful st op /\ all_respectful (step st op) rest
  end.

Lemma step_consistent st op :
  consistent st -> respectful st op -> consistent (step st op).
Proof.
  intros Hc Hop. destruct op as [read|sg answer|read1 read2 answers|t read answer];
    cbn in *.
  - by apply check_exits_consistent.
  - by apply execute_exit_consistent.
  - destruct Hop. by apply execute_all_exits_consistent.
  - destruct Hop. by apply force_exit_consistent.
Qed.

Lemma run_consistent ops : forall st,
  consistent st -> all_respectful st ops -> consistent (run st ops).
Proof.
  induction ops as [|op rest IH]; intros st Hc Hops; [done|].
  destruct Hops as [Hop Hrest]. cbn. apply IH; [|done].
  by apply step_consistent.
Qed.

Lemma execute_signals_pending_mono sigs answers : forall st k,
  _pending_exit_tickers st
  ⊆ _pending_exit_tickers (execute_signals st sigs answers k).2.
Proof.
  induction sigs as [|sg rest IH]; intros st k; cbn; [done|].
  pose proof (execute_exit_pending_bounds st sg (answers k)) as [Hlow _].
  destruct (execute_exit st sg (answers k)) as [[r|e] st1]; cbn in *; [|done].
  pose proof (IH st1 (S k)) as Hrest.
  destruct (execute_signals st1 rest answers (S k)) as [[results|e] st2];
    cbn in *; set_solver.
Qed.

(** A ticker leaves the pending-exit set only in the clean-up of
    [execute_all_exits], and only when the position read made there does
    not list it. *)
Lemma removal_only_when_closed st op t :
  t ∈ _pending_exit_tickers st -> t ∉ _pending_exit_tickers (step st op) ->
  exists read1 read2 answers,
    op = ExecuteAllExits read1 read2 answers
    /\ t ∉ PositionMonitor.tickers_of
             (PositionMonitor.get_positions (position_monitor st) read1).1.
Proof.
  intros Hin Hout.
  destruct op as [read|sg answer|read1 read2 answers|t' read answer]; cbn in Hout.
  - rewrite check_exits_state in Hout. done.
  - destruct (execute_exit_pending_bounds st sg answer) as [Hlow _]. set_solver.
  - exists read1, read2, answers. split; [done|]. intros Hlisted.
    apply Hout. unfold ExitHandler.execute_all_exits.
    pose proof (check_exits_state (forget_closed st read1) read2) as Hst.
    destruct (check_exits (forget_closed st read1) read2) as [[sigs|e] st2];
      cbn [snd] in *; subst st2.
    + apply execute_signals_pending_mono. cbn.
      rewrite forget_closed_pending. set_solver.
    + cbn. rewrite forget_closed_pending. set_solver.
  - exfalso. apply Hout. unfold force_exit, PositionMonitor.get_position.
    destruct (PositionMonitor.get_positions (position_monitor st) read)
      as [positions pm].
    destruct (find _ positions) as [p|]; [|done].
    by apply execute_exit_pending_bounds.
Qed.

(** The calls of the exit cycle proper: [check_exits] and
    [execute_all_exits], on position reads that list each ticker once. *)
Definition cycle_op (op : Op) : Prop :=
  match op with
  | CheckExits read => distinct_tickers read
  | ExecuteAllExits read1 read2 _ => distinct_tickers read1 /\ distinct_tickers read2
  | ExecuteExit _ _ | ForceExit _ _ _ => False
  end.

Lemma cycle_ops_respectful ops : forall st,
  Forall cycle_op ops -> all_respectful st ops.
Proof.
  induction ops as [|op rest IH]; intros st Hops; [done|].
  apply Forall_cons in Hops as [Hop Hrest]. split; [|by apply IH].
  by destruct op.
Qed.

(** C1 (amended). Starting from a fresh handler, after any series of
    calls in which position reads list each ticker once and
    [execute_exit] and [force_exit] are not called for a ticker of the
    pending-exit set, the ledger never shows two exits placed for one
    ticker without that ticker having left the pending-exit set in
    between; any series of [check_exits] and [execute_all_exits] calls
    is such a series. [check_exits] gives no signal for a ticker of the
    pending-exit set; [execute_exit] adds the signal's ticker to the set
    and writes the ledger line exactly when the placement succeeded, and
    changes neither otherwise; and a ticker leaves the set only in
    [execute_all_exits], when the position read of its clean-up does not
    list it. *)
Theorem exit_orders_spaced :
  (forall ops, all_respectful init ops ->
     exits_spaced ∅ (trade_log (run init ops)) = true)
  /\ (forall ops, Forall cycle_op ops ->
        exits_spaced ∅ (trade_log (run init ops)) = true)
  /\ (forall st read sigs, (check_exits st read).1 = Ok sigs ->
        Forall (fun sg => sig_ticker sg ∉ _pending_exit_tickers st) sigs)
  /\ (forall st sg answer,
        let st' := (execute_exit st sg answer).2 in
        match (execute_exit st sg answer).1 with
        | Ok (Some r) =>
            _pending_exit_tickers st' = {[ sig_ticker sg ]} ∪ _pending_exit_tickers st
            /\ trade_log st' = trade_log st ++ [EXIT sg (order_id r)]
        | _ =>
            _pending_exit_tickers st' = _pending_exit_tickers st
            /\ trade_log st' = trade_log st
        end)
  /\ (forall st op t,
        t ∈ _pending_exit_tickers st -> t ∉ _pending_exit_tickers (step st op) ->
        exists read1 read2 answers,
          op = ExecuteAllExits read1 read2 answers
          /\ t ∉ PositionMonitor.tickers_of
                   (PositionMonitor.get_positions (position_monitor st) read1).1).
Proof.
  split; [|split; [|split; [|split]]].
  - intros ops Hops. by apply (run_consistent ops init consistent_init Hops).
  - intros ops Hops.
    apply (run_consistent ops init consistent_init).
    by apply cycle_ops_respectful.
  - intros st read sigs. unfold ExitHandler.check_exits.
    destruct (PositionMonitor.get_positions (position_monitor st) read)
      as [positions pm]. cbn [fst].
    by intros [_ H]%collect_signals_spec.
  - intros st sg answer. apply execute_exit_effect.
  - apply removal_only_when_closed.
Qed.

End Handler.

(** Bought 10 at 80c, now quoted 90c: 12.5% up, past the default target. *)
Definition winner : Position :=
  {| pos_ticker := "A"; pos_side := YES; pos_contracts := 10;
     average_entry_price := 80; current_price := 90; pos_volume := 250000 |}.

Definition sell_winner : ExitSignal := Strategy.signal_for winner "profit_target".

Definition resting (oid : string) : OrderResult :=
  {| order_id := oid; status := RESTING; filled_contracts := 0;
     remaining_contracts := 10; average_price := None; created_at := 0 |}.

(** The invariant read over every series of calls: whatever the calls,
    the ledger never shows two exits for one ticker without a removal
    in between. *)
Definition never_two_exits : Prop :=
  forall settings ops,
    exits_spaced ∅ (trade_log (run settings init ops)) = true.

(** [execute_exit] called twice with the same signal, the venue
    accepting both sell orders: both are placed and logged, and the
    ticker never left the pending-exit set. *)
Lemma execute_exit_twice :
  trade_log (run default_settings init
               [ ExecuteExit sell_winner (Ok (resting "o-1"));
                 ExecuteExit sell_winner (Ok (resting "o-2")) ])
    = [ EXIT sell_winner "o-1"; EXIT sell_winner "o-2" ]
  /\ ~ never_two_exits.
Proof.
  split; [reflexivity|]. intros H.
  specialize (H default_settings
                [ ExecuteExit sell_winner (Ok (resting "o-1"));
                  ExecuteExit sell_winner (Ok (resting "o-2")) ]).
  vm_compute in H. congruence.
Qed.

(** [force_exit] behaves the same way: it does not look at the
    pending-exit set either. *)
Lemma force_exit_twice :
  exits_spaced ∅
    (trade_log (run default_settings init
                  [ ForceExit "A" (Ok [winner]) (Ok (resting "o-1"));
                    ForceExit "A" (Ok [winner]) (Ok (resting "o-2")) ]))
  = false.
Proof. by vm_compute. Qed.

(** Three exit cycles on the same winning position, the venue accepting
    every order: the exit is placed once. *)
Definition three_cycles : list Op :=
  [ ExecuteAllExits (Ok [winner]) (Ok [winner]) (fun _ => Ok (resting "o-1"));
    ExecuteAllExits (Ok [winner]) (Ok [winner]) (fun _ => Ok (resting "o-2"));
    CheckExits (Ok [winner]) ].

Example three_cycles_log :
  trade_log (run default_settings init three_cycles) = [ EXIT sell_winner "o-1" ].
Proof. by vm_compute. Qed.

Lemma exit_orders_spaced_witness :
  exits_spaced ∅ (trade_log (run default_settings init three_cycles)) = true.
Proof.
  apply (proj1 (proj2 (exit_orders_spaced default_settings)) three_cycles).
  unfold three_cycles.
  repeat first [ apply Forall_cons; split | apply Forall_nil ];
    cbn; repeat split; repeat constructor; set_solver.
Defined.

End ExitHandlerFacts.

(** * The code around the stated properties *)

(** ** Entry decision (src/strategy/position_sizer.py, high_probability.py) *)

Record TradeSignal := mkTradeSignal {
  ts_ticker : string;
  ts_side : Side;
  ts_entry_price : Q;
  ts_contracts : Z;
  ts_reason : string
}.

Module Entry.

Definition min_position_pct (s : TradingSettings) : Q := min_position_percent s.

Definition calculate_position_value (contracts : Z) (entry_price : Q) : Q :=
  (inject_Z contracts * entry_price)%Q.

Definition validate_position (s : TradingSettings) (contracts : Z)
    (entry_price portfolio_value : Q) : bool :=
  let position_value := calculate_position_value contracts entry_price in
  let min_allowed := (portfolio_value * min_position_pct s)%Q in
  let max_allowed := (portfolio_value * PositionSizer.max_position_pct s)%Q in
  if Decimal.ltb max_allowed position_value then false
  else if Decimal.ltb position_value min_allowed then false
  else true.

Section Strategy.

(** The text of the signal's reason (formatted probability and
    liquidity) is taken as given. *)
Variable describe : MarketOpportunity -> string.
Variable settings : TradingSettings.

Definition evaluate_entry (opportunity : MarketOpportunity) (portfolio_value : Q)
    : result (option TradeSignal) :=
  contracts ← PositionSizer.calculate_contracts settings portfolio_value
                (entry_price opportunity);
  if (contracts <=? 0)%Z then Ok None
  else if negb (validate_position settings contracts (entry_price opportunity)
                  portfolio_value) then Ok None
  else
    Ok (Some {| ts_ticker := ticker (market opportunity);
                ts_side := recommended_side opportunity;
                ts_entry_price := entry_price opportunity;
                ts_contracts := contracts;
                ts_reason := describe opportunity |}).

(** [should_exit]. *)
Definition should_exit (position : Position) : result bool :=
  signal ← Strategy.evaluate_exit settings position;
  Ok (bool_decide (signal <> None)).

End Strategy.
End Entry.

(** Derived quantities of the models (src/models). *)
Module Derived.

Definition expected_profit_per_contract (o : MarketOpportunity) : Q :=
  (100 - entry_price o)%Q.

Definition potential_profit_at_settlement (p : Position) : Q :=
  (100 * inject_Z (pos_contracts p) - entry_cost p)%Q.

End Derived.

Module EntryFacts.
Import Entry.

Section Strategy.

Variable describe : MarketOpportunity -> string.
Variable settings : TradingSettings.

Abbreviation evaluate_entry := (evaluate_entry describe settings).

Lemma validate_position_spec contracts ep pv :
  validate_position settings contracts ep pv = true
  <-> (pv * min_position_pct settings <= inject_Z contracts * ep)%Q
      /\ (inject_Z contracts * ep <= pv * PositionSizer.max_position_pct settings)%Q.
Proof.
  unfold validate_position, calculate_position_value.
  destruct (Decimal.ltb (pv * PositionSizer.max_position_pct settings)
              (inject_Z contracts * ep)) eqn:Hmax.
  - apply DecimalFacts.ltb_lt in Hmax. split; [done|].
    intros [_ H]. exfalso. exact (Qlt_not_le _ _ Hmax H).
  - apply DecimalFacts.ltb_nlt in Hmax.
    destruct (Decimal.ltb (inject_Z contracts * ep)
                (pv * min_position_pct settings)) eqn:Hmin.
    + apply DecimalFacts.ltb_lt in Hmin. split; [done|].
      intros [H _]. exfalso. exact (Qlt_not_le _ _ Hmin H).
    + apply DecimalFacts.ltb_nlt in Hmin. done.
Qed.

Lemma calculate_contracts_total pv ep :
  exists c, PositionSizer.calculate_contracts settings pv ep = Ok c
            /\ (min_contracts settings <= c)%Z.
Proof.
  unfold PositionSizer.calculate_contracts.
  destruct (Decimal.leb pv 0 || Decimal.leb ep 0) eqn:E.
  - eexists. split; [done | lia].
  - apply orb_false_iff in E as [_ E]. apply DecimalFacts.leb_nle in E.
    rewrite DecimalFacts.div_ok.
    + cbn. eexists. split; [done | lia].
    + intros H. apply E. rewrite H. apply Qle_refl.
Qed.

(** Whatever the opportunity and the portfolio value, the entry
    decision returns; and a signal it emits is for the opportunity's
    ticker, side and entry price, for a positive number of contracts
    that is at least [min_contracts], at a cost between
    [min_position_pct] and [max_position_pct] of the portfolio value. *)
Theorem evaluate_entry_within_limits (opp : MarketOpportunity) (pv : Q) :
  (exists r, evaluate_entry opp pv = Ok r)
  /\ (forall sg, evaluate_entry opp pv = Ok (Some sg) ->
        ts_ticker sg = ticker (market opp)
        /\ ts_side sg = recommended_side opp
        /\ ts_entry_price sg = entry_price opp
        /\ (0 < ts_contracts sg)%Z
        /\ (min_contracts settings <= ts_contracts sg)%Z
        /\ (pv * min_position_pct settings
            <= inject_Z (ts_contracts sg) * entry_price opp)%Q
        /\ (inject_Z (ts_contracts sg) * entry_price opp
            <= pv * PositionSizer.max_position_pct settings)%Q).
Proof.
  unfold Entry.evaluate_entry.
  destruct (calculate_contracts_total pv (entry_price opp)) as (c & -> & Hmin).
  cbn. split.
  - repeat case_match; eauto.
  - intros sg. destruct (c <=? 0)%Z eqn:Hpos; [done|].
    destruct (validate_position settings c (entry_price opp) pv) eqn:Hv; [|done].
    cbn. intros [= <-]. cbn.
    apply validate_position_spec in Hv as [H1 H2]. apply Z.leb_gt in Hpos.
    done.
Qed.

(** With nothing to invest (portfolio value not positive) no entry is
    signalled on an opportunity with a positive entry price, provided
    [max_position_pct] is not negative. *)
Theorem evaluate_entry_empty_portfolio (opp : MarketOpportunity) (pv : Q) :
  (pv <= 0)%Q -> (0 < entry_price opp)%Q ->
  (0 <= PositionSizer.max_position_pct settings)%Q ->
  evaluate_entry opp pv = Ok None.
Proof.
  intros Hpv Hep Hpct. unfold Entry.evaluate_entry.
  rewrite PositionSizerFacts.calculate_contracts_degenerate by (by left). cbn.
  destruct (min_contracts settings <=? 0)%Z eqn:Hc; [done|].
  apply Z.leb_gt in Hc.
  destruct (validate_position settings (min_contracts settings)
              (entry_price opp) pv) eqn:Hv; [|done].
  exfalso. apply validate_position_spec in Hv as [_ Hmax].
  assert (H0 : (0 < inject_Z (min_contracts settings) * entry_price opp)%Q).
  { apply Qmult_lt_0_compat; [|done].
    replace 0%Q with (inject_Z 0) by done. by rewrite <- Zlt_Qlt. }
  assert (H1 : (pv * PositionSizer.max_position_pct settings <= 0)%Q).
  { apply Qle_trans with (0 * PositionSizer.max_position_pct settings)%Q.
    - by apply Qmult_le_compat_r.
    - rewrite Qmult_0_l. apply Qle_refl. }
  apply (Qlt_not_le _ _ H0). by eapply Qle_trans.
Qed.

(** When the floored count is positive, at least [min_contracts], and
    costs at least [min_position_pct] of a positive portfolio value, the
    entry is signalled for exactly the floored count. *)
Theorem evaluate_entry_signals_floor (opp : MarketOpportunity) (pv : Q) :
  let n := PositionSizerFacts.floor_count settings pv (entry_price opp) in
  (0 < pv)%Q -> (0 < entry_price opp)%Q ->
  (0 <= PositionSizer.max_position_pct settings)%Q ->
  (0 < n)%Z -> (min_contracts settings <= n)%Z ->
  (pv * min_position_pct settings <= inject_Z n * entry_price opp)%Q ->
  evaluate_entry opp pv =
    Ok (Some {| ts_ticker := ticker (market opp);
                ts_side := recommended_side opp;
                ts_entry_price := entry_price opp;
                ts_contracts := n;
                ts_reason := describe opp |}).
Proof.
  cbn zeta. intros Hpv Hep Hpct Hn Hmin Hcost. unfold Entry.evaluate_entry.
  rewrite PositionSizerFacts.calculate_contracts_regular by done.
  rewrite Z.max_l by done. cbn.
  destruct (_ <=? 0)%Z eqn:E; [apply Z.leb_le in E; lia|].
  assert (Hv : validate_position settings
                 (PositionSizerFacts.floor_count settings pv (entry_price opp))
                 (entry_price opp) pv = true).
  { apply validate_position_spec. split; [done|].
    rewrite (Qmult_comm pv).
    by apply PositionSizerFacts.floor_count_within_budget. }
  by rewrite Hv.
Qed.

End Strategy.
End EntryFacts.

Ltac Qcmp := vm_compute; first [reflexivity | discriminate | congruence].

Module EntryExamples.
Import Entry.

(** An accepted opportunity at 85c. *)
Definition opp85 : MarketOpportunity :=
  {| market := MarketScannerFacts.quoted_market "KXNCAAMBGAME-26FEB16ARWMIW-MIW" 84 85;
     orderbook := empty_orderbook "KXNCAAMBGAME-26FEB16ARWMIW-MIW";
     recommended_side := YES;
     entry_price := 85;
     liquidity := 0;
     probability := 85 # 100 |}.

Definition plain (_ : MarketOpportunity) : string := "High probability".

(** $500.00 to size with: 58 contracts, $49.30. *)
Lemma evaluate_entry_signals_floor_witness :
  evaluate_entry plain default_settings opp85 50000 =
    Ok (Some {| ts_ticker := "KXNCAAMBGAME-26FEB16ARWMIW-MIW"; ts_side := YES;
                ts_entry_price := 85; ts_contracts := 58;
                ts_reason := "High probability" |}).
Proof.
  apply (EntryFacts.evaluate_entry_signals_floor plain default_settings opp85 50000);
    Qcmp.
Defined.

Lemma evaluate_entry_within_limits_witness :
  (50000 * min_position_pct default_settings <= inject_Z 58 * 85)%Q
  /\ (inject_Z 58 * 85 <= 50000 * PositionSizer.max_position_pct default_settings)%Q.
Proof.
  destruct (EntryFacts.evaluate_entry_within_limits plain default_settings opp85 50000)
    as [_ H].
  destruct (H {| ts_ticker := "KXNCAAMBGAME-26FEB16ARWMIW-MIW"; ts_side := YES;
                 ts_entry_price := 85; ts_contracts := 58;
                 ts_reason := "High probability" |})
    as (_ & _ & _ & _ & _ & H1 & H2); [by vm_compute|].
  split; [exact H1 | exact H2].
Defined.

Lemma evaluate_entry_empty_portfolio_witness :
  evaluate_entry plain default_settings opp85 0 = Ok None.
Proof.
  apply (EntryFacts.evaluate_entry_empty_portfolio plain default_settings opp85 0);
    Qcmp.
Defined.

(** The $1.00 portfolio of the sizer's over-budget case: the minimum of
    one contract costs 50c against a 10c budget, and no entry is
    signalled. *)
Example evaluate_entry_rejects_clamped :
  evaluate_entry plain default_settings
    {| market := market opp85; orderbook := orderbook opp85;
       recommended_side := YES; entry_price := 50; liquidity := 0;
       probability := 50 # 100 |} 100 = Ok None.
Proof. by vm_compute. Qed.

End EntryExamples.

(** ** Filters and scanner: what an opportunity is *)

Module OpportunityFacts.
Import MarketFilters.

Section Evaluate.

Variable matches_category : Market -> MarketCategory -> bool.
Variable settings : TradingSettings.

Abbreviation evaluate := (evaluate matches_category settings).

(** Every opportunity [evaluate] returns is on the YES side, carries
    the market and the book it was given, passed the category and
    liquidity filters, has the probability [entry_price / 100], and
    leaves between 10c and 99c of profit per contract at settlement. *)
Theorem evaluate_yes_only (m : Market) (ob : OrderBook) (opp : MarketOpportunity) :
  evaluate m ob = Some opp ->
  market opp = m /\ orderbook opp = ob
  /\ recommended_side opp = YES
  /\ passes_category matches_category settings m = true
  /\ passes_liquidity settings m ob = true
  /\ probability opp = (entry_price opp / 100)%Q
  /\ (10 <= Derived.expected_profit_per_contract opp)%Q
  /\ (Derived.expected_profit_per_contract opp <= 99)%Q.
Proof.
  intros H.
  destruct (MarketFiltersFacts.evaluate_accepts _ _ _ _ _ H)
    as (Hm & Hside & _ & H1 & H90 & _ & Hp).
  apply MarketFiltersFacts.passes_probability_yes in Hside.
  assert (Hob : orderbook opp = ob
                /\ passes_category matches_category settings m = true
                /\ passes_liquidity settings m ob = true).
  { revert H. unfold MarketFilters.evaluate.
    destruct (passes_category _ _ m); [|done].
    destruct (passes_liquidity _ m ob); [|done]. cbn [negb].
    destruct (passes_probability settings m) as [side|]; [|done].
    destruct (_get_entry_price m ob side) as [ep|]; [|done].
    destruct (Decimal.ltb 90 ep); [done|].
    destruct (Decimal.leb 100 ep || Decimal.ltb ep 1); [done|].
    destruct (negb (in_band settings (ep / 100))); [done|].
    by intros [= <-]. }
  destruct Hob as (Hob & Hcat & Hliq).
  unfold Derived.expected_profit_per_contract.
  repeat split; try done.
  - apply Qle_minus_iff. apply Qle_minus_iff in H90.
    eapply Qle_trans; [exact H90|]. apply Qle_lteq. right. ring.
  - apply Qle_minus_iff. apply Qle_minus_iff in H1.
    eapply Qle_trans; [exact H1|]. apply Qle_lteq. right. ring.
Qed.

End Evaluate.

Lemma evaluate_yes_only_witness :
  recommended_side EntryExamples.opp85 = YES
  /\ (10 <= Derived.expected_profit_per_contract EntryExamples.opp85)%Q.
Proof.
  destruct (evaluate_yes_only (fun _ _ => true) MarketScannerFacts.scan_settings
              (market EntryExamples.opp85) (orderbook EntryExamples.opp85)
              {| market := market EntryExamples.opp85;
                 orderbook := orderbook EntryExamples.opp85;
                 recommended_side := YES; entry_price := 85;
                 liquidity := 5000 * ((84 + (100 - 85)) / 2);
                 probability := 85 / 100 |})
    as (_ & _ & H1 & _ & _ & _ & H2 & _); [by vm_compute|].
  split; [exact H1 | exact H2].
Defined.

End OpportunityFacts.

(** ** Event prefixes *)

Module EventPrefixFacts.
Import MarketScanner.

Abbreviation dash := ("-"%char) (only parsing).
Abbreviation cat := Stdlib.Strings.String.append (only parsing).

(** [s] holds no dash. *)
Fixpoint dash_free (s : string) : Prop :=
  match s with
  | EmptyString => True
  | String a r => a <> dash /\ dash_free r
  end.

Lemma rfind_cons c a r :
  Text.rfind c (String a r)
  = if (0 <=? Text.rfind c r)%Z then (Text.rfind c r + 1)%Z
    else if Ascii.eqb a c then 0%Z else (-1)%Z.
Proof. reflexivity. Qed.

Lemma rfind_dash_free s : dash_free s -> Text.rfind dash s = (-1)%Z.
Proof.
  induction s as [|a r IH]; [done|]. intros [Ha Hr].
  rewrite rfind_cons, (IH Hr).
  change (0 <=? -1)%Z with false. cbv iota.
  destruct (Ascii.eqb a dash) eqn:E; [|done].
  by apply Ascii.eqb_eq in E.
Qed.

Lemma rfind_last_dash p s :
  dash_free s ->
  Text.rfind dash (cat p (String dash s)) = Z.of_nat (String.length p).
Proof.
  intros Hs. induction p as [|a p IH].
  - change (cat EmptyString (String dash s)) with (String dash s).
    rewrite rfind_cons, (rfind_dash_free s Hs).
    change (0 <=? -1)%Z with false. cbv iota. by rewrite Ascii.eqb_refl.
  - change (cat (String a p) (String dash s))
      with (String a (cat p (String dash s))).
    rewrite rfind_cons, IH.
    destruct (0 <=? Z.of_nat (String.length p))%Z eqn:E.
    + cbn [String.length]. lia.
    + apply Z.leb_gt in E. lia.
Qed.

Lemma substring_app_prefix p q :
  String.substring 0 (String.length p) (cat p q) = p.
Proof.
  induction p as [|a p IH].
  - by destruct q.
  - change (String a (String.substring 0 (String.length p) (cat p q)) = String a p).
    by rewrite IH.
Qed.

(** The event prefix of a ticker is the ticker without its last
    dash-separated segment: [p-s], with [s] free of dashes and [p] not
    empty, has the prefix [p]. A ticker without a dash, and a ticker
    whose only dash is its first character, are their own prefix. *)
Theorem event_prefix_strips_last_segment (p s : string) :
  dash_free s ->
  (p <> EmptyString -> _get_event_prefix (cat p (String dash s)) = p)
  /\ _get_event_prefix (String dash s) = String dash s
  /\ _get_event_prefix s = s.
Proof.
  intros Hs. unfold _get_event_prefix. split; [|split].
  - intros Hp. rewrite rfind_last_dash by done.
    destruct p as [|a p]; [done|].
    assert (E : (0 <? Z.of_nat (String.length (String a p)))%Z = true)
      by (apply Z.ltb_lt; cbn; lia).
    rewrite E, Nat2Z.id. apply substring_app_prefix.
  - change (String dash s) with (cat EmptyString (String dash s)).
    by rewrite rfind_last_dash.
  - by rewrite rfind_dash_free.
Qed.

(** The two sides of one game share their event. *)
Lemma event_prefix_strips_last_segment_witness :
  _get_event_prefix "KXNCAAMBGAME-26FEB16ARWMIW-MIW"
  = _get_event_prefix "KXNCAAMBGAME-26FEB16ARWMIW-ARW".
Proof.
  destruct (event_prefix_strips_last_segment "KXNCAAMBGAME-26FEB16ARWMIW" "MIW")
    as [H1 _]; [by cbn; repeat split|].
  destruct (event_prefix_strips_last_segment "KXNCAAMBGAME-26FEB16ARWMIW" "ARW")
    as [H2 _]; [by cbn; repeat split|].
  transitivity "KXNCAAMBGAME-26FEB16ARWMIW".
  - apply H1. discriminate.
  - symmetry. apply H2. discriminate.
Defined.

End EventPrefixFacts.

(** ** Scanner: what a run yields, in which order, and over two runs *)

Module SortedFacts.
Section Sort.
Context {A : Type} (before : A -> A -> bool).
Hypothesis before_total : forall x y, before x y = true \/ before y x = true.
Hypothesis before_trans :
  forall x y z, before x y = true -> before y z = true -> before x z = true.

Definition ordered (l : list A) : Prop :=
  StronglySorted (fun x y => before x y = true) l.

Lemma insert_sorted_ordered x l :
  ordered l -> ordered (Sorting.insert_sorted before x l).
Proof using before_total before_trans.
  unfold ordered. induction 1 as [|y r Hr IH Hy]; cbn.
  - repeat constructor.
  - destruct (before x y) eqn:E.
    + constructor; [by constructor|]. constructor; [done|].
      eapply Forall_impl; [exact Hy|]. cbn. eauto.
    + constructor; [done|].
      assert (Hyx : before y x = true).
      { destruct (before_total x y); [congruence | done]. }
      rewrite (SortingFacts.insert_sorted_perm before x r). by constructor.
Qed.

Lemma stable_sort_ordered l : ordered (Sorting.stable_sort before l).
Proof using before_total before_trans.
  unfold Sorting.stable_sort. induction l as [|x l IH]; cbn.
  - constructor.
  - by apply insert_sorted_ordered.
Qed.

Lemma ordered_impl (R : A -> A -> Prop) l :
  (forall x y, before x y = true -> R x y) -> ordered l -> StronglySorted R l.
Proof.
  intros HR. induction 1 as [|x r Hr IH Hx]; constructor; [done|].
  eapply Forall_impl; [exact Hx|]. cbn. eauto.
Qed.

End Sort.
End SortedFacts.

Module ScannerRunFacts.
Import MarketScanner MarketScannerFacts.

Section Scanner.

Variable matches_category : Market -> MarketCategory -> bool.
Variable settings : TradingSettings.
Variable clk : Clock.
Variable get_orderbook : nat -> string -> result OrderBook.

Abbreviation scan_market := (scan_market matches_category settings clk get_orderbook).
Abbreviation scan_markets := (scan_markets matches_category settings clk get_orderbook).
Abbreviation scan_pages := (scan_pages matches_category settings clk get_orderbook).
Abbreviation scan_iter := (scan_iter matches_category settings clk get_orderbook).
Abbreviation scan := (scan matches_category settings clk get_orderbook).

(** The markets of the pages the venue answered with. *)
Definition listed (answers : list (result Page)) : list Market :=
  mjoin ((fun a => match a with Ok page => page_markets page | Raise _ => [] end)
           <$> answers).

(** An opportunity that went through every filter of the scanner. *)
Definition vetted (o : MarketOpportunity) : Prop :=
  MarketFilters.passes_category matches_category settings (market o) = true
  /\ MarketFilters.quick_filter settings clk (market o) = true
  /\ MarketFilters.evaluate matches_category settings (market o) (orderbook o)
     = Some o.

Lemma evaluate_same_inputs m ob o :
  MarketFilters.evaluate matches_category settings m ob = Some o ->
  market o = m /\ orderbook o = ob.
Proof.
  unfold MarketFilters.evaluate.
  destruct (negb (MarketFilters.passes_category _ _ m)); [done|].
  destruct (negb (MarketFilters.passes_liquidity _ m ob)); [done|].
  destruct (MarketFilters.passes_probability settings m) as [side|]; [|done].
  destruct (MarketFilters._get_entry_price m ob side) as [ep|]; [|done].
  destruct (Decimal.ltb 90 ep); [done|].
  destruct (Decimal.leb 100 ep || Decimal.ltb ep 1); [done|].
  destruct (negb (MarketFilters.in_band settings (ep / 100))); [done|].
  by intros [= <-].
Qed.

Lemma scan_market_vetted st k m o st' :
  scan_market st k m = (Some o, st') -> market o = m /\ vetted o.
Proof.
  unfold MarketScanner.scan_market, vetted.
  destruct (bool_decide (ticker m ∈ _existing_positions st)); [done|].
  destruct (bool_decide (_ ∈ _existing_events st)); [done|].
  destruct (MarketFilters.passes_category matches_category settings m) eqn:Hc;
    [|done].
  destruct (MarketFilters.quick_filter settings clk m) eqn:Hq; [|done]. cbn [negb].
  match goal with
  | |- context [match ?f with Ok _ => _ | Raise _ => _ end] => destruct f as [ob|e]
  end; [|done].
  destruct (MarketFilters.evaluate matches_category settings m ob) as [o'|] eqn:Hev;
    [|done].
  intros [= <- <-].
  destruct (evaluate_same_inputs m ob o' Hev) as [-> ->].
  done.
Qed.

Lemma scan_markets_vetted ms : forall st k o,
  o ∈ (scan_markets st k ms).1.1 -> market o ∈ ms /\ vetted o.
Proof.
  induction ms as [|m rest IH]; intros st k o; cbn.
  - by intros ?%elem_of_nil.
  - pose proof (scan_market_vetted st (S k) m) as H1.
    destruct (scan_market st (S k) m) as [y st1].
    pose proof (IH st1 (S k) o) as H2.
    destruct (scan_markets st1 (S k) rest) as [[ys st2] n]. cbn in *.
    intros [Hin|Hin]%elem_of_app.
    + destruct y as [o'|]; cbn in Hin; [|by apply elem_of_nil in Hin].
      apply list_elem_of_singleton in Hin as ->.
      destruct (H1 o' st1 eq_refl) as [<- Hv]. split; [left | done].
    + destruct (H2 Hin) as [Hm Hv]. split; [by right | done].
Qed.

Lemma scan_pages_vetted answers : forall st k o,
  o ∈ (scan_pages answers st k).1.1 -> market o ∈ listed answers /\ vetted o.
Proof.
  induction answers as [|a rest IH]; intros st k o; cbn.
  - destruct (_stop_requested st); by intros ?%elem_of_nil.
  - destruct (_stop_requested st); [by intros ?%elem_of_nil|].
    destruct a as [page|e]; [|by intros ?%elem_of_nil].
    destruct (negb (nonempty (page_markets page))); [by intros ?%elem_of_nil|].
    pose proof (scan_markets_vetted (page_markets page) st k o) as H1.
    destruct (scan_markets st k (page_markets page)) as [[ys st1] n]. cbn in H1.
    unfold listed. cbn.
    destruct (negb (more_pages (page_cursor page))); cbn.
    + intros Hin. destruct (H1 Hin) as [Hm Hv]. split; [|done].
      apply elem_of_app. by left.
    + pose proof (IH st1 n o) as H2.
      destruct (scan_pages rest st1 n) as [[ys' st2] r]. cbn in *.
      intros [Hin|Hin]%elem_of_app.
      * destruct (H1 Hin) as [Hm Hv]. split; [|done]. apply elem_of_app. by left.
      * destruct (H2 Hin) as [Hm Hv]. split; [|done]. apply elem_of_app. by right.
Qed.

(** Everything a run yields is a market of one of the pages the venue
    returned, passed the category check and the quick filter, and is
    the result of [evaluate] on that market and the book it carries; so
    it is a YES opportunity priced from 1c to 90c. *)
Theorem scan_iter_yields_vetted (st : state) (answers : list (result Page))
    (o : MarketOpportunity) :
  o ∈ (scan_iter st answers).1.1 ->
  market o ∈ listed answers
  /\ vetted o
  /\ recommended_side o = YES
  /\ (1 <= entry_price o)%Q /\ (entry_price o <= 90)%Q.
Proof.
  intros Hin. destruct (scan_pages_vetted answers st 0 o Hin) as [Hm Hv].
  split; [done|]. split; [done|].
  destruct Hv as (_ & _ & Hev).
  destruct (MarketFiltersFacts.evaluate_accepts _ _ _ _ _ Hev)
    as (_ & Hside & _ & H1 & H90 & _).
  apply MarketFiltersFacts.passes_probability_yes in Hside. done.
Qed.

Definition by_liquidity (a b : MarketOpportunity) : bool :=
  Decimal.leb (liquidity b) (liquidity a).

(** [scan] returns its opportunities with the most liquid first: each
    one has at least the liquidity of every one after it. *)
Theorem scan_most_liquid_first (st : state) (answers : list (result Page))
    (l : list MarketOpportunity) :
  (scan st answers).1 = Ok l ->
  StronglySorted (fun a b => (liquidity b <= liquidity a)%Q) l.
Proof.
  unfold MarketScanner.scan.
  destruct (scan_iter st answers) as [[ys st'] r].
  destruct r as [[]|e]; cbn; [|done]. intros [= <-].
  apply (SortedFacts.ordered_impl by_liquidity).
  { intros a b Hab. by apply DecimalFacts.leb_le. }
  apply SortedFacts.stable_sort_ordered.
  - intros x y. unfold by_liquidity, Decimal.leb. unfold Decimal.leb.
    destruct (Qlt_le_dec (liquidity x) (liquidity y)) as [Hlt|Hle].
    + right. apply Qle_bool_iff. by apply Qlt_le_weak.
    + left. by apply Qle_bool_iff.
  - intros x y z Hxy Hyz. unfold by_liquidity in *.
    apply DecimalFacts.leb_le in Hxy, Hyz.
    apply DecimalFacts.leb_le. by eapply Qle_trans.
Qed.

(** A second run made without resetting the scanner yields nothing on
    an event (or ticker) the first run yielded on, whatever the venue
    lists the second time; and after a run the scanner holds the tickers
    and events it held before plus exactly those it yielded. *)
Theorem scan_iter_second_run (st : state) (answers1 answers2 : list (result Page)) :
  let run1 := scan_iter st answers1 in
  let run2 := scan_iter run1.1.2 answers2 in
  NoDup (opp_event <$> (run1.1.1 ++ run2.1.1))
  /\ NoDup (opp_ticker <$> (run1.1.1 ++ run2.1.1))
  /\ _existing_positions run1.1.2
     = _existing_positions st ∪ list_to_set (opp_ticker <$> run1.1.1)
  /\ _existing_events run1.1.2
     = _existing_events st ∪ list_to_set (opp_event <$> run1.1.1).
Proof.
  cbn zeta.
  pose proof (scan_pages_claims matches_category settings clk get_orderbook
                answers1 st 0) as H1.
  fold (scan_iter st answers1) in H1.
  pose proof (scan_pages_claims matches_category settings clk get_orderbook
                answers2 (scan_iter st answers1).1.2 0) as H2.
  fold (scan_iter (scan_iter st answers1).1.2 answers2) in H2.
  pose proof (claims_app _ _ _ _ _ H1 H2) as (Hnd & _).
  destruct H1 as (_ & _ & HP & HE & _).
  split; [done|]. split; [|done].
  unfold opp_event in Hnd.
  eapply (NoDup_fmap_1 _get_event_prefix).
  by rewrite <- list_fmap_compose.
Qed.

End Scanner.
End ScannerRunFacts.

Module ScannerRunExamples.
Import MarketScanner MarketScannerFacts.

Lemma scan_iter_yields_vetted_witness :
  length game_run = 1%nat
  /\ Forall (fun o => recommended_side o = YES /\ (entry_price o <= 90)%Q) game_run.
Proof.
  split; [by vm_compute|]. apply Forall_forall. intros o Ho.
  destruct (ScannerRunFacts.scan_iter_yields_vetted (fun _ _ => true) scan_settings
              {| now_utc := 0; today_local := "FEB16" |}
              (fun _ _ => Raise OtherError)
              (set_existing_positions init held_tickers) [Ok game_page] o Ho)
    as (_ & _ & H1 & _ & H2).
  split; [exact H1 | exact H2].
Defined.

(** Two games on one page, the second with the higher bid and so the
    higher liquidity estimate. *)
Definition two_games : Page :=
  {| page_markets :=
       [ quoted_market "KXNBAGAME-26FEB16LALBOS-BOS" 82 85;
         quoted_market "KXNBAGAME-26FEB16NYKMIA-NYK" 86 87 ];
     page_cursor := None |}.

Definition two_games_scan : result (list MarketOpportunity) :=
  (scan (fun _ _ => true) scan_settings {| now_utc := 0; today_local := "FEB16" |}
        (fun _ _ => Raise OtherError) init [Ok two_games]).1.

Example two_games_scan_order :
  match two_games_scan with
  | Ok l => opp_ticker <$> l
  | Raise _ => []
  end
  = [ "KXNBAGAME-26FEB16NYKMIA-NYK"; "KXNBAGAME-26FEB16LALBOS-BOS" ].
Proof. by vm_compute. Qed.

Lemma scan_most_liquid_first_witness :
  match two_games_scan with
  | Ok l => StronglySorted (fun a b => (liquidity b <= liquidity a)%Q) l
  | Raise _ => False
  end.
Proof.
  destruct two_games_scan as [l|e] eqn:E.
  - exact (ScannerRunFacts.scan_most_liquid_first _ _ _ _ _ _ _ E).
  - vm_compute in E. discriminate.
Defined.

End ScannerRunExamples.

(** ** Exit queries and the bot's exit phase
    (src/executor/exit_handler.py, src/core/bot.py) *)

Module ExitQueries.
Section Queries.

Variable settings : TradingSettings.

(** [[p for p in positions if keep(p)]], where [keep] may raise. *)
Fixpoint select (keep : Position -> result bool) (positions : list Position)
    : result (list Position) :=
  match positions with
  | [] => Ok []
  | p :: rest =>
      match keep p with
      | Raise e => Raise e
      | Ok b =>
          match select keep rest with
          | Raise e => Raise e
          | Ok kept => Ok (if b : bool then p :: kept else kept)
          end
      end
  end.

Definition get_positions_at_target (st : ExitHandler.state)
    (read : result (list Position))
    : result (list Position) * ExitHandler.state :=
  let '(positions, pm) :=
    PositionMonitor.get_positions (ExitHandler.position_monitor st) read in
  let target := profit_target_percent settings in
  (select (fun p => pnl ← unrealized_pnl_percent p; Ok (Decimal.leb target pnl))
          positions,
   ExitHandler.with_monitor st pm).

Definition get_positions_at_stop (st : ExitHandler.state)
    (read : result (list Position))
    : result (list Position) * ExitHandler.state :=
  match stop_loss_percent settings with
  | None => (Ok [], st)
  | Some stop =>
      if negb (Decimal.truthy stop) then (Ok [], st)
      else
        let '(positions, pm) :=
          PositionMonitor.get_positions (ExitHandler.position_monitor st) read in
        let min_vol := stop_loss_min_volume settings in
        (select (fun p =>
                   pnl ← unrealized_pnl_percent p;
                   Ok (Decimal.leb pnl (- stop) && (min_vol <=? pos_volume p)%Z))
                positions,
         ExitHandler.with_monitor st pm)
  end.

End Queries.
End ExitQueries.

Module Bot.

Record state := mkState {
  exit_handler : ExitHandler.state;
  session_trades : list TradeRecord
}.

(** [side.value]. *)
Definition side_value (s : Side) : string :=
  match s with
  | YES => "yes"
  | NO => "no"
  end.

(** [DailyStats.record_exit], the record stamped with the time [now]. *)
Definition record_exit (trades : list TradeRecord) (t side : string)
    (contracts : Z) (p : Q) (now : Z) : list TradeRecord :=
  trades ++ [{| tr_ticker := t; tr_side := side; tr_action := "exit";
                tr_contracts := contracts; tr_price := p; tr_timestamp := now |}].

Section ExitPhase.

Variable settings : TradingSettings.
Variable dry_run : bool.
(** The clock read when the [k]-th exit of the phase is recorded. *)
Variable now : nat -> Z.

(** The loop of [_check_exits] over the signals. *)
Fixpoint exit_each (st : state) (signals : list ExitSignal)
    (answers : nat -> result OrderResult) (k : nat) : result unit * state :=
  match signals with
  | [] => (Ok tt, st)
  | signal :: rest =>
      match ExitHandler.execute_exit (exit_handler st) signal (answers k) with
      | (Raise e, h) =>
          (Raise e, {| exit_handler := h; session_trades := session_trades st |})
      | (Ok (Some _), h) =>
          exit_each
            {| exit_handler := h;
               session_trades :=
                 record_exit (session_trades st) (sig_ticker signal)
                   (side_value (sig_side signal)) (sig_contracts signal)
                   (exit_price signal) (now k) |}
            rest answers (S k)
      | (Ok None, h) =>
          exit_each {| exit_handler := h; session_trades := session_trades st |}
                    rest answers (S k)
      end
  end.

(** The clean-up that ends [_check_exits]. *)
Definition clean_up (h : ExitHandler.state) (read : result (list Position))
    : ExitHandler.state :=
  let '(positions, pm) :=
    PositionMonitor.get_positions (ExitHandler.position_monitor h) read in
  let current_tickers := PositionMonitor.tickers_of positions in
  let closed := ExitHandler._pending_exit_tickers h ∖ current_tickers in
  if bool_decide (closed = ∅) then ExitHandler.with_monitor h pm
  else
    {| ExitHandler.position_monitor := pm;
       ExitHandler.order_manager := ExitHandler.order_manager h;
       ExitHandler._pending_exit_tickers :=
         ExitHandler._pending_exit_tickers h ∖ closed;
       ExitHandler.trade_log := ExitHandler.trade_log h ++ [ExitsFilled closed] |}.

Definition _check_exits (st : state) (read1 : result (list Position))
    (answers : nat -> result OrderResult) (read2 : result (list Position))
    : result unit * state :=
  if dry_run then (Ok tt, st)
  else
    match ExitHandler.check_exits settings (exit_handler st) read1 with
    | (Raise e, h) =>
        (Raise e, {| exit_handler := h; session_trades := session_trades st |})
    | (Ok signals, h) =>
        match exit_each {| exit_handler := h; session_trades := session_trades st |}
                        signals answers 0 with
        | (Raise e, st1) => (Raise e, st1)
        | (Ok _, st1) =>
            (Ok tt, {| exit_handler := clean_up (exit_handler st1) read2;
                       session_trades := session_trades st1 |})
        end
    end.

End ExitPhase.
End Bot.

Module ExitQueriesFacts.
Import ExitHandler ExitQueries.

(** The value [unrealized_pnl_percent] returns. *)
Definition pnl_of (p : Position) : Q :=
  if Decimal.eqb (entry_cost p) 0 then 0%Q
  else (unrealized_pnl p / entry_cost p)%Q.

Lemma unrealized_pnl_percent_value p : unrealized_pnl_percent p = Ok (pnl_of p).
Proof.
  unfold unrealized_pnl_percent, pnl_of, Decimal.div.
  by destruct (Decimal.eqb (entry_cost p) 0).
Qed.

Section Queries.

Variable settings : TradingSettings.

Definition hits_target (p : Position) : bool :=
  Decimal.leb (profit_target_percent settings) (pnl_of p).

Definition hits_stop (p : Position) : bool :=
  match stop_loss_percent settings with
  | Some stop =>
      Decimal.truthy stop && Decimal.leb (pnl_of p) (- stop)
      && (stop_loss_min_volume settings <=? pos_volume p)%Z
  | None => false
  end.

Lemma evaluate_exit_cases p :
  Strategy.evaluate_exit settings p =
    Ok (if hits_target p then Some (Strategy.signal_for p "profit_target")
        else if hits_stop p then Some (Strategy.signal_for p "stop_loss")
        else None).
Proof.
  unfold Strategy.evaluate_exit, hits_target, hits_stop, Strategy.profit_target,
    Strategy.stop_loss.
  rewrite unrealized_pnl_percent_value. cbn.
  destruct (Decimal.leb (profit_target_percent settings) (pnl_of p)); [done|].
  destruct (stop_loss_percent settings) as [stop|]; [|done].
  destruct (Decimal.truthy stop) eqn:E; [|done]. rewrite E. cbn.
  destruct (Decimal.leb (pnl_of p) (- stop)); [|done]. cbn.
  by destruct (stop_loss_min_volume settings <=? pos_volume p)%Z.
Qed.

Lemma select_total (b : Position -> bool) keep positions :
  (forall p, keep p = Ok (b p)) ->
  select keep positions = Ok (filter (fun p => b p = true) positions).
Proof.
  intros Hk. induction positions as [|p rest IH]; [done|].
  rewrite filter_cons. cbn [select]. rewrite Hk, IH.
  destruct (b p); by case_decide.
Qed.

Lemma at_target_value st read :
  (get_positions_at_target settings st read).1
  = Ok (filter (fun p => hits_target p = true)
          (PositionMonitor.get_positions (position_monitor st) read).1).
Proof.
  unfold get_positions_at_target.
  destruct (PositionMonitor.get_positions (position_monitor st) read)
    as [positions pm]. cbn [fst].
  apply select_total. intros p. by rewrite unrealized_pnl_percent_value.
Qed.

Lemma at_stop_value st read :
  (get_positions_at_stop settings st read).1
  = Ok (filter (fun p => hits_stop p = true)
          (PositionMonitor.get_positions (position_monitor st) read).1).
Proof.
  unfold get_positions_at_stop, hits_stop.
  destruct (stop_loss_percent settings) as [stop|]; cbn.
  - destruct (Decimal.truthy stop); cbn.
    + destruct (PositionMonitor.get_positions (position_monitor st) read)
        as [positions pm]. cbn [fst].
      apply select_total. intros p. by rewrite unrealized_pnl_percent_value.
    + f_equal. induction (PositionMonitor.get_positions _ _).1 as [|p l IH];
        [done|]. rewrite filter_cons. by case_decide.
  - f_equal. induction (PositionMonitor.get_positions _ _).1 as [|p l IH];
      [done|]. rewrite filter_cons. by case_decide.
Qed.

Definition signal_of (p : Position) : option ExitSignal :=
  if hits_target p then Some (Strategy.signal_for p "profit_target")
  else if hits_stop p then Some (Strategy.signal_for p "stop_loss")
  else None.

Lemma collect_signals_value pending positions :
  collect_signals settings pending positions =
    Ok (omap (fun p => if bool_decide (pos_ticker p ∈ pending) then None
                       else signal_of p) positions).
Proof.
  induction positions as [|p rest IH]; cbn; [done|].
  destruct (bool_decide (pos_ticker p ∈ pending)); [done|].
  rewrite evaluate_exit_cases, IH. cbn. fold (signal_of p).
  by destruct (signal_of p).
Qed.

Lemma check_exits_value st read :
  (check_exits settings st read).1 =
    Ok (omap (fun p => if bool_decide (pos_ticker p ∈ _pending_exit_tickers st)
                       then None else signal_of p)
             (PositionMonitor.get_positions (position_monitor st) read).1).
Proof.
  unfold ExitHandler.check_exits.
  destruct (PositionMonitor.get_positions (position_monitor st) read)
    as [positions pm]. cbn [fst]. apply collect_signals_value.
Qed.

(** The exit signals of [check_exits] and the lists of
    [get_positions_at_target] and [get_positions_at_stop] agree on one
    position read: none of the three raises; a position that is not
    pending gets a signal with the reason [profit_target] when it is
    listed at target and one with the reason [stop_loss] when it is
    listed at stop but not at target, in both cases for the position's
    ticker and side, all of its contracts, at its current price; and
    every signal given is such a signal for such a position. *)
Theorem exit_signals_match_queries (st : state) (read : result (list Position)) :
  let positions := (PositionMonitor.get_positions (position_monitor st) read).1 in
  let signal (p : Position) (reason : string) :=
    {| sig_ticker := pos_ticker p; sig_side := pos_side p;
       sig_contracts := pos_contracts p; exit_price := current_price p;
       sig_reason := reason |} in
  exists at_target at_stop sigs,
    (get_positions_at_target settings st read).1 = Ok at_target
    /\ (get_positions_at_stop settings st read).1 = Ok at_stop
    /\ (check_exits settings st read).1 = Ok sigs
    /\ (forall p, p ∈ positions -> pos_ticker p ∉ _pending_exit_tickers st ->
          (p ∈ at_target -> signal p "profit_target" ∈ sigs)
          /\ (p ∈ at_stop -> p ∉ at_target -> signal p "stop_loss" ∈ sigs))
    /\ (forall sg, sg ∈ sigs ->
          exists p, p ∈ positions /\ (pos_ticker p ∉ _pending_exit_tickers st)
            /\ ((sg = signal p "profit_target" /\ p ∈ at_target)
                \/ (sg = signal p "stop_loss"
                    /\ p ∈ at_stop /\ p ∉ at_target))).
Proof.
  cbn zeta. eexists _, _, _.
  split; [apply at_target_value|]. split; [apply at_stop_value|].
  split; [apply check_exits_value|].
  set (positions := (PositionMonitor.get_positions (position_monitor st) read).1).
  split.
  - intros p Hp Hfree. split.
    + intros [Ht _]%list_elem_of_filter. apply list_elem_of_omap.
      exists p. split; [done|]. rewrite bool_decide_eq_false_2 by done.
      unfold signal_of. by rewrite Ht.
    + intros [Hs _]%list_elem_of_filter Hnt. apply list_elem_of_omap.
      exists p. split; [done|]. rewrite bool_decide_eq_false_2 by done.
      unfold signal_of. destruct (hits_target p) eqn:Ht.
      * exfalso. apply Hnt. by apply list_elem_of_filter.
      * by rewrite Hs.
  - intros sg (p & Hp & Hsg)%list_elem_of_omap. exists p. split; [done|].
    destruct (bool_decide (pos_ticker p ∈ _pending_exit_tickers st)) eqn:E; [done|].
    apply bool_decide_eq_false in E. split; [done|].
    unfold signal_of in Hsg. destruct (hits_target p) eqn:Ht.
    + left. injection Hsg as <-. split; [done|]. by apply list_elem_of_filter.
    + destruct (hits_stop p) eqn:Hs; [|done]. right. injection Hsg as <-.
      split; [done|]. split; [by apply list_elem_of_filter|].
      intros [Ht' _]%list_elem_of_filter. congruence.
Qed.

End Queries.

Lemma exit_signals_match_queries_witness :
  exists sigs,
    (check_exits default_settings init (Ok [ExitHandlerFacts.winner])).1 = Ok sigs
    /\ {| sig_ticker := "A"; sig_side := YES; sig_contracts := 10;
          exit_price := 90; sig_reason := "profit_target" |} ∈ sigs.
Proof.
  destruct (exit_signals_match_queries default_settings init
              (Ok [ExitHandlerFacts.winner]))
    as (at_target & at_stop & sigs & Ht & _ & Hs & Hfwd & _).
  exists sigs. split; [exact Hs|].
  destruct (Hfwd ExitHandlerFacts.winner) as [H _].
  - cbn. apply list_elem_of_here.
  - cbn. apply not_elem_of_empty.
  - apply H. vm_compute in Ht. injection Ht as <-. apply list_elem_of_here.
Defined.

End ExitQueriesFacts.

Module BotExitFacts.
Import ExitHandler ExitHandlerFacts Bot.

(** Only an accepted order changes anything: when [execute_exit]
    returns an order, the venue answered with that order, in an
    accepted status, and the order is now tracked under its id; in
    every other case (rejection, caught or propagated error) the handler
    and its collaborators are exactly as before. *)
Theorem execute_exit_all_or_nothing (st : ExitHandler.state) (sg : ExitSignal)
    (answer : result OrderResult) :
  let st' := (execute_exit st sg answer).2 in
  match (execute_exit st sg answer).1 with
  | Ok (Some r) =>
      answer = Ok r
      /\ OrderManager.accepted (status r) = true
      /\ order_manager st' = <[order_id r := r]> (order_manager st)
      /\ _pending_exit_tickers st' = {[ sig_ticker sg ]} ∪ _pending_exit_tickers st
  | _ => st' = st
  end.
Proof.
  cbn zeta. unfold execute_exit, OrderManager.place_exit_order.
  destruct st as [pm om pending log].
  destruct answer as [r|[]]; cbn; try done.
  destruct (OrderManager.accepted (status r)) eqn:E; by cbn.
Qed.

(** The tickers of the exits written to a ledger. *)
Definition exits_logged (log : list LogLine) : list string :=
  omap (fun line => match line with
                    | EXIT sg _ => Some (sig_ticker sg)
                    | ExitsFilled _ => None
                    end) log.

Lemma clean_up_forget_closed h read : clean_up h read = forget_closed h read.
Proof. reflexivity. Qed.

Section ExitPhase.

Variable settings : TradingSettings.
Variable dry_run : bool.
Variable now : nat -> Z.

Abbreviation exit_each := (exit_each now).
Abbreviation _check_exits := (_check_exits settings dry_run now).

(** What a stretch of the exit phase does to the two records of exits:
    the session gains exit records for exactly the tickers whose exits
    the ledger gains, in the same order. *)
Definition exits_recorded (st st' : Bot.state) : Prop :=
  exists added,
    session_trades st' = session_trades st ++ added
    /\ Forall (fun t => tr_action t = "exit") added
    /\ exits_logged (trade_log (exit_handler st'))
       = exits_logged (trade_log (exit_handler st)) ++ (tr_ticker <$> added).

Lemma exits_recorded_refl st : exits_recorded st st.
Proof. exists []. by rewrite !app_nil_r. Qed.

Lemma exits_recorded_trans st1 st2 st3 :
  exits_recorded st1 st2 -> exits_recorded st2 st3 -> exits_recorded st1 st3.
Proof.
  intros (a1 & Hs1 & Ha1 & Hl1) (a2 & Hs2 & Ha2 & Hl2). exists (a1 ++ a2).
  rewrite Hs2, Hs1, Hl2, Hl1, fmap_app, <- !app_assoc.
  split; [done|]. split; [by apply Forall_app | done].
Qed.

Lemma exit_each_spec signals answers : forall st k,
  consistent (exit_handler st) ->
  NoDup (sig_ticker <$> signals) ->
  Forall (fun sg => sig_ticker sg ∉ _pending_exit_tickers (exit_handler st)) signals ->
  consistent (exit_handler (exit_each st signals answers k).2)
  /\ exits_recorded st (exit_each st signals answers k).2.
Proof.
  induction signals as [|sg rest IH]; intros st k Hc Hnd Hall; cbn [Bot.exit_each].
  - split; [done | apply exits_recorded_refl].
  - apply NoDup_cons in Hnd as [Hhead Hnd].
    apply Forall_cons in Hall as [Hsg Hall].
    pose proof (execute_exit_consistent (exit_handler st) sg (answers k) Hc Hsg)
      as Hc1.
    pose proof (execute_exit_pending_bounds (exit_handler st) sg (answers k))
      as [_ Hup].
    pose proof (execute_exit_effect (exit_handler st) sg (answers k)) as [_ Heff].
    destruct (execute_exit (exit_handler st) sg (answers k)) as [[[r|]|e] h];
      cbn [fst snd] in *.
    + destruct Heff as [_ Hlog].
      match goal with
      | |- context [Bot.exit_each _ ?s rest answers (S k)] => set (st1 := s)
      end.
      assert (Hrest : Forall (fun sg' => sig_ticker sg'
                         ∉ _pending_exit_tickers (exit_handler st1)) rest).
      { rewrite Forall_forall in Hall. apply Forall_forall.
        intros sg' Hin Hpend. cbn in Hpend. apply Hup in Hpend.
        apply elem_of_union in Hpend as [Heq|Hold]; [|by apply (Hall sg' Hin)].
        apply elem_of_singleton in Heq. apply Hhead. rewrite <- Heq.
        by apply list_elem_of_fmap_2. }
      destruct (IH st1 (S k) Hc1 Hnd Hrest) as [Hc2 Hr2].
      split; [done|]. eapply exits_recorded_trans; [|exact Hr2].
      eexists [_]. cbn. split; [done|]. split; [by repeat constructor|].
      rewrite Hlog. unfold exits_logged. by rewrite omap_app.
    + destruct Heff as [Hp Hlog].
      match goal with
      | |- context [Bot.exit_each _ ?s rest answers (S k)] => set (st1 := s)
      end.
      assert (Hrest : Forall (fun sg' => sig_ticker sg'
                         ∉ _pending_exit_tickers (exit_handler st1)) rest).
      { cbn. by rewrite Hp. }
      destruct (IH st1 (S k) Hc1 Hnd Hrest) as [Hc2 Hr2].
      split; [done|]. eapply exits_recorded_trans; [|exact Hr2].
      exists []. cbn. rewrite !app_nil_r, Hlog. done.
    + destruct Heff as [_ Hlog]. cbn. split; [done|].
      exists []. cbn. rewrite !app_nil_r, Hlog. done.
Qed.

(** The bot's exit phase, run on a consistent handler with position
    reads that list each ticker once, leaves the handler consistent (so
    its ledger never shows a second exit for a ticker whose first exit
    is outstanding), whether or not a placement raised; and the exits
    it records for the daily statistics are exactly the exits it placed.
    In a dry run nothing changes. *)
Theorem check_exits_phase (st : Bot.state) (read1 read2 : result (list Position))
    (answers : nat -> result OrderResult) :
  consistent (exit_handler st) ->
  distinct_tickers read1 -> distinct_tickers read2 ->
  let st' := (_check_exits st read1 answers read2).2 in
  consistent (exit_handler st')
  /\ exits_spaced ∅ (trade_log (exit_handler st')) = true
  /\ exits_recorded st st'
  /\ (dry_run = true -> st' = st).
Proof.
  intros Hc H1 H2. cbn zeta.
  assert (Hmain : consistent (exit_handler (_check_exits st read1 answers read2).2)
                  /\ exits_recorded st (_check_exits st read1 answers read2).2).
  { unfold Bot._check_exits. destruct dry_run.
    { split; [done | apply exits_recorded_refl]. }
    pose proof (check_exits_consistent settings _ read1 Hc H1) as Hc1.
    pose proof (check_exits_signals settings (exit_handler st) read1) as Hs.
    pose proof (check_exits_state settings (exit_handler st) read1) as Hst.
    destruct (check_exits settings (exit_handler st) read1) as [[sigs|e] h];
      cbn [fst snd] in *.
    - destruct (Hs sigs Hc H1 eq_refl) as [Hnd Hall].
      set (st0 := {| exit_handler := h; session_trades := session_trades st |}).
      assert (Hall0 : Forall (fun sg => sig_ticker sg
                        ∉ _pending_exit_tickers (exit_handler st0)) sigs).
      { cbn. by rewrite Hst. }
      destruct (exit_each_spec sigs answers st0 0 Hc1 Hnd Hall0) as [Hc2 Hr2].
      assert (Hr0 : exits_recorded st st0).
      { exists []. cbn. rewrite !app_nil_r, Hst. done. }
      destruct (exit_each st0 sigs answers 0) as [[[]|e] st1]; cbn [fst snd] in *.
      + split.
        * cbn. rewrite clean_up_forget_closed. by apply forget_closed_consistent.
        * eapply exits_recorded_trans; [exact Hr0|].
          eapply exits_recorded_trans; [exact Hr2|].
          exists []. cbn. rewrite !app_nil_r. split; [done|]. split; [done|].
          rewrite clean_up_forget_closed. unfold forget_closed.
          destruct (PositionMonitor.get_positions _ read2) as [ps pm].
          case_bool_decide; cbn; [done|].
          unfold exits_logged. rewrite omap_app. cbn. by rewrite app_nil_r.
      + split; [done|]. by eapply exits_recorded_trans.
    - split; [done|]. exists []. cbn. rewrite !app_nil_r, Hst. done. }
  destruct Hmain as [Hc' Hr']. split; [done|]. split; [apply Hc'|].
  split; [done|].
  intros Hdry. unfold Bot._check_exits. by rewrite Hdry.
Qed.

End ExitPhase.

(** Two exit phases on the same winning position, the venue accepting
    the order: the exit is placed and recorded once. *)
Definition fresh_bot : Bot.state :=
  {| exit_handler := ExitHandler.init; session_trades := [] |}.

Definition after_two_phases : Bot.state :=
  let accept := fun _ : nat => Ok (resting "o-1") in
  let st1 := (Bot._check_exits default_settings false (fun _ => 0%Z) fresh_bot
                (Ok [winner]) accept (Ok [winner])).2 in
  (Bot._check_exits default_settings false (fun _ => 0%Z) st1
     (Ok [winner]) accept (Ok [winner])).2.

Example after_two_phases_records :
  tr_ticker <$> session_trades after_two_phases = [ "A" ]
  /\ exits_logged (trade_log (exit_handler after_two_phases)) = [ "A" ].
Proof. by vm_compute. Qed.

Lemma check_exits_phase_witness :
  exits_spaced ∅ (trade_log (exit_handler after_two_phases)) = true.
Proof.
  unfold after_two_phases.
  assert (Hd : distinct_tickers (Ok [winner]))
    by (cbn; repeat constructor; set_solver).
  pose proof (check_exits_phase default_settings false (fun _ => 0%Z) fresh_bot
                (Ok [winner]) (Ok [winner]) (fun _ => Ok (resting "o-1"))
                consistent_init Hd Hd) as (Hc1 & _).
  pose proof (check_exits_phase default_settings false (fun _ => 0%Z) _
                (Ok [winner]) (Ok [winner]) (fun _ => Ok (resting "o-1"))
                Hc1 Hd Hd) as (_ & H & _).
  exact H.
Defined.

End BotExitFacts.

(** ** Order manager: entries, refresh, repeated sweeps
    (src/executor/order_manager.py) *)

(** An order as [client.get_orders] lists it: a dictionary whose
    ["order_id"] and ["status"] entries may be missing. *)
Record RawOrder := mkRawOrder {
  raw_order_id : option string;
  raw_status : option string
}.

Module OrderTracking.

(** [answer] is what [client.place_order(..., action="buy", ...)] did. *)
Definition place_entry_order (_pending_orders : gmap string OrderResult)
    (answer : result OrderResult)
    : result (option OrderResult) * gmap string OrderResult :=
  match answer with
  | Ok r =>
      if OrderManager.accepted (status r)
      then (Ok (Some r), <[order_id r := r]> _pending_orders)
      else (Ok None, _pending_orders)
  | Raise InsufficientFundsError => (Ok None, _pending_orders)
  | Raise MarketClosedError => (Ok None, _pending_orders)
  | Raise OrderFailedError => (Ok None, _pending_orders)
  | Raise e => (Raise e, _pending_orders)
  end.

(** [OrderStatus(s)]: the member with that value, or [ValueError]. *)
Definition parse_status (s : string) : option OrderStatus :=
  if String.eqb s "pending" then Some PENDING
  else if String.eqb s "open" then Some OPEN
  else if String.eqb s "resting" then Some RESTING
  else if String.eqb s "executed" then Some EXECUTED
  else if String.eqb s "filled" then Some FILLED
  else if String.eqb s "partially_filled" then Some PARTIALLY_FILLED
  else if String.eqb s "cancelled" then Some CANCELLED
  else if String.eqb s "failed" then Some FAILED
  else None.

Definition with_status (o : OrderResult) (s : OrderStatus) : OrderResult :=
  {| order_id := order_id o; status := s;
     filled_contracts := filled_contracts o;
     remaining_contracts := remaining_contracts o;
     average_price := average_price o; created_at := created_at o |}.

(** The first listed order whose ["order_id"] is [oid]. *)
Definition find_order (oid : string) (orders : list RawOrder) : option RawOrder :=
  List.find (fun order => bool_decide (raw_order_id order = Some oid)) orders.

(** [answer] is what [client.get_orders(status="open")] did. Every
    exception raised inside is caught and turned into [None]. *)
Definition refresh_order_status (_pending_orders : gmap string OrderResult)
    (oid : string) (answer : result (list RawOrder))
    : option OrderStatus * gmap string OrderResult :=
  match answer with
  | Raise _ => (None, _pending_orders)
  | Ok orders =>
      match find_order oid orders with
      | Some order =>
          match parse_status (default "unknown" (raw_status order)) with
          | None => (None, _pending_orders)
          | Some s =>
              (Some s,
               match _pending_orders !! oid with
               | Some o => <[oid := with_status o s]> _pending_orders
               | None => _pending_orders
               end)
          end
      | None => (None, delete oid _pending_orders)
      end
  end.

(** One sweep of [cancel_stale_orders] made at time [now], the venue
    answering the cancellations as [cancel_order] tells. *)
Record Sweep := mkSweepAt {
  sweep_now : Z;
  sweep_cancel : string -> bool
}.

Definition after_sweeps (settings : TradingSettings)
    (orders : gmap string OrderResult) (sweeps : list Sweep)
    : gmap string OrderResult :=
  foldl (fun tracked sw =>
           OrderManager.tracked
             (OrderManager.cancel_stale_orders settings (sweep_now sw)
                (sweep_cancel sw) tracked))
        orders sweeps.

End OrderTracking.

Module OrderTrackingFacts.
Import OrderManager OrderTracking OrderManagerFacts.

Section Sweeps.

Variable settings : TradingSettings.

Lemma sweep_requested now cancel_order (orders : gmap string OrderResult) oid :
  oid ∈ requested (cancel_stale_orders settings now cancel_order orders)
  <-> exists o, orders !! oid = Some o /\ stale settings now o = true.
Proof.
  unfold OrderManager.cancel_stale_orders.
  destruct (sweep_lists settings now cancel_order (map_to_list orders)
              {| cancelled := []; tracked := orders; requested := [] |})
    as [-> _].
  cbn [requested app]. by rewrite mem_filter_items.
Qed.

Lemma sweep_cancelled now cancel_order (orders : gmap string OrderResult) oid :
  oid ∈ cancelled (cancel_stale_orders settings now cancel_order orders)
  <-> exists o, orders !! oid = Some o /\ stale settings now o = true
                /\ cancel_order oid = true.
Proof.
  unfold OrderManager.cancel_stale_orders.
  destruct (sweep_lists settings now cancel_order (map_to_list orders)
              {| cancelled := []; tracked := orders; requested := [] |})
    as [_ ->].
  cbn [cancelled app]. rewrite mem_filter_items. unfold is_cancelled. cbn. done.
Qed.

Lemma sweep_tracked_lookup now cancel_order (orders : gmap string OrderResult) oid :
  tracked (cancel_stale_orders settings now cancel_order orders) !! oid
  = match orders !! oid with
    | Some o => if stale settings now o && cancel_order oid then None else Some o
    | None => None
    end.
Proof.
  unfold OrderManager.cancel_stale_orders. rewrite sweep_tracked. cbn [tracked].
  destruct (decide _) as [Hin|Hout].
  - apply mem_filter_items in Hin as (o & -> & Hs & Hc). cbn in Hs, Hc.
    by rewrite Hs, Hc.
  - destruct (orders !! oid) as [o|] eqn:Ho; [|done].
    destruct (stale settings now o && cancel_order oid) eqn:E; [|done].
    exfalso. apply Hout, mem_filter_items. exists o.
    apply andb_true_iff in E as [Hs Hc]. done.
Qed.

(** A second sweep made at the same time asks the venue to cancel
    exactly the orders whose cancellation it asked for and did not get
    in the first sweep; when the first sweep got every cancellation it
    asked for, the second asks for none. *)
Theorem second_sweep_retries_failures (now : Z) (cancel1 cancel2 : string -> bool)
    (orders : gmap string OrderResult) :
  let first := cancel_stale_orders settings now cancel1 orders in
  let second := cancel_stale_orders settings now cancel2 (tracked first) in
  (forall oid, oid ∈ requested second <->
     oid ∈ requested first /\ oid ∉ cancelled first)
  /\ ((forall oid, oid ∈ requested first -> cancel1 oid = true) ->
        requested second = [] /\ tracked second = tracked first).
Proof.
  cbn zeta.
  assert (Hiff : forall oid,
    oid ∈ requested (cancel_stale_orders settings now cancel2
                       (tracked (cancel_stale_orders settings now cancel1 orders)))
    <-> oid ∈ requested (cancel_stale_orders settings now cancel1 orders)
        /\ oid ∉ cancelled (cancel_stale_orders settings now cancel1 orders)).
  { intros oid. rewrite !sweep_requested, sweep_cancelled.
    setoid_rewrite sweep_tracked_lookup. split.
    - intros (o & Ho & Hs). destruct (orders !! oid) as [o'|] eqn:Ho'; [|done].
      destruct (stale settings now o' && cancel1 oid) eqn:E; [done|].
      injection Ho as ->. split; [eauto|].
      intros (o2 & [= <-] & _ & Hc). by rewrite Hs, Hc in E.
    - intros [(o & Ho & Hs) Hnot]. exists o. split; [|done]. rewrite Ho.
      destruct (cancel1 oid) eqn:Hc; [|by rewrite andb_false_r].
      exfalso. apply Hnot. eauto. }
  split; [exact Hiff|]. intros Hall.
  assert (Hnone : requested (cancel_stale_orders settings now cancel2
                    (tracked (cancel_stale_orders settings now cancel1 orders))) = []).
  { destruct (requested (cancel_stale_orders settings now cancel2 _))
      as [|oid l] eqn:E; [done|]. exfalso.
    assert (Hin : oid ∈ oid :: l) by apply list_elem_of_here.
    apply Hiff in Hin as [Hreq Hnot]. apply Hnot.
    apply sweep_cancelled. apply sweep_requested in Hreq as (o & Ho & Hs).
    exists o. split; [done|]. split; [done|].
    apply Hall. apply sweep_requested. eauto. }
  split; [done|]. apply map_eq. intros oid.
  rewrite (sweep_tracked_lookup now cancel2).
  destruct (tracked _ !! oid) as [o|] eqn:Ho; [|done].
  destruct (stale settings now o) eqn:Hs; [|done].
  exfalso. assert (Hin : oid ∈ @nil string); [|by apply elem_of_nil in Hin].
  rewrite <- Hnone. apply sweep_requested. eauto.
Qed.

(** An order that is tracked in a status other than [OPEN] (resting,
    filled, executed, ...) is never touched by [cancel_stale_orders]:
    after any number of sweeps, at any times and whatever the venue
    answers, it is tracked with the same record. In particular an exit
    order the venue accepted as resting is never timed out. *)
Theorem sweeps_keep_non_open (orders : gmap string OrderResult)
    (sweeps : list Sweep) (oid : string) (o : OrderResult) :
  orders !! oid = Some o -> status o <> OPEN ->
  after_sweeps settings orders sweeps !! oid = Some o.
Proof.
  intros Ho Hst. revert orders Ho. unfold after_sweeps.
  induction sweeps as [|sw rest IH]; intros orders Ho; cbn; [done|].
  apply IH. rewrite sweep_tracked_lookup, Ho.
  unfold stale. by rewrite bool_decide_eq_false_2.
Qed.

End Sweeps.

Lemma second_sweep_retries_failures_witness :
  requested (cancel_stale_orders default_settings 1000000000 (fun _ => true)
               (tracked (cancel_stale_orders default_settings 1000000000
                           (fun _ => true) book))) = [].
Proof.
  apply (second_sweep_retries_failures default_settings 1000000000
           (fun _ => true) (fun _ => true) book).
  done.
Defined.

Lemma sweeps_keep_non_open_witness :
  after_sweeps default_settings
    (place_exit_order book (Ok (order "exit-1" RESTING 100000000))).2
    [ {| sweep_now := 1000000000; sweep_cancel := fun _ => true |};
      {| sweep_now := 9000000000; sweep_cancel := fun _ => true |} ]
    !! "exit-1" = Some (order "exit-1" RESTING 100000000).
Proof.
  apply sweeps_keep_non_open; [by vm_compute | discriminate].
Defined.

End OrderTrackingFacts.

Module OrderEntryFacts.
Import OrderManager OrderTracking.

(** [place_entry_order] tracks an order exactly when the venue returned
    it in an accepted status, under its id, and otherwise leaves the
    tracked orders as they were. It differs from [place_exit_order] in
    one case only: an insufficient-funds error is turned into "no
    order" for an entry and propagates for an exit. *)
Theorem place_entry_order_all_or_nothing (orders : gmap string OrderResult)
    (answer : result OrderResult) :
  match (place_entry_order orders answer).1 with
  | Ok (Some r) =>
      answer = Ok r /\ accepted (status r) = true
      /\ (place_entry_order orders answer).2 = <[order_id r := r]> orders
  | _ => (place_entry_order orders answer).2 = orders
  end
  /\ (answer <> Raise InsufficientFundsError ->
        place_entry_order orders answer = place_exit_order orders answer)
  /\ (answer = Raise InsufficientFundsError ->
        (place_entry_order orders answer).1 = Ok None
        /\ (place_exit_order orders answer).1 = Raise InsufficientFundsError).
Proof.
  unfold place_entry_order, place_exit_order.
  destruct answer as [r|e].
  - destruct (accepted (status r)) eqn:E; cbn; repeat split; congruence.
  - destruct e; cbn; repeat split; congruence.
Qed.

Lemma place_entry_order_all_or_nothing_witness :
  (place_entry_order ∅ (Raise InsufficientFundsError)).1 = Ok None
  /\ (place_exit_order ∅ (Raise InsufficientFundsError)).1
     = Raise InsufficientFundsError.
Proof.
  apply (place_entry_order_all_or_nothing ∅ (Raise InsufficientFundsError)).
  reflexivity.
Defined.

Lemma find_order_none oid orders :
  find_order oid orders = None
  <-> Forall (fun order => raw_order_id order <> Some oid) orders.
Proof.
  unfold find_order. induction orders as [|order rest IH]; cbn.
  - split; [constructor | done].
  - case_bool_decide as E.
    + split; [done|]. intros [H _]%Forall_cons. done.
    + rewrite IH. split; [by constructor | by intros [_ H]%Forall_cons].
Qed.

(** [refresh_order_status] on the order [oid]: no other tracked order is
    affected and no order starts being tracked. If the read of the open
    orders fails, nothing changes. If no listed order carries the id,
    the order is dropped from tracking. If one does, the first such
    order's status is returned and, when the order is tracked, stored in
    its record; but a status text that is not a known status changes
    nothing and returns none. *)
Theorem refresh_order_status_outcome (orders : gmap string OrderResult)
    (oid : string) (answer : result (list RawOrder)) :
  let r := (refresh_order_status orders oid answer).1 in
  let orders' := (refresh_order_status orders oid answer).2 in
  (forall other, other <> oid -> orders' !! other = orders !! other)
  /\ (forall other, is_Some (orders' !! other) -> is_Some (orders !! other))
  /\ (forall e, answer = Raise e -> r = None /\ orders' = orders)
  /\ (forall listed, answer = Ok listed ->
        Forall (fun order => raw_order_id order <> Some oid) listed ->
        r = None /\ orders' !! oid = None)
  /\ (forall listed order, answer = Ok listed ->
        find_order oid listed = Some order ->
        match parse_status (default "unknown" (raw_status order)) with
        | Some s => r = Some s
                    /\ orders' !! oid = (fun o => with_status o s) <$> orders !! oid
        | None => r = None /\ orders' = orders
        end).
Proof.
  cbn zeta. unfold refresh_order_status.
  split; [|split; [|split; [|split]]].
  - intros other Hne. destruct answer as [listed|e]; [|done].
    destruct (find_order oid listed) as [order|]; cbn.
    + destruct (parse_status _); [|done]. cbn.
      destruct (orders !! oid); [|done]. by rewrite lookup_insert_ne.
    + by rewrite lookup_delete_ne.
  - intros other. destruct answer as [listed|e]; [|done].
    destruct (find_order oid listed) as [order|]; cbn.
    + destruct (parse_status _); [|done]. cbn.
      destruct (orders !! oid) as [tracked_o|] eqn:Ho; [|done].
      destruct (decide (oid = other)) as [<-|Hne].
      * by rewrite Ho.
      * by rewrite lookup_insert_ne.
    + destruct (decide (oid = other)) as [<-|Hne].
      * rewrite lookup_delete_eq. by intros [? ?].
      * by rewrite lookup_delete_ne.
  - by intros e ->.
  - intros listed -> Hnone. apply find_order_none in Hnone. rewrite Hnone. cbn.
    by rewrite lookup_delete_eq.
  - intros listed order -> Hfind. rewrite Hfind.
    destruct (parse_status _) as [s|]; [|done]. cbn. split; [done|].
    destruct (orders !! oid) as [tracked_o|] eqn:Ho; cbn.
    + by rewrite lookup_insert_eq.
    + done.
Qed.

Lemma refresh_order_status_outcome_witness :
  (refresh_order_status OrderManagerFacts.book "old"
     (Ok [ {| raw_order_id := Some "young"; raw_status := Some "resting" |} ])).2
    !! "old" = None.
Proof.
  pose proof (refresh_order_status_outcome OrderManagerFacts.book "old"
           (Ok [ {| raw_order_id := Some "young"; raw_status := Some "resting" |} ]))
    as H.
  cbn zeta in H. destruct H as (_ & _ & _ & H & _).
  apply (H _ eq_refl). repeat constructor. discriminate.
Defined.

End OrderEntryFacts.

(** ** FIFO matching in general (src/core/bot.py) *)

Module FifoFacts.
Import DailyStats.

(** The contracts and the cost held in a queue of open lots. *)
Definition lots (queue : list Lot) : Z :=
  foldr (fun l acc => (lot_remaining l + acc)%Z) 0%Z queue.

Definition lots_cost (queue : list Lot) : Q :=
  foldr (fun l acc => (lot_price l * inject_Z (lot_remaining l) + acc)%Q) 0%Q queue.

Definition nonneg_lots (queue : list Lot) : Prop :=
  Forall (fun l => (0 <= lot_remaining l)%Z) queue.

(** One exit matched against a queue moves contracts and cost from the
    queue to the match, losing none: what is matched plus what is left
    of the exit is the exit; what is matched plus what stays queued is
    what was queued, in contracts and in cost. *)
Theorem fifo_match_conserves (queue : list Lot) (exit_contracts : Z)
    (cost : Q) (contracts : Z) :
  let m := fifo_match queue exit_contracts cost contracts in
  (matched_contracts m + exit_left m = contracts + exit_contracts)%Z
  /\ (lots (queue_left m) + matched_contracts m = lots queue + contracts)%Z
  /\ (lots_cost (queue_left m) + matched_cost m == lots_cost queue + cost)%Q.
Proof.
  cbn zeta. revert exit_contracts cost contracts.
  induction queue as [|entry rest IH]; intros exit_contracts cost contracts.
  - cbn. split; [lia|]. split; [lia|]. reflexivity.
  - cbn [fifo_match].
    destruct (0 <? exit_contracts)%Z.
    + set (take := Z.min exit_contracts (lot_remaining entry)).
      destruct (lot_remaining entry - take =? 0)%Z eqn:Hrem.
      * apply Z.eqb_eq in Hrem.
        destruct (IH (exit_contracts - take)%Z
                     (cost + lot_price entry * inject_Z take)%Q
                     (contracts + take)%Z) as (H1 & H2 & H3).
        split; [lia|]. split; [cbn [lots foldr]; fold (lots rest); lia|].
        rewrite H3. cbn [lots_cost foldr]. fold (lots_cost rest).
        replace (lot_remaining entry) with take by lia. ring.
      * cbn. fold (lots rest). fold (lots_cost rest).
        split; [lia|]. split; [lia|].
        unfold Z.sub. rewrite inject_Z_plus, inject_Z_opp. ring.
    + cbn. fold (lots rest). fold (lots_cost rest).
      split; [lia|]. split; [lia|]. ring.
Qed.

(** With no negative lot in the queue, an exit never matches a negative
    number of contracts, never more than it sells when it sells a
    non-negative number, never more than the queue holds, and leaves no
    negative lot. *)
Theorem fifo_match_bounds (queue : list Lot) (exit_contracts : Z) (cost : Q) :
  nonneg_lots queue ->
  let m := fifo_match queue exit_contracts cost 0 in
  (0 <= matched_contracts m)%Z
  /\ (matched_contracts m <= lots queue)%Z
  /\ ((0 <= exit_contracts)%Z ->
        (matched_contracts m <= exit_contracts)%Z /\ (0 <= exit_left m)%Z)
  /\ nonneg_lots (queue_left m).
Proof.
  cbn zeta. intros Hq.
  assert (Hgen : forall contracts exit_c cost',
    let m := fifo_match queue exit_c cost' contracts in
    (contracts <= matched_contracts m)%Z
    /\ ((0 <= exit_c)%Z -> (0 <= exit_left m)%Z)
    /\ nonneg_lots (queue_left m)).
  { induction Hq as [|entry rest Hentry Hrest IH]; intros contracts exit_c cost'.
    - cbn. split; [lia|]. split; [done | constructor].
    - cbn [fifo_match]. destruct (0 <? exit_c)%Z eqn:Hpos.
      + apply Z.ltb_lt in Hpos.
        destruct (lot_remaining entry - Z.min exit_c (lot_remaining entry) =? 0)%Z
          eqn:Hrem.
        * destruct (IH (contracts + Z.min exit_c (lot_remaining entry))%Z
                       (exit_c - Z.min exit_c (lot_remaining entry))%Z
                       (cost' + lot_price entry
                                * inject_Z (Z.min exit_c (lot_remaining entry)))%Q)
            as (H1 & H2 & H3).
          split; [lia|]. split; [|done]. intros _. apply H2. lia.
        * cbn. split; [lia|]. split; [lia|].
          constructor; [cbn; lia | done].
      + cbn. split; [lia|]. split; [done | by constructor]. }
  destruct (Hgen 0%Z exit_contracts cost) as (H1 & H2 & H3).
  destruct (fifo_match_conserves queue exit_contracts cost 0) as (C1 & C2 & _).
  cbn zeta in *.
  assert (Hleft : (0 <= lots (queue_left (fifo_match queue exit_contracts cost 0)))%Z).
  { clear -H3. induction H3 as [|l r Hl Hr IH]; cbn; [done|]. fold (lots r). lia. }
  split; [done|]. split; [lia|]. split; [|done].
  intros Hex. split; [|by apply H2]. specialize (H2 Hex). lia.
Qed.

Definition two_lots : list Lot :=
  [ {| lot_price := 40; lot_remaining := 10; lot_side := "yes" |};
    {| lot_price := 50; lot_remaining := 5; lot_side := "yes" |} ].

Lemma fifo_match_bounds_witness :
  (matched_contracts (fifo_match two_lots 40 0 0) <= lots two_lots)%Z
  /\ (0 <= exit_left (fifo_match two_lots 40 0 0))%Z.
Proof.
  destruct (fifo_match_bounds two_lots 40 0) as (_ & H1 & H2 & _).
  - unfold two_lots. repeat constructor; cbn; lia.
  - split; [exact H1|]. apply H2. lia.
Defined.

(** An exit larger than everything queued matches all of it, and the
    rest of the exit (25 here) is matched against nothing. *)
Example oversized_exit :
  matched_contracts (fifo_match two_lots 40 0 0) = 15%Z
  /\ exit_left (fifo_match two_lots 40 0 0) = 25%Z
  /\ queue_left (fifo_match two_lots 40 0 0) = [].
Proof. by vm_compute. Qed.

End FifoFacts.

Module ReplayFacts.
Import DailyStats FifoFacts.

(** Contracts entered on a ticker by a list of trades, contracts closed
    on it by the round trips of a ledger, and contracts still open on it
    in the ledger's queues. *)
Definition entered (t : string) (trades : list TradeRecord) : Z :=
  foldr (fun tr acc =>
           if String.eqb (tr_action tr) "entry" && String.eqb (tr_ticker tr) t
           then (tr_contracts tr + acc)%Z else acc) 0%Z trades.

Definition closed (t : string) (rts : list RoundTrip) : Z :=
  foldr (fun rt acc =>
           if String.eqb (rt_ticker rt) t then (rt_contracts rt + acc)%Z else acc)
        0%Z rts.

Definition still_open (t : string) (acc : ledger) : Z :=
  lots (default [] (entry_queues acc !! t)).

Definition sane_entries (trades : list TradeRecord) : Prop :=
  Forall (fun tr => tr_action tr = "entry" -> (0 <= tr_contracts tr)%Z) trades.

Definition sane_ledger (acc : ledger) : Prop :=
  forall t queue, entry_queues acc !! t = Some queue -> nonneg_lots queue.

Lemma closed_app t l1 l2 : closed t (l1 ++ l2) = (closed t l1 + closed t l2)%Z.
Proof.
  induction l1 as [|rt l1 IH]; cbn; [done|].
  fold (closed t (l1 ++ l2)). fold (closed t l1).
  destruct (String.eqb (rt_ticker rt) t); lia.
Qed.

Lemma lots_app q1 q2 : lots (q1 ++ q2) = (lots q1 + lots q2)%Z.
Proof.
  induction q1 as [|l q1 IH]; cbn; [done|].
  fold (lots (q1 ++ q2)). fold (lots q1). lia.
Qed.

Lemma replay_trade_step (acc : ledger) (tr : TradeRecord) (t : string) :
  sane_ledger acc ->
  (tr_action tr = "entry" -> (0 <= tr_contracts tr)%Z) ->
  sane_ledger (replay_trade acc tr)
  /\ (still_open t (replay_trade acc tr) + closed t (round_trips (replay_trade acc tr))
      = still_open t acc + closed t (round_trips acc) + entered t [tr])%Z.
Proof.
  intros Hsane Htr. unfold replay_trade, still_open, entered, sane_ledger.
  cbn [foldr].
  destruct (String.eqb (tr_action tr) "entry") eqn:Hentry.
  - apply String.eqb_eq in Hentry. specialize (Htr Hentry).
    cbn [entry_queues round_trips andb]. split.
    + intros t' queue. destruct (decide (tr_ticker tr = t')) as [<-|Hne].
      * rewrite lookup_insert_eq. intros [= <-]. apply Forall_app. split.
        -- destruct (entry_queues acc !! tr_ticker tr) as [q|] eqn:Hq; cbn.
           ++ by eapply Hsane.
           ++ constructor.
        -- by repeat constructor.
      * rewrite lookup_insert_ne by done. apply Hsane.
    + destruct (String.eqb (tr_ticker tr) t) eqn:Ht.
      * apply String.eqb_eq in Ht. subst t. rewrite lookup_insert_eq. cbn.
        rewrite lots_app. cbn. lia.
      * apply String.eqb_neq in Ht. rewrite lookup_insert_ne by done. lia.
  - cbn [andb]. destruct (String.eqb (tr_action tr) "exit"); [|split; [done | lia]].
    set (queue := default [] (entry_queues acc !! tr_ticker tr)).
    assert (Hq : nonneg_lots queue).
    { unfold queue. destruct (entry_queues acc !! tr_ticker tr) as [q|] eqn:E; cbn.
      - by eapply Hsane.
      - constructor. }
    destruct (fifo_match_bounds queue (tr_contracts tr) 0 Hq) as (Hm0 & _ & _ & Hleft).
    destruct (fifo_match_conserves queue (tr_contracts tr) 0 0) as (_ & Hcons & _).
    cbn zeta in *.
    set (m := fifo_match queue (tr_contracts tr) 0 0) in *.
    set (queues := match entry_queues acc !! tr_ticker tr with
                   | Some _ => <[tr_ticker tr := queue_left m]> (entry_queues acc)
                   | None => entry_queues acc
                   end).
    assert (Hqs : (forall t' q, queues !! t' = Some q -> nonneg_lots q)
                  /\ (lots (default [] (queues !! t))
                      + (if String.eqb (tr_ticker tr) t then matched_contracts m
                         else 0)
                      = lots (default [] (entry_queues acc !! t)))%Z).
    { unfold queues. destruct (entry_queues acc !! tr_ticker tr) as [q|] eqn:E.
      - change (default [] (Some q)) with q in *. split.
        + intros t' q'. destruct (decide (tr_ticker tr = t')) as [<-|Hne].
          * rewrite lookup_insert_eq. by intros [= <-].
          * rewrite lookup_insert_ne by done. apply Hsane.
        + destruct (String.eqb (tr_ticker tr) t) eqn:Ht.
          * apply String.eqb_eq in Ht. subst t. rewrite lookup_insert_eq, E.
            change (default [] (Some (queue_left m))) with (queue_left m).
            change (default [] (Some q)) with q. subst queue. lia.
          * apply String.eqb_neq in Ht. rewrite lookup_insert_ne by done. lia.
      - change (default [] None) with (@nil Lot) in *. split; [apply Hsane|].
        destruct (String.eqb (tr_ticker tr) t) eqn:Ht; [|lia].
        apply String.eqb_eq in Ht. subst t. rewrite E.
        change (default [] None) with (@nil Lot).
        assert (Hnil : queue_left m = []) by (by subst m queue).
        rewrite Hnil in Hcons. subst queue. cbn in Hcons. cbn. lia. }
    destruct Hqs as [Hqs1 Hqs2].
    destruct (0 <? matched_contracts m)%Z eqn:Hpos; cbn [entry_queues round_trips].
    + split; [done|]. rewrite closed_app. cbn.
      destruct (String.eqb (tr_ticker tr) t); lia.
    + split; [done|]. apply Z.ltb_ge in Hpos.
      destruct (String.eqb (tr_ticker tr) t); lia.
Qed.

Lemma replay_fold_conserves trades : forall acc t,
  sane_ledger acc -> sane_entries trades ->
  (still_open t (foldl replay_trade acc trades)
   + closed t (round_trips (foldl replay_trade acc trades))
   = still_open t acc + closed t (round_trips acc) + entered t trades)%Z.
Proof.
  induction trades as [|tr rest IH]; intros acc t Hacc Htr; cbn [foldl].
  - cbn. lia.
  - apply Forall_cons in Htr as [Htr Hrest].
    destruct (replay_trade_step acc tr t Hacc Htr) as [Hsane Hstep].
    rewrite (IH _ t Hsane Hrest), Hstep. cbn.
    fold (entered t rest).
    destruct (String.eqb (tr_action tr) "entry" && String.eqb (tr_ticker tr) t); lia.
Qed.

Lemma entered_perm t l1 l2 : l1 ≡ₚ l2 -> entered t l1 = entered t l2.
Proof.
  induction 1 as [|x l l' _ IH|x y l|l l' l'' _ IH1 _ IH2]; cbn; [done| | |congruence].
  - fold (entered t l). fold (entered t l'). by rewrite IH.
  - fold (entered t l).
    destruct (String.eqb (tr_action x) "entry" && String.eqb (tr_ticker x) t);
      destruct (String.eqb (tr_action y) "entry" && String.eqb (tr_ticker y) t);
      lia.
Qed.

(** Replaying a list of trades whose timestamps can be ordered, in
    whatever order they are listed, loses and invents no contract:
    for every ticker, the contracts entered are the contracts closed by
    its round trips plus the contracts left open in its queue, provided
    no entry is for a negative number of contracts. *)
Lemma replay_conserves (trades : list TradeRecord) (t : string) :
  sane_entries trades ->
  (entered t trades
   = closed t (_compute_round_trips trades) + still_open t (replay trades))%Z.
Proof.
  intros Hsane. unfold _compute_round_trips, replay.
  pose proof (SortingFacts.stable_sort_perm by_timestamp trades) as Hperm.
  assert (Hsorted : sane_entries (Sorting.stable_sort by_timestamp trades)).
  { unfold sane_entries. by rewrite Hperm. }
  assert (Hempty : sane_ledger {| entry_queues := ∅; round_trips := [] |}).
  { intros t' q. cbn. by rewrite lookup_empty. }
  pose proof (replay_fold_conserves _ {| entry_queues := ∅; round_trips := [] |} t
                Hempty Hsorted) as H.
  rewrite (entered_perm t _ _ Hperm) in H.
  assert (H0 : still_open t {| entry_queues := ∅; round_trips := [] |} = 0%Z).
  { unfold still_open. cbn [entry_queues]. by rewrite lookup_empty. }
  rewrite H0 in H. cbn [round_trips closed foldr] in H. lia.
Qed.

End ReplayFacts.

(** ** The day's trades and their timestamps (src/core/bot.py) *)

Module DailyLog.

(** A trade record with what its [timestamp] is. The instant is the
    record's; [aware] tells whether the [datetime] carries a time zone:
    the ones [_load_today_trades] parses with [strptime] carry none,
    the ones a new [TradeRecord] takes from [datetime.now(timezone.utc)]
    carry one. *)
Record Stamped := mkStamped {
  trade : TradeRecord;
  aware : bool
}.

(** [DailyStats]. *)
Record state := mkState {
  prior_trades : list Stamped;
  session_trades : list Stamped
}.

Definition init : state := {| prior_trades := []; session_trades := [] |}.

Definition all_trades (st : state) : list Stamped :=
  prior_trades st ++ session_trades st.

(** [load_prior_trades]; [parsed] are the records [_load_today_trades]
    built from the lines of the log. *)
Definition load_prior_trades (st : state) (parsed : list TradeRecord) : state :=
  {| prior_trades := (fun t => {| trade := t; aware := false |}) <$> parsed;
     session_trades := session_trades st |}.

(** [record_entry] and [record_exit]; [now] is the instant of
    [datetime.now(timezone.utc)]. *)
Definition record_entry (st : state) (ticker side : string) (contracts : Z)
    (price : Q) (now : Z) : state :=
  {| prior_trades := prior_trades st;
     session_trades :=
       session_trades st ++
       [{| trade := {| tr_ticker := ticker; tr_side := side; tr_action := "entry";
                       tr_contracts := contracts; tr_price := price;
                       tr_timestamp := now |};
           aware := true |}] |}.

Definition record_exit (st : state) (ticker side : string) (contracts : Z)
    (price : Q) (now : Z) : state :=
  {| prior_trades := prior_trades st;
     session_trades :=
       session_trades st ++
       [{| trade := {| tr_ticker := ticker; tr_side := side; tr_action := "exit";
                       tr_contracts := contracts; tr_price := price;
                       tr_timestamp := now |};
           aware := true |}] |}.

(** What is done to a [DailyStats] between its creation and a summary. *)
Inductive Op :=
| Load (parsed : list TradeRecord)
| RecordEntry (ticker side : string) (contracts : Z) (price : Q) (now : Z)
| RecordExit (ticker side : string) (contracts : Z) (price : Q) (now : Z).

Definition step (st : state) (op : Op) : state :=
  match op with
  | Load parsed => load_prior_trades st parsed
  | RecordEntry ticker side contracts price now =>
      record_entry st ticker side contracts price now
  | RecordExit ticker side contracts price now =>
      record_exit st ticker side contracts price now
  end.

Definition run (ops : list Op) : state := foldl step init ops.

(** The result of a call that may raise [TypeError]. *)
Inductive outcome (A : Type) :=
| Returned (a : A)
| TypeError.
Arguments Returned {A} a.
Arguments TypeError {A}.

(** All timestamps carry a time zone, or none does. *)
Definition one_kind (l : list Stamped) : bool :=
  forallb aware l || forallb (fun s => negb (aware s)) l.

(** [sorted(all_trades, key=lambda x: x.timestamp)]. Ordering a
    [datetime] that carries a time zone with one that carries none
    raises [TypeError], and a list that holds both kinds cannot be
    sorted without ordering two such; timestamps of one kind are
    ordered by their instants. *)
Definition sorted_by_timestamp (l : list Stamped) : outcome (list TradeRecord) :=
  if one_kind l
  then Returned (Sorting.stable_sort DailyStats.by_timestamp (trade <$> l))
  else TypeError.

(** [_compute_round_trips] with the entry queues it ends with. *)
Definition replay (st : state) : outcome DailyStats.ledger :=
  match sorted_by_timestamp (all_trades st) with
  | Returned sorted =>
      Returned (foldl DailyStats.replay_trade
                  {| DailyStats.entry_queues := ∅; DailyStats.round_trips := [] |}
                  sorted)
  | TypeError => TypeError
  end.

Definition _compute_round_trips (st : state) : outcome (list RoundTrip) :=
  match replay st with
  | Returned acc => Returned (DailyStats.round_trips acc)
  | TypeError => TypeError
  end.

End DailyLog.

Module DailyLogFacts.
Import DailyLog.

(** What the operations keep true: prior trades carry no time zone,
    session trades carry one. *)
Definition kinds (st : state) : Prop :=
  Forall (fun s => aware s = false) (prior_trades st)
  /\ Forall (fun s => aware s = true) (session_trades st).

Lemma step_kinds st op : kinds st -> kinds (step st op).
Proof.
  intros [Hp Hs]. destruct op; cbn; split; cbn; try done.
  - apply Forall_fmap. by apply Forall_true.
  - apply Forall_app. split; [done|]. by repeat constructor.
  - apply Forall_app. split; [done|]. by repeat constructor.
Qed.

Lemma run_kinds ops : kinds (run ops).
Proof.
  unfold run. assert (H : kinds init) by (split; constructor).
  revert H. generalize init. induction ops as [|op rest IH]; intros st H; [done|].
  cbn. apply IH. by apply step_kinds.
Qed.

Lemma forallb_aware_naive l :
  Forall (fun s => aware s = false) l -> forallb aware l = true -> l = [].
Proof.
  destruct l as [|s l]; [done|]. intros [Hs _]%Forall_cons. cbn. by rewrite Hs.
Qed.

Lemma forallb_naive_aware l :
  Forall (fun s => aware s = true) l ->
  forallb (fun s => negb (aware s)) l = true -> l = [].
Proof.
  destruct l as [|s l]; [done|]. intros [Hs _]%Forall_cons. cbn. by rewrite Hs.
Qed.

Lemma one_kind_spec st :
  kinds st ->
  one_kind (all_trades st) = true <-> prior_trades st = [] \/ session_trades st = [].
Proof.
  intros [Hp Hs]. unfold one_kind, all_trades. rewrite !forallb_app. split.
  - intros [H|H]%orb_true_iff; apply andb_true_iff in H as [H1 H2].
    + left. by apply forallb_aware_naive.
    + right. by apply forallb_naive_aware.
  - intros [-> | ->]; apply orb_true_iff.
    + left. cbn. apply forallb_forall. intros s Hin%list_elem_of_In.
      by eapply Forall_forall in Hs.
    + right. rewrite andb_true_r. apply forallb_forall.
      intros s Hin%list_elem_of_In. eapply Forall_forall in Hp; [|done].
      by rewrite Hp.
Qed.

(** What [_compute_round_trips] does with the day's trades after any
    loading and recording. When the day has both trades loaded from the
    log and trades recorded in the session, it raises [TypeError],
    their timestamps not being comparable. Otherwise it returns, and
    loses and invents no contract: for every ticker the contracts
    entered are the contracts closed by its round trips plus the
    contracts left open in its queue, provided no entry is for a
    negative number of contracts. *)
Theorem round_trips_conserve_or_raise (ops : list Op) :
  let st := run ops in
  let trades := trade <$> all_trades st in
  (prior_trades st <> [] -> session_trades st <> [] ->
     replay st = TypeError /\ _compute_round_trips st = TypeError)
  /\ (prior_trades st = [] \/ session_trades st = [] ->
        exists acc,
          replay st = Returned acc
          /\ _compute_round_trips st = Returned (DailyStats.round_trips acc)
          /\ (ReplayFacts.sane_entries trades ->
                forall t,
                  (ReplayFacts.entered t trades
                   = ReplayFacts.closed t (DailyStats.round_trips acc)
                     + ReplayFacts.still_open t acc)%Z)).
Proof.
  cbn zeta. pose proof (run_kinds ops) as Hk.
  pose proof (one_kind_spec (run ops) Hk) as Hone.
  unfold _compute_round_trips, replay, sorted_by_timestamp. split.
  - intros Hp Hs.
    destruct (one_kind (all_trades (run ops))) eqn:E; [|done].
    exfalso. destruct (proj1 Hone eq_refl); done.
  - intros H. apply Hone in H. rewrite H. eexists. split; [done|].
    split; [done|]. intros Hsane t.
    apply (ReplayFacts.replay_conserves (trade <$> all_trades (run ops)) t Hsane).
Qed.

(** A day whose log holds an entry, and a session that closes half of it. *)
Definition resumed_day : list Op :=
  [ Load [ {| tr_ticker := "A"; tr_side := "yes"; tr_action := "entry";
              tr_contracts := 10; tr_price := 70; tr_timestamp := 1 |} ];
    RecordExit "A" "yes" 5 80 100 ].

(** The same trades made in one session. *)
Definition one_session : list Op :=
  [ RecordEntry "A" "yes" 10 70 1; RecordExit "A" "yes" 5 80 100 ].

Example one_session_round_trip :
  _compute_round_trips (run one_session)
  = Returned [ {| rt_ticker := "A"; rt_side := "yes"; rt_contracts := 5;
                  rt_entry_cost := 70 * 5; rt_exit_revenue := 80 * 5;
                  rt_pnl := 80 * 5 - 70 * 5 |} ].
Proof. by vm_compute. Qed.

Lemma round_trips_conserve_or_raise_witness :
  _compute_round_trips (run resumed_day) = TypeError
  /\ exists acc, replay (run one_session) = Returned acc
       /\ (10 = ReplayFacts.closed "A" (DailyStats.round_trips acc)
                + ReplayFacts.still_open "A" acc)%Z.
Proof.
  split.
  - destruct (round_trips_conserve_or_raise resumed_day) as [H _].
    cbn zeta in H. apply H; by vm_compute.
  - destruct (round_trips_conserve_or_raise one_session) as [_ H].
    cbn zeta in H. destruct H as (acc & Hacc & _ & Hcons); [by left|].
    exists acc. split; [exact Hacc|].
    apply (Hcons ltac:(repeat constructor; cbn; lia) "A").
Defined.

End DailyLogFacts.

(** ** Conversions of venue data (src/api/client.py) *)

(** A position as the venue reports it: a dictionary whose entries may
    be missing or null. *)
Record RawPosition := mkRawPosition {
  raw_position : option Z;
  raw_market_result : option string;
  raw_ticker : option string;
  raw_market_exposure : option Z
}.

Module Client.

(** [_convert_orderbook]: [var_true] and [var_false] are the levels
    [(price, quantity)] of the YES and NO sides, a positive quantity
    being a bid and any other an ask. *)
Definition split_levels (levels : option (list (Q * Z)))
    : list OrderBookLevel * list OrderBookLevel :=
  match levels with
  | None => ([], [])
  | Some levels =>
      foldl (fun '(bids, asks) '(p, q) =>
               if (0 <? q)%Z
               then (bids ++ [{| price := p; quantity := q |}], asks)
               else (bids, asks ++ [{| price := p; quantity := Z.abs q |}]))
            ([], []) levels
  end.

Definition descending (x y : OrderBookLevel) : bool := Decimal.leb (price y) (price x).
Definition ascending (x y : OrderBookLevel) : bool := Decimal.leb (price x) (price y).

Definition _convert_orderbook (t : string) (var_true var_false : option (list (Q * Z)))
    : OrderBook :=
  let '(yes_bids, yes_asks) := split_levels var_true in
  let '(no_bids, no_asks) := split_levels var_false in
  {| ob_ticker := t;
     yes_bids := Sorting.stable_sort descending yes_bids;
     yes_asks := Sorting.stable_sort ascending yes_asks;
     no_bids := Sorting.stable_sort descending no_bids;
     no_asks := Sorting.stable_sort ascending no_asks |}.

(** Truth value of an optional string. *)
Definition nonblank (s : option string) : bool :=
  match s with
  | Some s => negb (String.eqb s "")
  | None => false
  end.

(** The body of the loop of [get_positions] for one reported position;
    [get_market] is what the market read did for its ticker. *)
Definition convert_position (p : RawPosition) (get_market : result Market)
    : result (option Position) :=
  let pos_count := default 0%Z (raw_position p) in
  let contracts := Z.abs pos_count in
  if (contracts =? 0)%Z then Ok None
  else if nonblank (raw_market_result p)
          && (bool_decide (raw_market_result p = Some "yes")
              || bool_decide (raw_market_result p = Some "no")) then Ok None
  else
    let t := default "" (raw_ticker p) in
    let side := if (0 <? pos_count)%Z then YES else NO in
    let exposure := Z.abs (default 0%Z (raw_market_exposure p)) in
    avg_price ← Decimal.div (inject_Z exposure) (inject_Z contracts);
    let '(current, market_volume) :=
      match get_market with
      | Ok m => (match side with YES => yes_price m | NO => no_price m end, volume m)
      | Raise _ => (avg_price, 0%Z)
      end in
    Ok (Some {| pos_ticker := t; pos_side := side; pos_contracts := contracts;
                average_entry_price := avg_price; current_price := current;
                pos_volume := market_volume |}).

Fixpoint convert_positions (raw : list RawPosition) (get_market : nat -> result Market)
    (k : nat) : result (list Position) :=
  match raw with
  | [] => Ok []
  | p :: rest =>
      converted ← convert_position p (get_market k);
      positions ← convert_positions rest get_market (S k);
      Ok (from_option (fun x => [x]) [] converted ++ positions)
  end.

(** [get_positions] of an initialised client. [response] is what the
    transport call and the decoding of its body did: the
    ["market_positions"] entry of the body (absent or null as [None]),
    or an exception. *)
Definition get_positions (response : result (option (list RawPosition)))
    (get_market : nat -> result Market) : result (list Position) :=
  match response with
  | Raise _ => Ok []
  | Ok raw =>
      let raw_positions := default [] raw in
      if negb (nonempty raw_positions) then Ok []
      else convert_positions raw_positions get_market 0
  end.

End Client.

Module ClientFacts.
Import Client.

Definition is_bid (level : Q * Z) : Prop := (0 < level.2)%Z.

Definition bid_level (level : Q * Z) : OrderBookLevel :=
  {| price := level.1; quantity := level.2 |}.

Definition ask_level (level : Q * Z) : OrderBookLevel :=
  {| price := level.1; quantity := Z.abs level.2 |}.

Lemma split_levels_fold levels : forall bids asks,
  foldl (fun '(bids, asks) '(p, q) =>
           if (0 <? q)%Z
           then (bids ++ [{| price := p; quantity := q |}], asks)
           else (bids, asks ++ [{| price := p; quantity := Z.abs q |}]))
        (bids, asks) levels
  = (bids ++ (bid_level <$> filter is_bid levels),
     asks ++ (ask_level <$> filter (fun l => ~ is_bid l) levels)).
Proof.
  induction levels as [|[p q] rest IH]; intros bids asks.
  - cbn. by rewrite !app_nil_r.
  - cbn [foldl]. rewrite !filter_cons.
    destruct (decide (is_bid (p, q))) as [Hb|Hb].
    + assert (E : (0 <? q)%Z = true) by (by apply Z.ltb_lt).
      rewrite E, IH. rewrite decide_False by (intros H; by apply H).
      rewrite fmap_cons. by rewrite <- app_assoc.
    + assert (E : (0 <? q)%Z = false).
      { apply Z.ltb_ge. unfold is_bid in Hb. cbn in Hb. lia. }
      rewrite E, IH. rewrite decide_True by done.
      rewrite fmap_cons. by rewrite <- app_assoc.
Qed.

Lemma split_levels_value levels :
  split_levels levels
  = (bid_level <$> filter is_bid (default [] levels),
     ask_level <$> filter (fun l => ~ is_bid l) (default [] levels)).
Proof.
  destruct levels as [l|]; cbn; [|done]. apply (split_levels_fold l [] []).
Qed.

Lemma descending_sorted l :
  StronglySorted (fun x y => (price y <= price x)%Q) (Sorting.stable_sort descending l).
Proof.
  apply (SortedFacts.ordered_impl descending).
  { intros x y H. by apply DecimalFacts.leb_le. }
  apply SortedFacts.stable_sort_ordered.
  - intros x y. unfold descending, Decimal.leb.
    destruct (Qlt_le_dec (price x) (price y)) as [Hlt|Hle].
    + right. apply Qle_bool_iff. by apply Qlt_le_weak.
    + left. by apply Qle_bool_iff.
  - intros x y z Hxy Hyz. unfold descending in *.
    apply DecimalFacts.leb_le in Hxy, Hyz. apply DecimalFacts.leb_le.
    by eapply Qle_trans.
Qed.

Lemma ascending_sorted l :
  StronglySorted (fun x y => (price x <= price y)%Q) (Sorting.stable_sort ascending l).
Proof.
  apply (SortedFacts.ordered_impl ascending).
  { intros x y H. by apply DecimalFacts.leb_le. }
  apply SortedFacts.stable_sort_ordered.
  - intros x y. unfold ascending, Decimal.leb.
    destruct (Qlt_le_dec (price y) (price x)) as [Hlt|Hle].
    + right. apply Qle_bool_iff. by apply Qlt_le_weak.
    + left. by apply Qle_bool_iff.
  - intros x y z Hxy Hyz. unfold ascending in *.
    apply DecimalFacts.leb_le in Hxy, Hyz. apply DecimalFacts.leb_le.
    by eapply Qle_trans.
Qed.

Lemma first_price_least (R : Q -> Q -> Prop) l p :
  StronglySorted (fun x y => R (price x) (price y)) l ->
  (forall q, R q q) ->
  first_price l = Some p ->
  forall level, level ∈ l -> R p (price level).
Proof.
  intros Hs Hrefl Hp level Hin. destruct l as [|x r]; [done|].
  cbn in Hp. injection Hp as <-.
  apply StronglySorted_inv in Hs as [_ Hall].
  apply elem_of_cons in Hin as [->|Hin]; [apply Hrefl|].
  rewrite Forall_forall in Hall. by apply Hall.
Qed.

Lemma first_price_mem l p :
  first_price l = Some p -> exists level, level ∈ l /\ price level = p.
Proof.
  destruct l as [|x r]; [done|]. cbn. intros [= <-].
  exists x. split; [apply list_elem_of_here | done].
Qed.

(** The order book [_convert_orderbook] builds from the venue's YES
    levels: every level with a positive quantity is a bid and every
    other level an ask (with the absolute quantity), none is lost or
    duplicated, bids run from the highest price down and asks from the
    lowest price up. So the price [get_best_price] quotes for buying YES
    is the price of an ask level the venue sent and no other ask level
    sent is cheaper; for selling it is the price of a bid level sent and
    no other bid level sent is dearer; and there is none exactly when
    the venue sent no such level. *)
Theorem convert_orderbook_best_prices (t : string)
    (var_true var_false : option (list (Q * Z))) :
  let ob := _convert_orderbook t var_true var_false in
  let levels := default [] var_true in
  yes_bids ob ≡ₚ bid_level <$> filter is_bid levels
  /\ yes_asks ob ≡ₚ ask_level <$> filter (fun l => ~ is_bid l) levels
  /\ StronglySorted (fun x y => (price y <= price x)%Q) (yes_bids ob)
  /\ StronglySorted (fun x y => (price x <= price y)%Q) (yes_asks ob)
  /\ (forall p, get_best_price ob YES "buy" = Some p ->
        (exists q, (p, q) ∈ levels /\ (q <= 0)%Z)
        /\ forall p' q', (p', q') ∈ levels -> (q' <= 0)%Z -> (p <= p')%Q)
  /\ (forall p, get_best_price ob YES "sell" = Some p ->
        (exists q, (p, q) ∈ levels /\ (0 < q)%Z)
        /\ forall p' q', (p', q') ∈ levels -> (0 < q')%Z -> (p' <= p)%Q)
  /\ (get_best_price ob YES "buy" = None
      <-> forall p' q', (p', q') ∈ levels -> (0 < q')%Z)
  /\ (get_best_price ob YES "sell" = None
      <-> forall p' q', (p', q') ∈ levels -> (q' <= 0)%Z).
Proof.
  cbn zeta. unfold _convert_orderbook.
  rewrite (split_levels_value var_true), (split_levels_value var_false).
  cbn [yes_bids yes_asks].
  set (levels := default [] var_true).
  set (bids := bid_level <$> filter is_bid levels).
  set (asks := ask_level <$> filter (fun l => ~ is_bid l) levels).
  pose proof (SortingFacts.stable_sort_perm descending bids) as Hpb.
  pose proof (SortingFacts.stable_sort_perm ascending asks) as Hpa.
  pose proof (descending_sorted bids) as Hsb.
  pose proof (ascending_sorted asks) as Hsa.
  assert (Hask_in : forall p' q', (p', q') ∈ levels -> (q' <= 0)%Z ->
            ask_level (p', q') ∈ Sorting.stable_sort ascending asks).
  { intros p' q' Hin Hq. rewrite Hpa. unfold asks. apply list_elem_of_fmap_2.
    apply list_elem_of_filter. split; [unfold is_bid; cbn; lia | done]. }
  assert (Hbid_in : forall p' q', (p', q') ∈ levels -> (0 < q')%Z ->
            bid_level (p', q') ∈ Sorting.stable_sort descending bids).
  { intros p' q' Hin Hq. rewrite Hpb. unfold bids. apply list_elem_of_fmap_2.
    apply list_elem_of_filter. split; [done | done]. }
  assert (Hbuy : get_best_price
            {| ob_ticker := t;
               yes_bids := Sorting.stable_sort descending bids;
               yes_asks := Sorting.stable_sort ascending asks;
               no_bids := Sorting.stable_sort descending
                 (bid_level <$> filter is_bid (default [] var_false));
               no_asks := Sorting.stable_sort ascending
                 (ask_level <$> filter (fun l => ~ is_bid l) (default [] var_false)) |}
            YES "buy" = first_price (Sorting.stable_sort ascending asks)).
  { unfold get_best_price. cbn.
    by destruct (Sorting.stable_sort ascending asks). }
  assert (Hsell : get_best_price
            {| ob_ticker := t;
               yes_bids := Sorting.stable_sort descending bids;
               yes_asks := Sorting.stable_sort ascending asks;
               no_bids := Sorting.stable_sort descending
                 (bid_level <$> filter is_bid (default [] var_false));
               no_asks := Sorting.stable_sort ascending
                 (ask_level <$> filter (fun l => ~ is_bid l) (default [] var_false)) |}
            YES "sell" = first_price (Sorting.stable_sort descending bids)).
  { unfold get_best_price. cbn.
    by destruct (Sorting.stable_sort descending bids). }
  rewrite Hbuy, Hsell.
  split; [done|]. split; [done|]. split; [done|]. split; [done|].
  split; [|split; [|split]].
  - intros p Hp. split.
    + destruct (first_price_mem _ _ Hp) as (level & Hin & <-).
      rewrite Hpa in Hin. unfold asks in Hin.
      apply list_elem_of_fmap in Hin as ([p' q'] & -> & Hf).
      apply list_elem_of_filter in Hf as [Hnb Hin]. exists q'.
      split; [done|]. unfold is_bid in Hnb. cbn in Hnb. lia.
    + intros p' q' Hin Hq.
      apply (first_price_least Qle _ p Hsa Qle_refl Hp (ask_level (p', q'))).
      by apply Hask_in.
  - intros p Hp. split.
    + destruct (first_price_mem _ _ Hp) as (level & Hin & <-).
      rewrite Hpb in Hin. unfold bids in Hin.
      apply list_elem_of_fmap in Hin as ([p' q'] & -> & Hf).
      apply list_elem_of_filter in Hf as [Hb Hin]. exists q'. by split.
    + intros p' q' Hin Hq.
      apply (first_price_least (fun a b => (b <= a)%Q) _ p Hsb Qle_refl Hp
               (bid_level (p', q'))).
      by apply Hbid_in.
  - split.
    + intros Hnone p' q' Hin.
      destruct (Z_lt_le_dec 0 q') as [|Hq]; [done|]. exfalso.
      pose proof (Hask_in p' q' Hin Hq) as Hmem.
      destruct (Sorting.stable_sort ascending asks); [by apply elem_of_nil in Hmem|].
      done.
    + intros Hall.
      destruct (Sorting.stable_sort ascending asks) as [|x r] eqn:E; [done|].
      exfalso. assert (Hx : x ∈ asks) by (rewrite <- Hpa; apply list_elem_of_here).
      unfold asks in Hx. apply list_elem_of_fmap in Hx as ([p' q'] & _ & Hf).
      apply list_elem_of_filter in Hf as [Hnb Hin]. apply Hnb. by eapply Hall.
  - split.
    + intros Hnone p' q' Hin.
      destruct (Z_lt_le_dec 0 q') as [Hq|]; [|done]. exfalso.
      pose proof (Hbid_in p' q' Hin Hq) as Hmem.
      destruct (Sorting.stable_sort descending bids); [by apply elem_of_nil in Hmem|].
      done.
    + intros Hall.
      destruct (Sorting.stable_sort descending bids) as [|x r] eqn:E; [done|].
      exfalso. assert (Hx : x ∈ bids) by (rewrite <- Hpb; apply list_elem_of_here).
      unfold bids in Hx. apply list_elem_of_fmap in Hx as ([p' q'] & _ & Hf).
      apply list_elem_of_filter in Hf as [Hb Hin]. unfold is_bid in Hb. cbn in Hb.
      specialize (Hall p' q' Hin). lia.
Qed.

(** Levels as the venue may send them: asks (negative quantities) at
    88, 86 and 87, bids at 83 and 84. *)
Definition sent_levels : list (Q * Z) :=
  [ (88%Q, (-5)%Z); (83%Q, 10%Z); (86%Q, (-7)%Z); (84%Q, 3%Z); (87%Q, (-1)%Z) ].

Example best_prices_of_sent_levels :
  get_best_price (_convert_orderbook "T" (Some sent_levels) None) YES "buy" = Some 86%Q
  /\ get_best_price (_convert_orderbook "T" (Some sent_levels) None) YES "sell"
     = Some 84%Q.
Proof. by vm_compute. Qed.

Lemma convert_orderbook_best_prices_witness :
  (exists q, (86%Q, q) ∈ sent_levels /\ (q <= 0)%Z) /\ (86 <= 88)%Q.
Proof.
  pose proof (convert_orderbook_best_prices "T" (Some sent_levels) None) as H.
  cbn zeta in H. destruct H as (_ & _ & _ & _ & H & _).
  destruct (H 86%Q ltac:(by vm_compute)) as [Hmem Hleast].
  split; [exact Hmem|].
  apply (Hleast 88%Q (-5)%Z).
  - apply list_elem_of_here.
  - lia.
Defined.

End ClientFacts.

Module PositionFeedFacts.
Import Client.

(** The venue reports the position as settled. *)
Definition settled (p : RawPosition) : Prop :=
  raw_market_result p = Some "yes" \/ raw_market_result p = Some "no".

(** [pos] is the conversion of the reported position [p], [gm] being
    what the market read made for it did. The average entry price is a
    [Decimal] quotient: what is stated of it is its sign, when it is
    zero, and its value when the exposure is a whole number of cents per
    contract, which a quotient rounded to the context's precision
    satisfies as the exact one does. *)
Definition converted_from (p : RawPosition) (gm : result Market) (pos : Position)
    : Prop :=
  let size := default 0%Z (raw_position p) in
  let exposure := Z.abs (default 0%Z (raw_market_exposure p)) in
  pos_ticker pos = default "" (raw_ticker p)
  /\ pos_contracts pos = Z.abs size
  /\ (0 < pos_contracts pos)%Z
  /\ (pos_side pos = YES <-> (0 < size)%Z)
  /\ (pos_side pos = NO <-> (size < 0)%Z)
  /\ (0 <= average_entry_price pos)%Q
  /\ ((average_entry_price pos == 0)%Q <-> exposure = 0%Z)
  /\ (forall cents, exposure = (cents * Z.abs size)%Z ->
        (average_entry_price pos == inject_Z cents)%Q)
  /\ match gm with
     | Ok m =>
         current_price pos = (if decide (pos_side pos = YES) then yes_price m
                              else no_price m)
         /\ pos_volume pos = volume m
     | Raise _ =>
         current_price pos = average_entry_price pos /\ pos_volume pos = 0%Z
     end
  /\ ~ settled p.

Lemma inject_Z_nonzero z : z <> 0%Z -> ~ (inject_Z z == 0)%Q.
Proof. intros Hz H. apply Hz. unfold Qeq in H. cbn in H. lia. Qed.

Lemma average_price_facts (exposure contracts : Z) :
  (0 <= exposure)%Z -> (0 < contracts)%Z ->
  (0 <= inject_Z exposure / inject_Z contracts)%Q
  /\ ((inject_Z exposure / inject_Z contracts == 0)%Q <-> exposure = 0%Z)
  /\ (forall cents, exposure = (cents * contracts)%Z ->
        (inject_Z exposure / inject_Z contracts == inject_Z cents)%Q).
Proof.
  intros He Hc.
  assert (Hpos : (0 < inject_Z contracts)%Q).
  { replace 0%Q with (inject_Z 0) by done. by rewrite <- Zlt_Qlt. }
  assert (Hnz : ~ (inject_Z contracts == 0)%Q) by (apply inject_Z_nonzero; lia).
  split; [|split].
  - apply Qle_shift_div_l; [done|]. rewrite Qmult_0_l.
    replace 0%Q with (inject_Z 0) by done. by rewrite <- Zle_Qle.
  - split.
    + intros H.
      assert (H' : (inject_Z exposure == 0)%Q).
      { rewrite <- (Qmult_div_r (inject_Z exposure) (inject_Z contracts)) by done.
        rewrite H. ring. }
      unfold Qeq in H'. cbn in H'. lia.
    + intros ->. unfold Qdiv. ring.
  - intros cents ->. rewrite inject_Z_mult. field. done.
Qed.

Lemma convert_position_spec p gm :
  exists r, convert_position p gm = Ok r
    /\ match r with
       | Some pos => converted_from p gm pos
       | None => default 0%Z (raw_position p) = 0%Z \/ settled p
       end.
Proof.
  unfold convert_position.
  destruct (Z.abs (default 0%Z (raw_position p)) =? 0)%Z eqn:Hz.
  { eexists. split; [done|]. left. apply Z.eqb_eq in Hz. lia. }
  apply Z.eqb_neq in Hz.
  destruct (nonblank (raw_market_result p)
            && (bool_decide (raw_market_result p = Some "yes")
                || bool_decide (raw_market_result p = Some "no"))) eqn:Hs.
  { eexists. split; [done|]. right.
    apply andb_true_iff in Hs as [_ Hs]. apply orb_true_iff in Hs.
    unfold settled. destruct Hs as [H|H]; apply bool_decide_eq_true in H; tauto. }
  rewrite DecimalFacts.div_ok by (by apply inject_Z_nonzero). cbn.
  assert (Hns : ~ settled p).
  { intros Hset. apply andb_false_iff in Hs as [Hs|Hs].
    - destruct Hset as [E|E]; rewrite E in Hs; done.
    - apply orb_false_iff in Hs as [H1 H2].
      apply bool_decide_eq_false in H1, H2. destruct Hset; done. }
  destruct (average_price_facts (Z.abs (default 0%Z (raw_market_exposure p)))
              (Z.abs (default 0%Z (raw_position p))))
    as (Hsign & Hzero & Hcents); [lia | lia |].
  assert (Hyes : (if (0 <? default 0%Z (raw_position p))%Z then YES else NO) = YES
                 <-> (0 < default 0%Z (raw_position p))%Z).
  { destruct (0 <? default 0%Z (raw_position p))%Z eqn:E.
    - apply Z.ltb_lt in E. done.
    - apply Z.ltb_ge in E. split; [done | lia]. }
  assert (Hno : (if (0 <? default 0%Z (raw_position p))%Z then YES else NO) = NO
                <-> (default 0%Z (raw_position p) < 0)%Z).
  { destruct (0 <? default 0%Z (raw_position p))%Z eqn:E.
    - apply Z.ltb_lt in E. split; [done | lia].
    - apply Z.ltb_ge in E. split; [lia | done]. }
  destruct gm as [m|e]; eexists; (split; [done|]); unfold converted_from; cbn;
    (split; [done|]); (split; [done|]); (split; [lia|]); (split; [exact Hyes|]);
    (split; [exact Hno|]); (split; [exact Hsign|]); (split; [exact Hzero|]);
    (split; [exact Hcents|]); (split; [|exact Hns]).
  - split; [|done]. by destruct (0 <? default 0%Z (raw_position p))%Z.
  - done.
Qed.

Lemma convert_positions_spec raw : forall gm k,
  exists l, convert_positions raw gm k = Ok l
    /\ Forall (fun pos =>
                 exists i p, raw !! i = Some p
                             /\ converted_from p (gm (k + i)%nat) pos) l.
Proof.
  induction raw as [|p rest IH]; intros gm k; cbn [convert_positions].
  - exists []. split; [done | constructor].
  - destruct (convert_position_spec p (gm k)) as (r & -> & Hr).
    destruct (IH gm (S k)) as (l & -> & Hl). cbn.
    eexists. split; [done|]. apply Forall_app. split.
    + destruct r as [pos|]; cbn; [|constructor].
      constructor; [|constructor]. exists 0%nat, p.
      split; [done|]. by rewrite Nat.add_0_r.
    + eapply Forall_impl; [exact Hl|]. cbn.
      intros pos (i & p' & Hi & Hc). exists (S i), p'. split; [done|].
      by rewrite Nat.add_succ_r.
Qed.

(** [client.get_positions] never raises once the client is initialised.
    Every position it returns comes from a reported position that is
    not settled and not flat: it has that position's ticker, its
    absolute size as a positive number of contracts, the YES side when
    the reported size is positive and the NO side when it is negative,
    an average entry price that is not negative, is zero exactly when
    the reported exposure is, and is the number of cents per contract
    when the exposure is a whole number of them; its current price and
    volume are those of the market read made for it (the price of its
    side), or the average entry price and no volume when that read
    failed. When the transport call fails, or the venue reports no
    position, the list is empty. *)
Theorem get_positions_converted (response : result (option (list RawPosition)))
    (get_market : nat -> result Market) :
  exists l,
    get_positions response get_market = Ok l
    /\ Forall (fun pos =>
                 exists i p raw, response = Ok (Some raw) /\ raw !! i = Some p
                   /\ converted_from p (get_market i) pos) l
    /\ (forall e, response = Raise e -> l = [])
    /\ (response = Ok None \/ response = Ok (Some []) -> l = []).
Proof.
  unfold get_positions. destruct response as [[raw|]|e]; cbn.
  - destruct raw as [|p rest]; cbn [nonempty negb].
    + exists []. split; [done|]. split; [constructor|]. done.
    + destruct (convert_positions_spec (p :: rest) get_market 0) as (l & Hl & Hall).
      exists l. split; [exact Hl|]. split.
      * eapply Forall_impl; [exact Hall|]. cbn.
        intros pos (i & p' & Hi & Hc). exists i, p', (p :: rest). done.
      * split; [done|]. intros [H|H]; done.
  - exists []. split; [done|]. split; [constructor|]. done.
  - exists []. split; [done|]. split; [constructor|]. done.
Qed.

(** A position of 12 NO contracts with 708c of exposure, next to a
    settled one and a flat one. *)
Definition reported : list RawPosition :=
  [ {| raw_position := Some (-12)%Z; raw_market_result := Some "";
       raw_ticker := Some "KXNBAGAME-26FEB16LALBOS-BOS";
       raw_market_exposure := Some 708%Z |};
    {| raw_position := Some 4%Z; raw_market_result := Some "yes";
       raw_ticker := Some "KXNBAGAME-26FEB15NYKMIA-NYK";
       raw_market_exposure := Some 300%Z |};
    {| raw_position := None; raw_market_result := None;
       raw_ticker := Some "KXNBAGAME-26FEB16DENPHX-DEN";
       raw_market_exposure := None |} ].

Example reported_converted :
  get_positions (Ok (Some reported)) (fun _ => Raise OtherError)
  = Ok [ {| pos_ticker := "KXNBAGAME-26FEB16LALBOS-BOS"; pos_side := NO;
            pos_contracts := 12; average_entry_price := 708 / 12;
            current_price := 708 / 12; pos_volume := 0 |} ].
Proof. by vm_compute. Qed.

Lemma get_positions_converted_witness :
  get_positions (Raise OtherError) (fun _ => Raise OtherError) = Ok []
  /\ exists l, get_positions (Ok (Some reported)) (fun _ => Raise OtherError) = Ok l
       /\ Forall (fun pos => (0 < pos_contracts pos)%Z
                             /\ (0 <= average_entry_price pos)%Q) l.
Proof.
  split.
  - destruct (get_positions_converted (Raise OtherError) (fun _ => Raise OtherError))
      as (l & Hl & _ & H & _).
    rewrite Hl. f_equal. by apply (H OtherError).
  - destruct (get_positions_converted (Ok (Some reported))
                (fun _ => Raise OtherError)) as (l & Hl & Hall & _).
    exists l. split; [exact Hl|].
    eapply Forall_impl; [exact Hall|]. cbn.
    intros pos (i & p & raw & _ & _ & Hc).
    destruct Hc as (_ & _ & Hpos & _ & _ & Hsign & _). by split.
Defined.

Section Composed.

Variable settings : TradingSettings.

(** A failure of the transport call inside [client.get_positions] does
    not reach the position monitor as an error: the monitor records an
    empty snapshot, and the exit handler's clean-up, fed with that
    read, empties the pending-exit set. *)
Theorem transport_failure_reads_as_no_positions (e : Exn)
    (get_market : nat -> result Market) (pm : PositionMonitor.state)
    (st : ExitHandler.state) :
  PositionMonitor.get_positions pm (get_positions (Raise e) get_market)
  = ([], {| PositionMonitor._last_positions := [];
            PositionMonitor._pending_entry_tickers :=
              PositionMonitor._pending_entry_tickers pm |})
  /\ ExitHandler._pending_exit_tickers
       (ExitHandler.forget_closed st (get_positions (Raise e) get_market)) = ∅.
Proof.
  split; [done|].
  rewrite ExitHandlerFacts.forget_closed_pending. cbn.
  unfold PositionMonitor.tickers_of. cbn. set_solver.
Qed.

(** A position whose market read failed is valued at its own entry
    price: it shows no profit and no loss, so with a positive profit
    target and a positive (or no) stop-loss it never gives an exit
    signal. *)
Theorem unpriced_position_never_exits (p : RawPosition) (e : Exn) (pos : Position) :
  convert_position p (Raise e) = Ok (Some pos) ->
  (0 < profit_target_percent settings)%Q ->
  (forall sl, stop_loss_percent settings = Some sl -> (0 < sl)%Q) ->
  (unrealized_pnl pos == 0)%Q
  /\ Strategy.evaluate_exit settings pos = Ok None.
Proof.
  intros Hconv Htarget Hstop.
  destruct (convert_position_spec p (Raise e)) as (r & Hr & Hspec).
  rewrite Hconv in Hr. injection Hr as <-.
  destruct Hspec as (_ & _ & _ & _ & _ & _ & _ & _ & [Hprice _] & _).
  assert (Hpnl : (unrealized_pnl pos == 0)%Q).
  { unfold unrealized_pnl, current_value, entry_cost. rewrite Hprice. ring. }
  split; [done|].
  assert (Hzero : (ExitQueriesFacts.pnl_of pos == 0)%Q).
  { unfold ExitQueriesFacts.pnl_of.
    destruct (Decimal.eqb (entry_cost pos) 0); [reflexivity|].
    rewrite Hpnl. unfold Qdiv. ring. }
  rewrite ExitQueriesFacts.evaluate_exit_cases.
  assert (Ht : ExitQueriesFacts.hits_target settings pos = false).
  { unfold ExitQueriesFacts.hits_target. apply DecimalFacts.leb_nle.
    rewrite Hzero. by apply Qlt_not_le. }
  assert (Hs : ExitQueriesFacts.hits_stop settings pos = false).
  { unfold ExitQueriesFacts.hits_stop.
    destruct (stop_loss_percent settings) as [sl|] eqn:E; [|done].
    specialize (Hstop sl eq_refl).
    assert (Hle : Decimal.leb (ExitQueriesFacts.pnl_of pos) (- sl) = false).
    { apply DecimalFacts.leb_nle. rewrite Hzero. apply Qlt_not_le.
      apply Qopp_lt_compat in Hstop. exact Hstop. }
    by rewrite Hle, andb_false_r. }
  by rewrite Ht, Hs.
Qed.

End Composed.

Lemma unpriced_position_never_exits_witness :
  Strategy.evaluate_exit StrategyFacts.stop_settings
    {| pos_ticker := "KXNBAGAME-26FEB16LALBOS-BOS"; pos_side := NO;
       pos_contracts := 12; average_entry_price := 708 / 12;
       current_price := 708 / 12; pos_volume := 0 |} = Ok None.
Proof.
  eapply (unpriced_position_never_exits StrategyFacts.stop_settings
            {| raw_position := Some (-12)%Z; raw_market_result := Some "";
               raw_ticker := Some "KXNBAGAME-26FEB16LALBOS-BOS";
               raw_market_exposure := Some 708%Z |} OtherError).
  - reflexivity.
  - reflexivity.
  - intros sl [= <-]. reflexivity.
Defined.

End PositionFeedFacts.

(** ** Retry on rate limits (src/api/rate_limiter.py, exceptions.py) *)

Module Retry.

(** What one call of the wrapped function did. [RateLimited d] is a
    [RateLimitError] whose [retry_after] attribute is [d]. *)
Inductive Outcome (A : Type) : Type :=
| Returned (a : A)
| RateLimited (retry_after : Q)
| Failed (e : Exn).
Arguments Returned {A} a.
Arguments RateLimited {A} retry_after.
Arguments Failed {A} e.

(** The [retry_after] attribute that [RateLimitError(retry_after)] gets:
    [retry_after or 60]. *)
Definition retry_after_attribute (given : option Q) : Q :=
  match given with
  | Some d => if Decimal.truthy d then d else 60%Q
  | None => 60%Q
  end.

Record run (A : Type) := mkRun {
  outcome : Outcome A;
  calls : nat;
  sleeps : list Q
}.
Arguments outcome {A}.
Arguments calls {A}.
Arguments sleeps {A}.

Section WithRetry.

Context {A : Type}.
Variable max_retries : nat.
Variable base_delay max_delay : Q.
(** [func k]: what the [k]-th call of the wrapped function does. *)
Variable func : nat -> Outcome A.

(** [min(base_delay * (2**attempt), max_delay)]. *)
Definition backoff (attempt : nat) : Q :=
  let grown := (base_delay * inject_Z (2 ^ Z.of_nat attempt))%Q in
  if Decimal.ltb max_delay grown then max_delay else grown.

(** The loop [for attempt in range(max_retries + 1)], from [attempt] on,
    with [left] turns to go; past its last turn the last error is
    raised again. *)
Fixpoint attempts (left attempt : nat) (slept : list Q) : run A :=
  match left with
  | O =>
      {| outcome := match attempt with
                    | O => Failed OtherError
                    | S last => func last
                    end;
         calls := attempt; sleeps := slept |}
  | S left' =>
      match func attempt with
      | Returned a =>
          {| outcome := Returned a; calls := S attempt; sleeps := slept |}
      | Failed e =>
          {| outcome := Failed e; calls := S attempt; sleeps := slept |}
      | RateLimited d =>
          if (attempt <? max_retries)%nat then
            let delay := if Decimal.truthy d then d else backoff attempt in
            attempts left' (S attempt) (slept ++ [delay])
          else
            {| outcome := RateLimited d; calls := S attempt; sleeps := slept |}
      end
  end.

Definition with_retry : run A := attempts (S max_retries) 0 [].

End WithRetry.
End Retry.

Module RetryFacts.
Import Retry.

Section WithRetry.

Context {A : Type}.
Variable max_retries : nat.
Variable base_delay max_delay : Q.
Variable func : nat -> Outcome A.

Abbreviation attempts := (attempts max_retries base_delay max_delay func).

Definition rate_limited (o : Outcome A) : Prop :=
  match o with
  | RateLimited _ => True
  | _ => False
  end.

Lemma attempts_spec left : forall attempt slept,
  (attempt + left = S max_retries)%nat ->
  let r := attempts left attempt slept in
  (left <> 0%nat ->
     (attempt < calls r)%nat /\ (calls r <= S max_retries)%nat
     /\ outcome r = func (calls r - 1)
     /\ (forall k, (attempt <= k)%nat -> (k < calls r - 1)%nat -> rate_limited (func k))
     /\ (rate_limited (outcome r) -> calls r = S max_retries)
     /\ exists added,
          sleeps r = slept ++ added
          /\ length added = (calls r - 1 - attempt)%nat
          /\ (forall i d, added !! i = Some d ->
                exists given, func (attempt + i) = RateLimited given
                  /\ d = if Decimal.truthy given then given
                         else backoff base_delay max_delay (attempt + i))).
Proof.
  induction left as [|left IH]; intros attempt slept Hsum; cbn zeta; [done|].
  intros _. cbn [Retry.attempts].
  destruct (func attempt) as [a|d|e] eqn:Hf.
  - cbn. rewrite Nat.sub_0_r. split; [lia|]. split; [lia|]. split; [done|].
    split; [intros; lia|]. split; [done|].
    exists []. rewrite app_nil_r. split; [done|]. split; [cbn; lia|].
    by intros i d' ?.
  - destruct (attempt <? max_retries)%nat eqn:Hlt.
    + apply Nat.ltb_lt in Hlt.
      destruct left as [|left']; [lia|].
      destruct (IH (S attempt)
                  (slept ++ [if Decimal.truthy d then d
                             else backoff base_delay max_delay attempt])
                  ltac:(lia) ltac:(done))
        as (H1 & H2 & H3 & H4 & H5 & added & Hs & Hlen & Hadd).
      split; [lia|]. split; [done|]. split; [done|]. split.
      { intros k Hk1 Hk2. destruct (decide (k = attempt)) as [->|Hne].
        - by rewrite Hf.
        - apply H4; lia. }
      split; [done|].
      eexists (_ :: added). split; [by rewrite Hs, <- app_assoc|].
      split; [cbn [length]; lia|].
      intros [|i] d' Hd.
      * cbn in Hd. injection Hd as <-. exists d. by rewrite Nat.add_0_r.
      * cbn in Hd. destruct (Hadd i d' Hd) as (given & Hg & ->).
        exists given. by replace (attempt + S i)%nat with (S attempt + i)%nat by lia.
    + apply Nat.ltb_ge in Hlt. cbn. rewrite Nat.sub_0_r.
      split; [lia|]. split; [lia|]. split; [done|].
      split; [intros; lia|]. split; [intros; lia|].
      exists []. rewrite app_nil_r. split; [done|]. split; [cbn; lia|].
      by intros i d' ?.
  - cbn. rewrite Nat.sub_0_r. split; [lia|]. split; [lia|]. split; [done|].
    split; [intros; lia|]. split; [done|].
    exists []. rewrite app_nil_r. split; [done|]. split; [cbn; lia|].
    by intros i d' ?.
Qed.

(** The retry wrapper calls the function at least once and at most
    [max_retries + 1] times; it stops at the first call that is not rate
    limited and passes that call's result or error on unchanged (any
    other error is not retried); every earlier call was rate limited;
    it gives up with the rate-limit error only after [max_retries + 1]
    calls; and it sleeps once between consecutive calls, for the
    error's [retry_after] when that is non-zero and for
    [min(base_delay * 2^attempt, max_delay)] otherwise. *)
Theorem with_retry_bounded :
  let r := with_retry max_retries base_delay max_delay func in
  (1 <= calls r)%nat /\ (calls r <= S max_retries)%nat
  /\ outcome r = func (calls r - 1)
  /\ (forall k, (k < calls r - 1)%nat -> rate_limited (func k))
  /\ (rate_limited (outcome r) -> calls r = S max_retries)
  /\ length (sleeps r) = (calls r - 1)%nat
  /\ (forall i d, sleeps r !! i = Some d ->
        exists given, func i = RateLimited given
          /\ d = if Decimal.truthy given then given
                 else backoff base_delay max_delay i).
Proof.
  cbn zeta. unfold with_retry.
  destruct (attempts_spec (S max_retries) 0 [] ltac:(lia) ltac:(done))
    as (H1 & H2 & H3 & H4 & H5 & added & Hs & Hlen & Hadd).
  change ([] ++ added) with added in Hs. rewrite Hs.
  split; [lia|]. split; [done|]. split; [done|].
  split; [intros k Hk; apply H4; lia|]. split; [done|].
  split; [lia|]. exact Hadd.
Qed.

End WithRetry.

(** A [RateLimitError] always carries a non-zero [retry_after] (60 when
    none was given), so for errors built by its constructor the sleep is
    that value and the exponential back-off is never used. *)
Theorem retry_sleeps_retry_after {A : Type} (max_retries : nat)
    (base_delay max_delay : Q) (func : nat -> Outcome A)
    (given : nat -> option Q) :
  (forall k d, func k = RateLimited d -> d = retry_after_attribute (given k)) ->
  forall i d,
    sleeps (with_retry max_retries base_delay max_delay func) !! i = Some d ->
    d = retry_after_attribute (given i) /\ ~ (d == 0)%Q.
Proof.
  intros Hbuilt i d Hd.
  destruct (attempts_spec max_retries base_delay max_delay func
              (S max_retries) 0 [] ltac:(lia) ltac:(done))
    as (_ & _ & _ & _ & _ & added & Hs & _ & Hadd).
  unfold with_retry in Hd. rewrite Hs in Hd.
  change ([] ++ added) with added in Hd.
  destruct (Hadd i d Hd) as (g & Hg & ->). change (0 + i)%nat with i in Hg.
  pose proof (Hbuilt i g Hg) as ->.
  assert (Htruthy : Decimal.truthy (retry_after_attribute (given i)) = true).
  { unfold retry_after_attribute. destruct (given i) as [x|]; [|done].
    destruct (Decimal.truthy x) eqn:E; done. }
  rewrite Htruthy. split; [done|]. by apply DecimalFacts.truthy_spec.
Qed.

(** A venue call that is rate limited twice, with no delay advised,
    then answers: three calls, two sleeps of 60 seconds. *)
Definition twice_limited (k : nat) : Outcome string :=
  match k with
  | 0 | 1 => RateLimited (retry_after_attribute None)
  | _ => Returned "ok"
  end.

Example twice_limited_run :
  with_retry 3 1 60 twice_limited
  = {| outcome := Returned "ok"; calls := 3; sleeps := [60%Q; 60%Q] |}.
Proof. reflexivity. Qed.

Lemma with_retry_bounded_witness :
  rate_limited (twice_limited 0).
Proof.
  destruct (with_retry_bounded 3 1 60 twice_limited) as (_ & _ & _ & H & _).
  apply (H 0%nat). cbn. lia.
Defined.

Lemma retry_sleeps_retry_after_witness :
  (60 : Q) = retry_after_attribute None /\ ~ (60 == 0)%Q.
Proof.
  apply (retry_sleeps_retry_after 3 1 60 twice_limited (fun _ => None)) with (i := 0%nat).
  - intros [|[|k]] d; cbn; intros [=]; done.
  - reflexivity.
Defined.

End RetryFacts.

(** ** Growth statistics (src/portfolio/compound.py) *)

Record CompoundStats := mkCompoundStats {
  cs_initial_value : Q;
  cs_current_value : Q;
  total_trades : nat;
  winning_trades : nat;
  total_profit : Q
}.

Module Compound.

Definition growth_rate (s : CompoundStats) : result Q :=
  if Decimal.eqb (cs_initial_value s) 0 then Ok 0%Q
  else Decimal.div (cs_current_value s - cs_initial_value s) (cs_initial_value s).

Definition win_rate (s : CompoundStats) : result Q :=
  if (total_trades s =? 0)%nat then Ok 0%Q
  else Decimal.div (inject_Z (Z.of_nat (winning_trades s)))
                   (inject_Z (Z.of_nat (total_trades s))).

Definition average_profit_per_trade (s : CompoundStats) : result Q :=
  if (total_trades s =? 0)%nat then Ok 0%Q
  else Decimal.div (total_profit s) (inject_Z (Z.of_nat (total_trades s))).

(** The calculator: its initial value and the P&L of each trade. *)
Record state := mkState {
  initial_value : Q;
  _trades : list Q
}.

Definition record_trade (st : state) (pnl : Q) : state :=
  {| initial_value := initial_value st; _trades := _trades st ++ [pnl] |}.

Definition reset (new_initial : Q) : state :=
  {| initial_value := new_initial; _trades := [] |}.

(** [sum(1 for t in trades if t > 0)]. *)
Definition count_winning (trades : list Q) : nat :=
  foldl (fun n t => if Decimal.ltb 0 t then (n + 1)%nat else n) 0%nat trades.

Definition get_stats (st : state) (current_value : Q) : CompoundStats :=
  {| cs_initial_value := initial_value st;
     cs_current_value := current_value;
     total_trades := length (_trades st);
     winning_trades := count_winning (_trades st);
     total_profit := DailyStats.Qsum (_trades st) |}.

(** [max(projected, Decimal(0))]. *)
Definition at_least_zero (x : Q) : Q := if Decimal.ltb x 0 then 0%Q else x.

Definition project_growth (st : state) (current_value : Q) (target_trades : Z)
    (avg_profit_per_trade : option Q) : result Q :=
  match avg_profit_per_trade with
  | Some avg =>
      Ok (at_least_zero (current_value + avg * inject_Z target_trades))
  | None =>
      if negb (nonempty (_trades st)) then Ok current_value
      else
        avg ← Decimal.div (DailyStats.Qsum (_trades st))
                (inject_Z (Z.of_nat (length (_trades st))));
        Ok (at_least_zero (current_value + avg * inject_Z target_trades))
  end.

Definition get_compound_multiplier (st : state) (current_value : Q) : result Q :=
  if Decimal.eqb (initial_value st) 0 then Ok 1%Q
  else Decimal.div current_value (initial_value st).

End Compound.

Module CompoundFacts.
Import Compound.

Lemma count_winning_fold trades : forall n,
  foldl (fun n t => if Decimal.ltb 0 t then (n + 1)%nat else n) n trades
  = (n + count_winning trades)%nat
  /\ (count_winning trades <= length trades)%nat.
Proof.
  unfold count_winning.
  induction trades as [|t rest IH]; intros n; cbn [foldl length]; [lia|].
  destruct (Decimal.ltb 0 t).
  - destruct (IH (n + 1)%nat) as [-> _]. destruct (IH (0 + 1)%nat) as [-> H]. lia.
  - destruct (IH n) as [-> H]. destruct (IH 0%nat) as [_ H']. cbn in *. lia.
Qed.

Lemma of_nat_nonzero n : n <> 0%nat -> ~ (inject_Z (Z.of_nat n) == 0)%Q.
Proof. intros Hn. apply PositionFeedFacts.inject_Z_nonzero. lia. Qed.

Lemma quotient_sign (x y : Q) :
  (0 < y)%Q ->
  ((0 <= x / y)%Q <-> (0 <= x)%Q) /\ ((x / y <= 0)%Q <-> (x <= 0)%Q)
  /\ ((1 <= x / y)%Q <-> (y <= x)%Q) /\ ((x / y <= 1)%Q <-> (x <= y)%Q).
Proof.
  intros Hy.
  assert (Hnz : ~ (y == 0)%Q) by (intros H; rewrite H in Hy; by apply Qlt_irrefl in Hy).
  assert (Hmul : (x / y * y == x)%Q) by (field; done).
  assert (Hy' : (0 <= y)%Q) by (by apply Qlt_le_weak).
  assert (Hup : forall c, (c <= x / y)%Q -> (c * y <= x)%Q).
  { intros c H. apply Qle_trans with (x / y * y)%Q.
    - by apply Qmult_le_compat_r.
    - rewrite Hmul. apply Qle_refl. }
  assert (Hdown : forall c, (x / y <= c)%Q -> (x <= c * y)%Q).
  { intros c H. apply Qle_trans with (x / y * y)%Q.
    - rewrite Hmul. apply Qle_refl.
    - by apply Qmult_le_compat_r. }
  repeat split; intros H.
  - apply Hup in H. by rewrite Qmult_0_l in H.
  - apply Qle_shift_div_l; [done|]. by rewrite Qmult_0_l.
  - apply Hdown in H. by rewrite Qmult_0_l in H.
  - apply Qle_shift_div_r; [done|]. by rewrite Qmult_0_l.
  - apply Hup in H. by rewrite Qmult_1_l in H.
  - apply Qle_shift_div_l; [done|]. by rewrite Qmult_1_l.
  - apply Hdown in H. by rewrite Qmult_1_l in H.
  - apply Qle_shift_div_r; [done|]. by rewrite Qmult_1_l.
Qed.

(** The statistics of a calculator never fail. The win rate is a
    fraction between 0 and 1, and is 1 only when every trade was won;
    the average profit per trade has the sign of the total profit; with
    no trade both are 0. With a zero initial value the growth rate is 0
    and the compound multiplier 1; with a positive one the multiplier is
    at least 1, and the growth rate at least 0, exactly when the current
    value is at least the initial value. The rates are [Decimal]
    quotients: only their order with 0 and 1 is stated, which a quotient
    rounded to the context's precision keeps. *)
Theorem stats_are_consistent (st : state) (current_value : Q) :
  let s := get_stats st current_value in
  exists w a g m,
    win_rate s = Ok w /\ average_profit_per_trade s = Ok a
    /\ growth_rate s = Ok g /\ get_compound_multiplier st current_value = Ok m
    /\ (0 <= w)%Q /\ (w <= 1)%Q
    /\ ((1 <= w)%Q -> winning_trades s = total_trades s)
    /\ ((0 <= a)%Q <-> (0 <= total_profit s)%Q)
    /\ ((a <= 0)%Q <-> (total_profit s <= 0)%Q)
    /\ (_trades st = [] -> w = 0%Q /\ a = 0%Q)
    /\ ((initial_value st == 0)%Q -> g = 0%Q /\ m = 1%Q)
    /\ ((0 < initial_value st)%Q ->
          ((1 <= m)%Q <-> (initial_value st <= current_value)%Q)
          /\ ((0 <= g)%Q <-> (initial_value st <= current_value)%Q)).
Proof.
  cbn zeta. unfold win_rate, average_profit_per_trade, growth_rate,
    get_compound_multiplier, get_stats. cbn.
  destruct (count_winning_fold (_trades st) 0%nat) as [_ Hwin].
  set (n := length (_trades st)) in *. set (k := count_winning (_trades st)) in *.
  assert (Hrates : exists w a,
    (if (n =? 0)%nat then Ok 0%Q
     else Decimal.div (inject_Z (Z.of_nat k)) (inject_Z (Z.of_nat n))) = Ok w
    /\ (if (n =? 0)%nat then Ok 0%Q
        else Decimal.div (DailyStats.Qsum (_trades st)) (inject_Z (Z.of_nat n))) = Ok a
    /\ (0 <= w)%Q /\ (w <= 1)%Q
    /\ ((1 <= w)%Q -> k = n)
    /\ ((0 <= a)%Q <-> (0 <= DailyStats.Qsum (_trades st))%Q)
    /\ ((a <= 0)%Q <-> (DailyStats.Qsum (_trades st) <= 0)%Q)
    /\ (_trades st = [] -> w = 0%Q /\ a = 0%Q)).
  { destruct (n =? 0)%nat eqn:En.
    - apply Nat.eqb_eq in En. exists 0%Q, 0%Q.
      assert (Hnil : _trades st = []) by (by apply length_zero_iff_nil).
      split; [done|]. split; [done|]. split; [done|]. split; [done|].
      split; [intros H; by vm_compute in H|].
      rewrite Hnil. cbn. done.
    - apply Nat.eqb_neq in En. pose proof (of_nat_nonzero n En) as Hnz.
      rewrite !DecimalFacts.div_ok by done. eexists _, _.
      split; [done|]. split; [done|].
      assert (Hpos : (0 < inject_Z (Z.of_nat n))%Q).
      { replace 0%Q with (inject_Z 0) by done. rewrite <- Zlt_Qlt. lia. }
      destruct (quotient_sign (inject_Z (Z.of_nat k)) _ Hpos) as (Hk0 & _ & Hk1 & Hk2).
      destruct (quotient_sign (DailyStats.Qsum (_trades st)) _ Hpos)
        as (Ha0 & Ha1 & _ & _).
      split; [|split; [|split; [|split; [|split]]]].
      + apply Hk0. replace 0%Q with (inject_Z 0) by done. rewrite <- Zle_Qle. lia.
      + apply Hk2. rewrite <- Zle_Qle. lia.
      + intros H. apply Hk1 in H. rewrite <- Zle_Qle in H. lia.
      + exact Ha0.
      + exact Ha1.
      + intros Hnil. exfalso. apply En. unfold n. by rewrite Hnil. }
  destruct Hrates as (w & a & -> & -> & Hw0 & Hw1 & Hall & Ha0 & Ha1 & Hnil).
  destruct (Decimal.eqb (initial_value st) 0) eqn:Ei.
  - exists w, a, 0%Q, 1%Q.
    apply DecimalFacts.eqb_eq in Ei.
    repeat (split; [done|]).
    intros Hpos. exfalso. rewrite Ei in Hpos. by apply Qlt_irrefl in Hpos.
  - apply DecimalFacts.eqb_neq in Ei. rewrite !DecimalFacts.div_ok by done.
    eexists w, a, _, _. repeat (split; [done|]).
    intros Hpos.
    destruct (quotient_sign current_value _ Hpos) as (_ & _ & Hm & _).
    destruct (quotient_sign (current_value - initial_value st) _ Hpos)
      as (Hg & _ & _ & _).
    split; [exact Hm|]. rewrite Hg. split; intros H.
    + apply Qplus_le_l with (z := (- initial_value st)%Q).
      rewrite Qplus_opp_r. exact H.
    + apply Qplus_le_l with (z := (- initial_value st)%Q) in H.
      rewrite Qplus_opp_r in H. exact H.
Qed.

(** A projection is never negative, except that with no recorded trade
    and no average given the current value is returned as it is. *)
Theorem project_growth_floor (st : state) (current_value : Q) (target_trades : Z)
    (avg : option Q) :
  exists v, project_growth st current_value target_trades avg = Ok v
    /\ (avg = None -> _trades st = [] -> v = current_value)
    /\ (avg <> None \/ _trades st <> [] -> (0 <= v)%Q).
Proof.
  assert (Hfloor : forall x, (0 <= at_least_zero x)%Q).
  { intros x. unfold at_least_zero. destruct (Decimal.ltb x 0) eqn:E; [done|].
    by apply DecimalFacts.ltb_nlt in E. }
  unfold project_growth. destruct avg as [a|].
  - eexists. split; [done|]. split; [done|]. intros _. apply Hfloor.
  - destruct (_trades st) as [|t rest] eqn:Et; cbn [nonempty negb].
    + eexists. split; [done|]. split; [done|]. intros [H|H]; done.
    + rewrite DecimalFacts.div_ok by (apply of_nat_nonzero; cbn; lia). cbn.
      eexists. split; [done|]. split; [done|]. intros _. apply Hfloor.
Qed.

Lemma project_growth_floor_witness :
  project_growth (reset 10000) (-250) 10 None = Ok (-250)%Q.
Proof.
  destruct (project_growth_floor (reset 10000) (-250) 10 None) as (v & Hv & H & _).
  rewrite Hv. f_equal. by apply H.
Defined.

End CompoundFacts.

(** ** Portfolio tracker and the entry phase
    (src/portfolio/tracker.py, src/executor/position_monitor.py, src/core/bot.py) *)

Module Tracker.

Record state := mkState {
  _initial_balance : option Q;
  _realized_pnl : Q
}.

(** [sum(int(p.current_value) for p in positions)]. *)
Definition get_total_position_value (pm : PositionMonitor.state)
    (read : result (list Position)) : Z * PositionMonitor.state :=
  let '(positions, pm') := PositionMonitor.get_positions pm read in
  (foldl (fun total p => (total + Decimal.to_int (current_value p))%Z) 0%Z positions,
   pm').

(** [sum(int(p.unrealized_pnl) for p in positions)]. *)
Definition get_total_unrealized_pnl (pm : PositionMonitor.state)
    (read : result (list Position)) : Z * PositionMonitor.state :=
  let '(positions, pm') := PositionMonitor.get_positions pm read in
  (foldl (fun total p => (total + Decimal.to_int (unrealized_pnl p))%Z) 0%Z positions,
   pm').

(** [balance] is what [client.get_balance()] did; the positions are
    read only after the balance was. *)
Definition get_total_value (balance : result Q) (pm : PositionMonitor.state)
    (read : result (list Position)) : result Q * PositionMonitor.state :=
  match balance with
  | Raise e => (Raise e, pm)
  | Ok cash =>
      let '(positions, pm') := get_total_position_value pm read in
      (Ok (cash + inject_Z positions)%Q, pm')
  end.

(** [balances k] is what the [k]-th balance read of the call did. *)
Definition get_portfolio_value_for_sizing (compound_profits : bool) (st : state)
    (balances : nat -> result Q) (pm : PositionMonitor.state)
    (read : result (list Position))
    : result Q * state * PositionMonitor.state :=
  if compound_profits then
    let '(v, pm') := get_total_value (balances 0%nat) pm read in (v, st, pm')
  else
    match _initial_balance st with
    | Some b =>
        if Decimal.truthy b then (Ok b, st, pm)
        else let '(v, pm') := get_total_value (balances 0%nat) pm read in (v, st, pm')
    | None =>
        match balances 0%nat with
        | Raise e => (Raise e, st, pm)
        | Ok b =>
            let st' := {| _initial_balance := Some b;
                          _realized_pnl := _realized_pnl st |} in
            if Decimal.truthy b then (Ok b, st', pm)
            else
              let '(v, pm') := get_total_value (balances 1%nat) pm read in
              (v, st', pm')
        end
    end.

Definition can_open_position (max_concurrent_positions : Z)
    (pm : PositionMonitor.state) (read : result (list Position))
    : bool * PositionMonitor.state :=
  let '(current, pm') := PositionMonitor.count_positions pm read in
  ((Z.of_nat current <? max_concurrent_positions)%Z, pm').

End Tracker.

Module EntryPhase.

(** What the entry phase works on. *)
Record desk := mkDesk {
  monitor : PositionMonitor.state;
  orders : gmap string OrderResult;
  pending_exits : gset string;
  scanner : MarketScanner.state;
  tracker : Tracker.state;
  session : list TradeRecord;
  entry_ledger : list TradeSignal
}.

(** What the venue does during one entry phase. *)
Record venue := mkVenue {
  first_count_read : result (list Position);
  tickers_read : result (list Position);
  balances : nat -> result Q;
  value_read : result (list Position);
  pages : list (result Page);
  orderbooks : nat -> string -> result OrderBook;
  count_reads : nat -> result (list Position);
  placements : nat -> result OrderResult
}.

(** [DailyStats.record_entry]. *)
Definition record_entry (trades : list TradeRecord) (sg : TradeSignal) (now : Z)
    : list TradeRecord :=
  trades ++ [{| tr_ticker := ts_ticker sg; tr_side := Bot.side_value (ts_side sg);
                tr_action := "entry"; tr_contracts := ts_contracts sg;
                tr_price := ts_entry_price sg; tr_timestamp := now |}].

Section Phase.

Variable matches_category : Market -> MarketCategory -> bool.
Variable settings : TradingSettings.
(** The fields of the trading settings that only the bot and the
    tracker read. *)
Variable max_concurrent_positions : Z.
Variable compound_profits : bool.
Variable dry_run : bool.
Variable clk : Clock.
Variable describe : MarketOpportunity -> string.
(** [random.shuffle]. *)
Variable shuffle : list MarketOpportunity -> list MarketOpportunity.
Variable now : nat -> Z.

(** [count_positions() - len(pending exits) >= max_positions]. *)
Definition at_limit (current : nat) (d : desk) : bool :=
  (max_concurrent_positions
   <=? Z.of_nat current - Z.of_nat (size (pending_exits d)))%Z.

Definition with_monitor (d : desk) (pm : PositionMonitor.state) : desk :=
  {| monitor := pm; orders := orders d; pending_exits := pending_exits d;
     scanner := scanner d; tracker := tracker d; session := session d;
     entry_ledger := entry_ledger d |}.

(** The loop over the shuffled opportunities; [k] counts them. *)
Fixpoint enter_each (d : desk) (v : venue) (portfolio_value : Q)
    (opps : list MarketOpportunity) (k : nat) : result unit * desk :=
  match opps with
  | [] => (Ok tt, d)
  | opp :: rest =>
      let '(current, pm) := PositionMonitor.count_positions (monitor d) (count_reads v k) in
      let d := with_monitor d pm in
      if at_limit current d then (Ok tt, d)
      else
        match Entry.evaluate_entry describe settings opp portfolio_value with
        | Raise e => (Raise e, d)
        | Ok None => enter_each d v portfolio_value rest (S k)
        | Ok (Some signal) =>
            if dry_run then
              enter_each
                {| monitor := monitor d; orders := orders d;
                   pending_exits := pending_exits d; scanner := scanner d;
                   tracker := tracker d;
                   session := record_entry (session d) signal (now k);
                   entry_ledger := entry_ledger d |}
                v portfolio_value rest (S k)
            else
              let pm := PositionMonitor.add_pending_entry (monitor d) (ts_ticker signal) in
              match OrderTracking.place_entry_order (orders d) (placements v k) with
              | (Raise e, om) =>
                  (Raise e,
                   {| monitor := pm; orders := om; pending_exits := pending_exits d;
                      scanner := scanner d; tracker := tracker d;
                      session := session d; entry_ledger := entry_ledger d |})
              | (Ok (Some _), om) =>
                  enter_each
                    {| monitor := pm; orders := om; pending_exits := pending_exits d;
                       scanner := scanner d; tracker := tracker d;
                       session := record_entry (session d) signal (now k);
                       entry_ledger := entry_ledger d ++ [signal] |}
                    v portfolio_value rest (S k)
              | (Ok None, om) =>
                  enter_each
                    {| monitor :=
                         PositionMonitor.remove_pending_entry pm (ts_ticker signal);
                       orders := om; pending_exits := pending_exits d;
                       scanner := scanner d; tracker := tracker d;
                       session := session d; entry_ledger := entry_ledger d |}
                    v portfolio_value rest (S k)
              end
        end
  end.

Definition _scan_and_enter (d : desk) (v : venue) : result unit * desk :=
  let '(current_count, pm1) :=
    PositionMonitor.count_positions (monitor d) (first_count_read v) in
  let d1 := with_monitor d pm1 in
  if at_limit current_count d1 then (Ok tt, d1)
  else
    let '(existing, pm2) := PositionMonitor.get_position_tickers pm1 (tickers_read v) in
    let sc := MarketScanner.set_existing_positions (scanner d) existing in
    let '(value, tr, pm3) :=
      Tracker.get_portfolio_value_for_sizing compound_profits (tracker d)
        (balances v) pm2 (value_read v) in
    let d2 := {| monitor := pm3; orders := orders d; pending_exits := pending_exits d;
                 scanner := sc; tracker := tr; session := session d;
                 entry_ledger := entry_ledger d |} in
    match value with
    | Raise e => (Raise e, d2)
    | Ok portfolio_value =>
        let '(ys, sc', r) :=
          MarketScanner.scan_iter matches_category settings clk (orderbooks v)
            sc (pages v) in
        let d3 := {| monitor := pm3; orders := orders d;
                     pending_exits := pending_exits d; scanner := sc';
                     tracker := tr; session := session d;
                     entry_ledger := entry_ledger d |} in
        match r with
        | Raise e => (Raise e, d3)
        | Ok _ => enter_each d3 v portfolio_value (shuffle ys) 0
        end
    end.

End Phase.
End EntryPhase.

Module TrackerFacts.
Import Tracker.

Lemma truthy_nonzero (b : Q) : Decimal.truthy b = true <-> ~ (b == 0)%Q.
Proof.
  unfold Decimal.truthy, Decimal.eqb. rewrite negb_true_iff.
  rewrite <- Qeq_bool_iff. by destruct (Qeq_bool b 0).
Qed.

(** Where the position monitor is left by a sizing read: as it was, or
    as one read of the positions leaves it. *)
Lemma sizing_monitor compound st balances pm read :
  let pm' := (get_portfolio_value_for_sizing compound st balances pm read).2 in
  pm' = pm \/ pm' = (PositionMonitor.get_positions pm read).2.
Proof.
  unfold get_portfolio_value_for_sizing, get_total_value, get_total_position_value.
  destruct (PositionMonitor.get_positions pm read) as [ps pm1]. cbn.
  repeat case_match; simplify_eq; cbn; auto.
Qed.

(** Without compounding, the first sizing read fixes the sizing value:
    when the tracker holds no starting balance yet and the venue reports
    a non-zero balance [b], the call returns [b] without reading the
    positions, and every later call returns [b] again whatever the venue
    would answer, without asking for the balance or the positions. *)
Theorem sizing_frozen_at_first_balance (st : state) (balances : nat -> result Q)
    (pm : PositionMonitor.state) (read : result (list Position)) (b : Q) :
  _initial_balance st = None -> balances 0%nat = Ok b -> ~ (b == 0)%Q ->
  let '(v, st1, pm1) := get_portfolio_value_for_sizing false st balances pm read in
  v = Ok b /\ pm1 = pm
  /\ forall balances' pm' read',
       get_portfolio_value_for_sizing false st1 balances' pm' read' = (Ok b, st1, pm').
Proof.
  intros Hnone Hb Hnz. apply truthy_nonzero in Hnz.
  unfold get_portfolio_value_for_sizing. rewrite Hnone, Hb, Hnz.
  split; [done|]. split; [done|]. intros. cbn. by rewrite Hnz.
Qed.

(** A $500.00 starting balance, then a venue that only fails. *)
Lemma sizing_frozen_at_first_balance_witness :
  get_portfolio_value_for_sizing false
    {| _initial_balance := Some 50000%Q; _realized_pnl := 0%Q |}
    (fun _ => Raise RateLimitError) PositionMonitor.init (Raise RateLimitError)
  = (Ok 50000%Q, {| _initial_balance := Some 50000%Q; _realized_pnl := 0%Q |},
     PositionMonitor.init).
Proof.
  pose proof (sizing_frozen_at_first_balance
                {| _initial_balance := None; _realized_pnl := 0%Q |}
                (fun _ => Ok 50000%Q) PositionMonitor.init (Raise RateLimitError)
                50000%Q eq_refl eq_refl
                ltac:(intros H; vm_compute in H; discriminate)) as H.
  cbn in H. destruct H as (_ & _ & H).
  exact (H (fun _ => Raise RateLimitError) PositionMonitor.init
            (Raise RateLimitError)).
Defined.

(** A zero starting balance is recorded but never used: the call goes on
    to the total value, with a second balance read. *)
Example zero_balance_falls_through :
  get_portfolio_value_for_sizing false
    {| _initial_balance := None; _realized_pnl := 0%Q |}
    (fun k => match k with O => Ok 0%Q | _ => Raise RateLimitError end)
    PositionMonitor.init (Ok [])
  = (Raise RateLimitError, {| _initial_balance := Some 0%Q; _realized_pnl := 0%Q |},
     PositionMonitor.init).
Proof. done. Qed.

End TrackerFacts.

Module EntryPhaseFacts.
Import EntryPhase.

Abbreviation opp_ticker := MarketScannerFacts.opp_ticker.
Abbreviation opp_event := MarketScannerFacts.opp_event.
Abbreviation pending_entries := PositionMonitor._pending_entry_tickers.
Abbreviation tickers_of := PositionMonitor.tickers_of.

(** The event of a recorded trade. *)
Definition event_of (tr : TradeRecord) : string :=
  MarketScanner._get_event_prefix (tr_ticker tr).

(** What [count_positions] returns when the venue lists [ps]. *)
Definition counted (ps : list Position) (pm : PositionMonitor.state) : nat :=
  (PositionMonitor.count_positions pm (Ok ps)).1.

(** The count the entry phase compares with the limit. *)
Definition effective (ps : list Position) (d : desk) : Z :=
  (Z.of_nat (counted ps (monitor d)) - Z.of_nat (size (pending_exits d)))%Z.

Lemma counted_eq ps pm :
  counted ps pm = (length ps + size (pending_entries pm ∖ tickers_of ps))%nat.
Proof.
  unfold counted. rewrite PositionMonitorFacts.count_positions_eq.
  by rewrite PositionMonitorFacts.get_positions_ok.
Qed.

Lemma read_pending ps pm :
  pending_entries (PositionMonitor.get_positions pm (Ok ps)).2
  = pending_entries pm ∖ tickers_of ps.
Proof.
  by rewrite PositionMonitorFacts.get_positions_ok.
Qed.

Lemma count_positions_monitor pm answer :
  (PositionMonitor.count_positions pm answer).2
  = (PositionMonitor.get_positions pm answer).2.
Proof.
  unfold PositionMonitor.count_positions.
  by destruct (PositionMonitor.get_positions pm answer).
Qed.

Lemma counted_read ps pm :
  counted ps (PositionMonitor.get_positions pm (Ok ps)).2 = counted ps pm.
Proof.
  rewrite !counted_eq, read_pending. do 2 f_equal. set_solver.
Qed.

Lemma counted_add ps pm t :
  t ∉ tickers_of ps -> t ∉ pending_entries pm ->
  counted ps (PositionMonitor.add_pending_entry pm t) = S (counted ps pm).
Proof.
  intros HP HE. rewrite !counted_eq. cbn.
  assert (({[t]} ∪ pending_entries pm) ∖ tickers_of ps
          = {[t]} ∪ (pending_entries pm ∖ tickers_of ps)) as -> by set_solver.
  rewrite size_union by set_solver. rewrite size_singleton. lia.
Qed.

Lemma counted_add_remove ps pm t :
  t ∉ pending_entries pm ->
  counted ps (PositionMonitor.remove_pending_entry
                (PositionMonitor.add_pending_entry pm t) t)
  = counted ps pm.
Proof.
  intros HE. rewrite !counted_eq. cbn. do 2 f_equal. set_solver.
Qed.

Section Phase.

Variable matches_category : Market -> MarketCategory -> bool.
Variable settings : TradingSettings.
Variable max_concurrent_positions : Z.
Variable compound_profits : bool.
Variable clk : Clock.
Variable describe : MarketOpportunity -> string.
Variable shuffle : list MarketOpportunity -> list MarketOpportunity.
Variable now : nat -> Z.

(** [random.shuffle] rearranges the list. *)
Hypothesis shuffle_perm : forall l, shuffle l ≡ₚ l.

Lemma evaluate_entry_ticker opp pv sg :
  Entry.evaluate_entry describe settings opp pv = Ok (Some sg) ->
  ts_ticker sg = opp_ticker opp.
Proof.
  unfold Entry.evaluate_entry.
  destruct (PositionSizer.calculate_contracts settings pv (entry_price opp))
    as [c|e]; cbn; [|done].
  destruct (c <=? 0)%Z; [done|].
  destruct (negb _); [done|]. by intros [= <-].
Qed.

(** The loop records entries only, for opportunities of its list, in
    the order of the list, each at most once. *)
Lemma enter_each_session dry_run v pv opps : forall d k,
  let d' := (enter_each settings max_concurrent_positions dry_run describe now
               d v pv opps k).2 in
  exists added,
    session d' = session d ++ added
    /\ (tr_ticker <$> added) `sublist_of` (opp_ticker <$> opps)
    /\ Forall (fun tr => tr_action tr = "entry") added.
Proof.
  induction opps as [|opp rest IH]; intros d k; cbn [enter_each].
  - exists []. cbn. rewrite app_nil_r. repeat split; constructor.
  - destruct (PositionMonitor.count_positions (monitor d) (count_reads v k))
      as [c pm].
    destruct (at_limit max_concurrent_positions c (with_monitor d pm)).
    { exists []. cbn. rewrite app_nil_r. repeat split; [apply sublist_nil_l | constructor]. }
    destruct (Entry.evaluate_entry describe settings opp pv) as [[sg|]|e] eqn:Hev.
    + pose proof (evaluate_entry_ticker _ _ _ Hev) as Ht.
      destruct dry_run.
      * match goal with
        | |- context [enter_each _ _ _ _ _ ?d2 v pv rest (S k)] =>
            destruct (IH d2 (S k)) as (added & Hs & Hsub & Hall)
        end.
        cbn in Hs. unfold record_entry in Hs. rewrite <- app_assoc in Hs.
        eexists. split; [exact Hs|]. cbn. rewrite Ht.
        split; [by apply sublist_skip | by constructor].
      * destruct (OrderTracking.place_entry_order (orders (with_monitor d pm))
                    (placements v k)) as [[[r|]|e] om]; lazy beta iota zeta.
        -- match goal with
           | |- context [enter_each _ _ _ _ _ ?d2 v pv rest (S k)] =>
               destruct (IH d2 (S k)) as (added & Hs & Hsub & Hall)
           end.
           cbn in Hs. unfold record_entry in Hs. rewrite <- app_assoc in Hs.
           eexists. split; [exact Hs|]. cbn. rewrite Ht.
           split; [by apply sublist_skip | by constructor].
        -- match goal with
           | |- context [enter_each _ _ _ _ _ ?d2 v pv rest (S k)] =>
               destruct (IH d2 (S k)) as (added & Hs & Hsub & Hall)
           end.
           cbn in Hs. exists added. cbn.
           split; [done|]. split; [by apply sublist_cons | done].
        -- exists []. cbn. rewrite app_nil_r.
           repeat split; [apply sublist_nil_l | constructor].
    + destruct (IH (with_monitor d pm) (S k)) as (added & Hs & Hsub & Hall).
      cbn in Hs. exists added. cbn.
      split; [done|]. split; [by apply sublist_cons | done].
    + exists []. cbn. rewrite app_nil_r.
      repeat split; [apply sublist_nil_l | constructor].
Qed.

(** One entry phase records entries only, appended to the session's
    trades; no two of them are on the same event; and none is on a
    ticker, or on the event of a ticker, that the position monitor
    reported (held or pending) when the phase started. This holds in
    dry-run mode and with real orders, whatever the venue answers, for
    any [shuffle] that rearranges its list. *)
Theorem scan_and_enter_one_per_event (dry_run : bool) (d : desk) (v : venue) :
  let existing :=
    (PositionMonitor.get_position_tickers
       (PositionMonitor.count_positions (monitor d) (first_count_read v)).2
       (tickers_read v)).1 in
  let d' := (_scan_and_enter matches_category settings max_concurrent_positions
               compound_profits dry_run clk describe shuffle now d v).2 in
  exists added,
    session d' = session d ++ added
    /\ NoDup (event_of <$> added)
    /\ (forall tr, tr ∈ added ->
          tr_action tr = "entry"
          /\ (tr_ticker tr ∉ existing)
          /\ (forall t, t ∈ existing ->
                event_of tr <> MarketScanner._get_event_prefix t)).
Proof using shuffle_perm.
  cbn zeta. unfold _scan_and_enter.
  destruct (PositionMonitor.count_positions (monitor d) (first_count_read v))
    as [c pm1]. cbn [snd].
  assert (Hnone : forall existing : gset string,
            session d = session d ++ []
            /\ NoDup (event_of <$> [])
            /\ (forall tr, tr ∈ [] ->
                  tr_action tr = "entry"
                  /\ (tr_ticker tr ∉ existing)
                  /\ (forall t, t ∈ existing ->
                        event_of tr <> MarketScanner._get_event_prefix t))).
  { intros existing. rewrite app_nil_r. split; [done|]. split; [constructor|].
    by intros tr ?%elem_of_nil. }
  destruct (at_limit max_concurrent_positions c (with_monitor d pm1)).
  { exists []. apply Hnone. }
  destruct (PositionMonitor.get_position_tickers pm1 (tickers_read v))
    as [existing pm2]. cbn [fst].
  destruct (Tracker.get_portfolio_value_for_sizing compound_profits (tracker d)
              (balances v) pm2 (value_read v)) as [[value tr] pm3].
  destruct value as [pv|e]; [|exists []; apply Hnone].
  pose proof (MarketScannerFacts.scan_pages_claims matches_category settings clk
                (orderbooks v) (pages v)
                (MarketScanner.set_existing_positions (scanner d) existing) 0)
    as (Hnd & Hnew & _).
  unfold MarketScanner.scan_iter.
  destruct (MarketScanner.scan_pages matches_category settings clk (orderbooks v)
              (pages v) (MarketScanner.set_existing_positions (scanner d) existing) 0)
    as [[ys sc'] r]. cbn [fst snd] in Hnd, Hnew.
  destruct r as [[]|e]; [|exists []; apply Hnone].
  match goal with
  | |- context [enter_each _ _ _ _ _ ?d3 v pv (shuffle ys) 0] =>
      destruct (enter_each_session dry_run v pv (shuffle ys) d3 0)
        as (added & Hs & Hsub & Hall)
  end.
  exists added. split; [exact Hs|].
  assert (Hnd' : NoDup (opp_event <$> shuffle ys)) by by rewrite shuffle_perm.
  split.
  - assert (event_of <$> added
            = MarketScanner._get_event_prefix <$> (tr_ticker <$> added)) as ->
      by by rewrite <- list_fmap_compose.
    refine (sublist_NoDup _ _ _ (fmap_sublist _ _ _ Hsub)).
    by rewrite <- list_fmap_compose.
  - intros tr' Htr. split; [by eapply Forall_forall in Hall|].
    assert (Hin : tr_ticker tr' ∈ opp_ticker <$> shuffle ys).
    { eapply elem_of_sublist; [|exact Hsub]. by apply list_elem_of_fmap_2. }
    apply list_elem_of_fmap in Hin as (o & Ho & Hin).
    rewrite shuffle_perm in Hin. destruct (Hnew o Hin) as [HP HE].
    unfold event_of. rewrite Ho. split; [exact HP|].
    intros t Ht Heq. apply HE.
    apply MarketScannerFacts.existing_events_spec. eauto.
Qed.

(** The loop with real orders, while the venue keeps listing [ps]:
    every ticker it marks as pending is new to the count. *)
Lemma enter_each_limit ps v pv (Hreads : forall k, count_reads v k = Ok ps) opps :
  forall d k,
  NoDup (opp_ticker <$> opps) ->
  (forall o, o ∈ opps ->
     opp_ticker o ∉ tickers_of ps ∪ pending_entries (monitor d)) ->
  let d' := (enter_each settings max_concurrent_positions false describe now
               d v pv opps k).2 in
  pending_exits d' = pending_exits d
  /\ (effective ps d' <= Z.max max_concurrent_positions (effective ps d))%Z
  /\ (Z.of_nat (length (session d')) - Z.of_nat (length (session d))
      <= effective ps d' - effective ps d)%Z.
Proof.
  clear shuffle_perm shuffle.
  induction opps as [|opp rest IH]; intros d k Hnd Hfresh; cbn [enter_each].
  { cbn. split; [done|]. lia. }
  rewrite fmap_cons in Hnd. apply NoDup_cons in Hnd as [Hhead Htail].
  assert (Hopp : opp_ticker opp ∉ tickers_of ps ∪ pending_entries (monitor d))
    by (apply Hfresh; left).
  assert (Hrest : forall o, o ∈ rest ->
            opp_ticker o ∉ tickers_of ps ∪ pending_entries (monitor d))
    by (intros o Ho; apply Hfresh; by right).
  assert (Hne : forall o, o ∈ rest -> opp_ticker o <> opp_ticker opp).
  { intros o Ho Heq. apply Hhead. rewrite <- Heq. by apply list_elem_of_fmap_2. }
  rewrite Hreads.
  pose proof (count_positions_monitor (monitor d) (Ok ps)) as Hpm.
  assert (Hc : (PositionMonitor.count_positions (monitor d) (Ok ps)).1
               = counted ps (monitor d)) by done.
  destruct (PositionMonitor.count_positions (monitor d) (Ok ps)) as [c pm].
  cbn [fst snd] in Hpm, Hc. subst c.
  assert (Hcnt : counted ps pm = counted ps (monitor d))
    by (rewrite Hpm; apply counted_read).
  assert (Hpend : pending_entries pm = pending_entries (monitor d) ∖ tickers_of ps)
    by (rewrite Hpm; apply read_pending).
  clear Hpm.
  assert (Heff : effective ps (with_monitor d pm) = effective ps d)
    by (unfold effective; cbn [monitor pending_exits with_monitor];
        by rewrite Hcnt).
  destruct (at_limit max_concurrent_positions (counted ps (monitor d))
              (with_monitor d pm)) eqn:Hlim.
  { cbn [snd]. split; [done|]. rewrite Heff. cbn [session with_monitor]. lia. }
  unfold at_limit in Hlim. apply Z.leb_gt in Hlim.
  cbn [pending_exits with_monitor] in Hlim.
  change (effective ps d < max_concurrent_positions)%Z in Hlim.
  destruct (Entry.evaluate_entry describe settings opp pv) as [[sg|]|e] eqn:Hev.
  - pose proof (evaluate_entry_ticker _ _ _ Hev) as Ht.
    assert (Hadd : counted ps (PositionMonitor.add_pending_entry pm (ts_ticker sg))
                   = S (counted ps (monitor d))).
    { rewrite <- Hcnt. apply counted_add; rewrite Ht; [set_solver|].
      rewrite Hpend. set_solver. }
    destruct (OrderTracking.place_entry_order (orders (with_monitor d pm))
                (placements v k)) as [[[r|]|e] om]; lazy beta iota zeta.
    + match goal with
      | |- context [enter_each _ _ _ _ _ ?d2 v pv rest (S k)] =>
          assert (Heff2 : effective ps d2 = (effective ps d + 1)%Z);
            [|destruct (IH d2 (S k)) as (Hx & Hcap & Hlen); [done| |];
              [|set (d' := (enter_each _ _ _ _ _ d2 v pv rest (S k)).2) in *;
                clearbody d']]
      end.
      * unfold effective. cbn [monitor pending_exits with_monitor].
        rewrite Hadd. lia.
      * intros o Ho. cbn. rewrite Hpend, Ht.
        specialize (Hrest o Ho). specialize (Hne o Ho). set_solver.
      * rewrite Heff2 in Hcap, Hlen.
        cbn [session pending_exits with_monitor] in Hx, Hlen.
        unfold record_entry in Hlen. rewrite length_app in Hlen.
        cbn [length] in Hlen. split; [done|]. lia.
    + match goal with
      | |- context [enter_each _ _ _ _ _ ?d2 v pv rest (S k)] =>
          assert (Heff2 : effective ps d2 = effective ps d);
            [|destruct (IH d2 (S k)) as (Hx & Hcap & Hlen); [done| |];
              [|set (d' := (enter_each _ _ _ _ _ d2 v pv rest (S k)).2) in *;
                clearbody d']]
      end.
      * unfold effective. cbn [monitor pending_exits with_monitor].
        rewrite counted_add_remove, Hcnt; [done|].
        rewrite Hpend, Ht. set_solver.
      * intros o Ho. cbn. rewrite Hpend.
        specialize (Hrest o Ho). set_solver.
      * rewrite Heff2 in Hcap, Hlen.
        cbn [session pending_exits with_monitor] in Hx, Hlen. done.
    + cbn [snd]. split; [done|].
      match goal with
      | |- context [effective ps ?d2] =>
          assert (Heff2 : effective ps d2 = (effective ps d + 1)%Z)
      end.
      { unfold effective. cbn [monitor pending_exits with_monitor].
        rewrite Hadd. lia. }
      rewrite Heff2. cbn [session with_monitor]. lia.
  - destruct (IH (with_monitor d pm) (S k)) as (Hx & Hcap & Hlen); [done| |].
    + intros o Ho. cbn. rewrite Hpend. specialize (Hrest o Ho). set_solver.
    + set (d' := (enter_each _ _ _ _ _ (with_monitor d pm) v pv rest (S k)).2) in *.
      clearbody d'. rewrite Heff in Hcap, Hlen.
      cbn [session pending_exits with_monitor] in Hx, Hlen. done.
  - cbn [snd]. split; [done|]. rewrite Heff. cbn [session with_monitor]. lia.
Qed.

(** With real orders, and while the venue keeps listing the same
    positions [ps], one entry phase leaves the pending exits alone, never
    takes the count it compares with [max_concurrent_positions] (positions
    and pending entries, less pending exits) above that limit unless it
    was above already, and records at most as many entries as there was
    room for below the limit. *)
Theorem scan_and_enter_respects_limit (d : desk) (v : venue) (ps : list Position) :
  first_count_read v = Ok ps -> tickers_read v = Ok ps ->
  value_read v = Ok ps -> (forall k, count_reads v k = Ok ps) ->
  let d' := (_scan_and_enter matches_category settings max_concurrent_positions
               compound_profits false clk describe shuffle now d v).2 in
  pending_exits d' = pending_exits d
  /\ (effective ps d' <= Z.max max_concurrent_positions (effective ps d))%Z
  /\ (Z.of_nat (length (session d')) - Z.of_nat (length (session d))
      <= Z.max 0 (max_concurrent_positions - effective ps d))%Z.
Proof using shuffle_perm.
  intros Hfirst Htickers Hvalue Hreads. cbn zeta. unfold _scan_and_enter.
  rewrite Hfirst, Htickers, Hvalue.
  pose proof (count_positions_monitor (monitor d) (Ok ps)) as Hpm.
  assert (Hc : (PositionMonitor.count_positions (monitor d) (Ok ps)).1
               = counted ps (monitor d)) by done.
  destruct (PositionMonitor.count_positions (monitor d) (Ok ps)) as [c pm1].
  cbn [fst snd] in Hpm, Hc. subst c.
  assert (Hcnt1 : counted ps pm1 = counted ps (monitor d))
    by (rewrite Hpm; apply counted_read).
  assert (Hpend1 : pending_entries pm1 = pending_entries (monitor d) ∖ tickers_of ps)
    by (rewrite Hpm; apply read_pending).
  clear Hpm.
  assert (Heff1 : effective ps (with_monitor d pm1) = effective ps d)
    by (unfold effective; cbn [monitor pending_exits with_monitor];
        by rewrite Hcnt1).
  destruct (at_limit max_concurrent_positions (counted ps (monitor d))
              (with_monitor d pm1)) eqn:Hlim.
  { cbn [snd]. split; [done|]. rewrite Heff1. cbn [session with_monitor]. lia. }
  unfold at_limit in Hlim. apply Z.leb_gt in Hlim.
  cbn [pending_exits with_monitor] in Hlim.
  change (effective ps d < max_concurrent_positions)%Z in Hlim.
  unfold PositionMonitor.get_position_tickers.
  pose proof (counted_read ps pm1) as Hcnt2.
  pose proof (read_pending ps pm1) as Hpend2.
  destruct (PositionMonitor.get_positions pm1 (Ok ps)) as [ps' pm2] eqn:Hread.
  rewrite PositionMonitorFacts.get_positions_ok in Hread.
  injection Hread as <- Hpm2. cbn [snd] in Hcnt2, Hpend2.
  pose proof (TrackerFacts.sizing_monitor compound_profits (tracker d)
                (balances v) pm2 (Ok ps)) as Hpm3.
  cbn zeta in Hpm3.
  destruct (Tracker.get_portfolio_value_for_sizing compound_profits (tracker d)
              (balances v) pm2 (Ok ps)) as [[value tr] pm3].
  cbn [snd] in Hpm3.
  assert (Hcnt3 : counted ps pm3 = counted ps (monitor d)).
  { destruct Hpm3 as [->| ->]; [|rewrite counted_read]; congruence. }
  assert (Hpend3 : pending_entries pm3 ⊆ pending_entries pm2).
  { destruct Hpm3 as [->| ->]; [done|]. rewrite read_pending. set_solver. }
  clear Hpm3.
  match goal with
  | |- context [MarketScanner.set_existing_positions _ ?e] => set (existing := e) in *
  end.
  destruct value as [pv|e].
  2:{ cbn [snd session pending_exits]. split; [done|].
      unfold effective at 1. cbn [monitor pending_exits]. rewrite Hcnt3.
      fold (effective ps d). lia. }
  pose proof (MarketScannerFacts.scan_pages_claims matches_category settings clk
                (orderbooks v) (pages v)
                (MarketScanner.set_existing_positions (scanner d) existing) 0)
    as (Hnd & Hnew & _).
  unfold MarketScanner.scan_iter.
  destruct (MarketScanner.scan_pages matches_category settings clk (orderbooks v)
              (pages v) (MarketScanner.set_existing_positions (scanner d) existing) 0)
    as [[ys sc'] r]. cbn [fst snd] in Hnd, Hnew.
  destruct r as [[]|e].
  2:{ cbn [snd session pending_exits]. split; [done|].
      unfold effective at 1. cbn [monitor pending_exits]. rewrite Hcnt3.
      fold (effective ps d). lia. }
  match goal with
  | |- context [enter_each _ _ _ _ _ ?d3 v pv (shuffle ys) 0] =>
      assert (Heff3 : effective ps d3 = effective ps d);
        [|destruct (enter_each_limit ps v pv Hreads (shuffle ys) d3 0)
            as (Hx & Hcap & Hlen);
          [| |set (d' := (enter_each _ _ _ _ _ d3 v pv (shuffle ys) 0).2) in *;
              clearbody d']]
  end.
  - unfold effective. cbn [monitor pending_exits]. by rewrite Hcnt3.
  - assert (opp_event <$> ys
            = MarketScanner._get_event_prefix <$> (opp_ticker <$> ys)) as Heq
      by by rewrite <- list_fmap_compose.
    rewrite Heq in Hnd. apply NoDup_fmap_1 in Hnd.
    by rewrite shuffle_perm.
  - intros o Ho. rewrite shuffle_perm in Ho.
    destruct (Hnew o Ho) as [HP _]. cbn in HP. cbn [monitor].
    intros Hin. apply HP. unfold existing. set_solver.
  - rewrite Heff3 in Hcap, Hlen. cbn [session pending_exits] in Hx, Hlen.
    split; [done|]. lia.
Qed.

End Phase.
End EntryPhaseFacts.

Module EntryPhaseExamples.
Import EntryPhase EntryPhaseFacts.

(** A fresh bot sizing on a $500.00 starting balance. *)
Definition fresh_desk : desk :=
  {| monitor := PositionMonitor.init; orders := ∅; pending_exits := ∅;
     scanner := MarketScanner.init;
     tracker := {| Tracker._initial_balance := Some 50000%Q;
                   Tracker._realized_pnl := 0%Q |};
     session := []; entry_ledger := [] |}.

(** A venue that lists no position, offers the two games of
    [two_games] and rests every order. *)
Definition calm_venue : venue :=
  {| first_count_read := Ok []; tickers_read := Ok [];
     balances := fun _ => Ok 50000%Q; value_read := Ok [];
     pages := [Ok ScannerRunExamples.two_games];
     orderbooks := fun _ _ => Raise OtherError;
     count_reads := fun _ => Ok [];
     placements := fun k =>
       Ok {| order_id := "order"; status := RESTING; filled_contracts := 0;
             remaining_contracts := 58; average_price := None; created_at := 0 |} |}.

(** One entry phase with room for [limit] positions. *)
Definition phase (limit : Z) (dry_run : bool) : desk :=
  (_scan_and_enter (fun _ _ => true) MarketScannerFacts.scan_settings limit false
     dry_run {| now_utc := 0; today_local := "FEB16" |} EntryExamples.plain
     reverse (fun _ => 0%Z) fresh_desk calm_venue).2.

(** With room for one position, one order is placed: the last game of
    the page, first after the rearrangement. *)
Example phase_enters_once :
  tr_ticker <$> session (phase 1 false) = [ "KXNBAGAME-26FEB16NYKMIA-NYK" ].
Proof. by vm_compute. Qed.

(** A dry run marks nothing as pending, so the count never moves and
    both games are recorded. *)
Example dry_run_ignores_limit :
  tr_ticker <$> session (phase 1 true)
  = [ "KXNBAGAME-26FEB16NYKMIA-NYK"; "KXNBAGAME-26FEB16LALBOS-BOS" ].
Proof. by vm_compute. Qed.

Lemma scan_and_enter_one_per_event_witness :
  exists added,
    session (phase 2 false) = [] ++ added
    /\ NoDup (event_of <$> added)
    /\ (forall tr, tr ∈ added ->
          tr_action tr = "entry"
          /\ (tr_ticker tr ∉ (∅ : gset string))
          /\ (forall t, t ∈ (∅ : gset string) ->
                event_of tr <> MarketScanner._get_event_prefix t)).
Proof.
  exact (scan_and_enter_one_per_event (fun _ _ => true)
           MarketScannerFacts.scan_settings 2 false
           {| now_utc := 0; today_local := "FEB16" |} EntryExamples.plain
           reverse (fun _ => 0%Z) (@reverse_Permutation _) false
           fresh_desk calm_venue).
Defined.

Lemma scan_and_enter_respects_limit_witness :
  pending_exits (phase 1 false) = ∅
  /\ (effective [] (phase 1 false) <= Z.max 1 (effective [] fresh_desk))%Z
  /\ (Z.of_nat (length (session (phase 1 false))) - Z.of_nat 0
      <= Z.max 0 (1 - effective [] fresh_desk))%Z.
Proof.
  exact (scan_and_enter_respects_limit (fun _ _ => true)
           MarketScannerFacts.scan_settings 1 false
           {| now_utc := 0; today_local := "FEB16" |} EntryExamples.plain
           reverse (fun _ => 0%Z) (@reverse_Permutation _)
           fresh_desk calm_venue [] eq_refl eq_refl eq_refl (fun _ => eq_refl)).
Defined.

End EntryPhaseExamples.
